(** * Action resolution, AI strategies, projectiles and the mode scheduler

    A shallow embedding of the simulation core of the roguelike
    (actions.py, components/ai.py, projectiles.py, engine.py) and the
    properties its specification states about it.

    Python objects live in a heap indexed by references ([nat]); the map
    holds references, a projectile holds a reference to its owner, and a
    write through one reference is seen through every other.  A method
    that can raise [Impossible] is a computation in the monad [M], which
    threads the world and keeps the writes made before the raise. *)

From stdpp Require Import base gmap sets list strings pretty.
From Stdlib Require Import ZArith Lia Ascii.

Open Scope Z_scope.

(** ** color.py (names only) *)

Inductive Color :=
| white | red | player_atk | enemy_atk | welcome_text | status_effect_applied.

(** ** The logging sink *)

Record Message := { text : string; fg : Color }.

(** ** Python helpers *)

(** [range(a, b)] *)
Definition range_ (a b : Z) : list Z := seqZ a (b - a).

Definition upper_ascii (c : ascii) : ascii :=
  let n := Ascii.N_of_ascii c in
  if ((97 <=? n) && (n <=? 122))%N then Ascii.ascii_of_N (n - 32) else c.

Definition lower_ascii (c : ascii) : ascii :=
  let n := Ascii.N_of_ascii c in
  if ((65 <=? n) && (n <=? 90))%N then Ascii.ascii_of_N (n + 32) else c.

Fixpoint lower (s : string) : string :=
  match s with
  | EmptyString => EmptyString
  | String c s' => String (lower_ascii c) (lower s')
  end.

(** [str.capitalize()] on ASCII text: first character upper case, the
    rest lower case. *)
Definition capitalize (s : string) : string :=
  match s with
  | EmptyString => EmptyString
  | String c s' => String (upper_ascii c) (lower s')
  end.

(** A signed 8-bit cell of a numpy [int8] array: values wrap around. *)
Definition wrap8 (z : Z) : Z := (z + 128) mod 256 - 128.

(** Python truthiness of an [Optional[...]] object reference. *)
Definition truthy {A : Type} (o : option A) : bool :=
  match o with Some _ => true | None => false end.

(** ** components/fighter.py *)

(** The two [on_expire] callbacks that components/consumable.py installs
    (strength potion, defense potion). *)
Inductive ExpireEffect :=
| lower_base_power (boost : Z)
| lower_base_defense (boost : Z).

Record Buff := {
  turns_left : Z;
  on_expire : ExpireEffect;
  message : string;
  color : Color;
}.

(** The stats that entity_factories.py and consumable.py read and write
    on a fighter. *)
Record Fighter := {
  hp : Z;
  max_hp : Z;
  base_defense : Z;
  base_power : Z;
  (* a dict in the source; kept in insertion order *)
  temporary_buffs : list (string * Buff);
}.

Definition set_hp (v : Z) (f : Fighter) : Fighter :=
  {| hp := v; max_hp := max_hp f; base_defense := base_defense f;
     base_power := base_power f; temporary_buffs := temporary_buffs f |}.

Definition set_base_power (v : Z) (f : Fighter) : Fighter :=
  {| hp := hp f; max_hp := max_hp f; base_defense := base_defense f;
     base_power := v; temporary_buffs := temporary_buffs f |}.

Definition set_base_defense (v : Z) (f : Fighter) : Fighter :=
  {| hp := hp f; max_hp := max_hp f; base_defense := v;
     base_power := base_power f; temporary_buffs := temporary_buffs f |}.

Definition set_temporary_buffs (b : list (string * Buff)) (f : Fighter) : Fighter :=
  {| hp := hp f; max_hp := max_hp f; base_defense := base_defense f;
     base_power := base_power f; temporary_buffs := b |}.

Definition run_on_expire (e : ExpireEffect) (f : Fighter) : Fighter :=
  match e with
  | lower_base_power boost => set_base_power (base_power f - boost) f
  | lower_base_defense boost => set_base_defense (base_defense f - boost) f
  end.

(** ** components/ai.py: the strategies and their state *)

#[warnings="-register-all"]
Inductive AI :=
| HostileEnemy (path : list (Z * Z))
| ConfusedEnemy (previous_ai : option AI) (turns_remaining : Z)
| ParalyzedEnemy (previous_ai : option AI) (turns_remaining : Z)
| HostileEnemyWithProjectile (path : list (Z * Z)) (projectile_range projectile_cooldown : Z)
| RangedEnemy (path : list (Z * Z)) (preferred_distance projectile_cooldown : Z)
| BlacksmithAI
| BossAI (path : list (Z * Z)) (cooldown : Z).

(** ** entity.py *)

Module Entity.

(** Modelled from the spec: entity.py is not among the sources.  An entity
    has a position, a name and a blocking flag; an Actor also has combat
    stats, a nullable AI strategy and a facing direction.  [power_bonus]
    and [defense_bonus] stand for what the equipment adds to the stats. *)
Record t := {
  x : Z;
  y : Z;
  name : string;
  blocks_movement : bool;
  is_actor : bool;
  fighter : Fighter;
  power_bonus : Z;
  defense_bonus : Z;
  ai : option AI;
  facing_direction : Z * Z;
}.

End Entity.

Import Entity.

Definition set_xy (nx ny : Z) (e : Entity.t) : Entity.t :=
  {| x := nx; y := ny; name := name e; blocks_movement := blocks_movement e;
     is_actor := is_actor e; fighter := fighter e; power_bonus := power_bonus e;
     defense_bonus := defense_bonus e; ai := ai e;
     facing_direction := facing_direction e |}.

Definition set_fighter (f : Fighter) (e : Entity.t) : Entity.t :=
  {| x := x e; y := y e; name := name e; blocks_movement := blocks_movement e;
     is_actor := is_actor e; fighter := f; power_bonus := power_bonus e;
     defense_bonus := defense_bonus e; ai := ai e;
     facing_direction := facing_direction e |}.

Definition set_ai (a : option AI) (e : Entity.t) : Entity.t :=
  {| x := x e; y := y e; name := name e; blocks_movement := blocks_movement e;
     is_actor := is_actor e; fighter := fighter e; power_bonus := power_bonus e;
     defense_bonus := defense_bonus e; ai := a;
     facing_direction := facing_direction e |}.

(** Modelled from the spec: the fighter's stat surface, fighter.py not
    being among the sources.  Power is the base stat plus the equipment's
    bonus. *)
Definition power (e : Entity.t) : Z := base_power (fighter e) + power_bonus e.

(** Modelled from the spec: defense is the base stat plus the equipment's
    bonus. *)
Definition defense (e : Entity.t) : Z := base_defense (fighter e) + defense_bonus e.

(** ** projectiles.py: the projectile object *)

Inductive ProjectileClass :=
| Projectile_cls
| DirectionalProjectile_cls (frame_index : Z)
| ShockwaveProjectile_cls (expanding_radius : Z)
| CrossProjectile_cls
| DiagonalProjectile_cls.

Module Projectile.

(** Display attributes (symbol, char, color) are read by [render] only and
    are left out. *)
Record t := {
  cls : ProjectileClass;
  actor : nat;                 (* reference to the owner *)
  x : Z;
  y : Z;
  range : Z;
  damage : Z;
  dx : Z;
  dy : Z;
  distance_travelled : Z;
  done : bool;
  can_hit_self : bool;
  hit_actors : gset nat;       (* set of references *)
}.

End Projectile.

(** ** game_map.py and the part of the engine that actions reach *)

(** The arrays and the entity collection of the map, as the sources read
    them.  An array is the function from a cell to its entry: the embedded
    code reads the arrays at cells that passed [in_bounds] or at the
    position of an entity of the map. *)
Record GameMap := {
  width : Z;
  height : Z;
  walkable : Z → Z → bool;     (* tiles["walkable"][x, y] *)
  visible : Z → Z → bool;      (* visible[x, y] *)
  entities : list nat;         (* references, in iteration order *)
}.

(** What an action reaches through [self.engine]: the map, the objects
    behind the references, the player, the log and the projectiles in
    flight. *)
Record World := {
  game_map : GameMap;
  heap : nat → Entity.t;
  player : nat;
  message_log : list Message;
  active_projectiles : list Projectile.t;
}.

Definition set_heap (h : nat → Entity.t) (w : World) : World :=
  {| game_map := game_map w; heap := h; player := player w;
     message_log := message_log w; active_projectiles := active_projectiles w |}.

Definition set_message_log (l : list Message) (w : World) : World :=
  {| game_map := game_map w; heap := heap w; player := player w;
     message_log := l; active_projectiles := active_projectiles w |}.

Definition set_active_projectiles (ps : list Projectile.t) (w : World) : World :=
  {| game_map := game_map w; heap := heap w; player := player w;
     message_log := message_log w; active_projectiles := ps |}.

(** Writing a field of the object behind reference [r]. *)
Definition store (r : nat) (e : Entity.t) (h : nat → Entity.t) : nat → Entity.t :=
  λ r', if Nat.eqb r' r then e else h r'.

Definition update_entity (r : nat) (f : Entity.t → Entity.t) (w : World) : World :=
  set_heap (store r (f (heap w r)) (heap w)) w.

(** Modelled from the spec: message_log.py is not among the sources.  The
    sink accepts a text and a color tag and keeps the order of arrival; a
    message logged without a color is tagged [white]. *)
Definition add_message (t : string) (c : Color) (w : World) : World :=
  set_message_log (message_log w ++ [{| text := t; fg := c |}]) w.

(** Modelled from the spec: the bounds test of game_map.py, which is not
    among the sources.  A cell is in bounds when 0 <= x < width and
    0 <= y < height, the bounds [ThrowProjectileAction] clamps to. *)
Definition in_bounds (gm : GameMap) (cx cy : Z) : bool :=
  (0 <=? cx) && (cx <? width gm) && (0 <=? cy) && (cy <? height gm).

(** Modelled from the spec: [game_map.actors], the entities of the map
    that are Actors, in the order of the map. *)
Definition actors (w : World) : list nat :=
  filter (λ r, is_actor (heap w r) = true) (entities (game_map w)).

Definition at_cell (w : World) (cx cy : Z) (r : nat) : bool :=
  (x (heap w r) =? cx) && (y (heap w r) =? cy).

(** Modelled from the spec: the actor-at-cell lookup of game_map.py, the
    first actor of the map standing on the cell. *)
Definition get_actor_at_location (w : World) (cx cy : Z) : option nat :=
  List.find (at_cell w cx cy) (actors w).

(** Modelled from the spec: the blocking-entity-at-cell lookup of
    game_map.py, the first blocking entity of the map standing on the
    cell. *)
Definition get_blocking_entity_at_location (w : World) (cx cy : Z) : option nat :=
  List.find (λ r, blocks_movement (heap w r) && at_cell w cx cy r)
            (entities (game_map w)).

(** ** exceptions.py and the monad of actions *)

Inductive Exception := Impossible (msg : string).

Inductive Result (A : Type) :=
| Ok (a : A)
| Raise (exc : Exception).
Arguments Ok {A} a.
Arguments Raise {A} exc.

Definition M (A : Type) : Type := World → World * Result A.

#[global] Instance M_ret : MRet M := λ A a w, (w, Ok a).
#[global] Instance M_bind : MBind M := λ A B k m w,
  match m w with
  | (w', Ok a) => k a w'
  | (w', Raise e) => (w', Raise e)
  end.

Definition raise {A : Type} (e : Exception) : M A := λ w, (w, Raise e).
Definition gets {A : Type} (f : World → A) : M A := λ w, (w, Ok (f w)).
Definition modify (f : World → World) : M unit := λ w, (f w, Ok tt).
Definition when (b : bool) (m : M unit) : M unit := if b then m else mret tt.

Definition raised {A : Type} (r : World * Result A) : bool :=
  match r with (_, Raise _) => true | _ => false end.

(** ** components/fighter.py: operations *)

(** Modelled from the spec: [Fighter.take_damage] of fighter.py, which is
    not among the sources.  Damage application subtracts the amount from
    the current hp; this is also the write that
    [target.fighter.hp -= damage] performs.  What becomes of an actor
    whose hp reaches 0 is the work of a collaborator outside the sources
    and is not part of this model: the properties that involve damage
    speak of hp, positions, the log and the projectiles, which that
    collaborator leaves as they are. *)
Definition take_damage (r : nat) (amount : Z) (w : World) : World :=
  update_entity r (λ e, set_fighter (set_hp (hp (fighter e) - amount) (fighter e)) e) w.

Definition set_turns_left (t : Z) (b : Buff) : Buff :=
  {| turns_left := t; on_expire := on_expire b; message := message b; color := color b |}.

(** Modelled from the spec: the timed-buff expiry of fighter.py, which is
    not among the sources, over the entries that consumable.py puts in
    [temporary_buffs].  Every buff loses one turn; a buff that reaches zero
    runs its [on_expire] callback, logs its message and is removed from
    the dict. *)
Fixpoint refresh_buffs (bs : list (string * Buff)) (f : Fighter) (log : list Message)
  : list (string * Buff) * Fighter * list Message :=
  match bs with
  | [] => ([], f, log)
  | (k, b) :: bs' =>
    let t := turns_left b - 1 in
    if t <=? 0 then
      refresh_buffs bs' (run_on_expire (on_expire b) f)
                    (log ++ [{| text := message b; fg := color b |}])
    else
      let '(kept, f', log') := refresh_buffs bs' f log in
      ((k, set_turns_left t b) :: kept, f', log')
  end.

(** Modelled from the spec: [Fighter.update_temporary_buffs(message_log)],
    the refresh of the timed buffs of actor [r]. *)
Definition update_temporary_buffs (r : nat) (w : World) : World :=
  let f := fighter (heap w r) in
  let '(kept, f', log') := refresh_buffs (temporary_buffs f) f (message_log w) in
  set_message_log log' (update_entity r (set_fighter (set_temporary_buffs kept f')) w).

(** Modelled from the spec: [Entity.move] of entity.py, which is not
    among the sources, translates the position by (dx, dy). *)
Definition Entity_move (r : nat) (dx dy : Z) (w : World) : World :=
  update_entity r (λ e, set_xy (x e + dx) (y e + dy) e) w.

(** ** actions.py *)

Module actions.

(** [ActionWithDirection]: the bound actor and a direction.  Constructing
    an action has no effect, so an action is its three parameters. *)
Definition dest_xy (entity : nat) (dx dy : Z) (w : World) : Z * Z :=
  (x (heap w entity) + dx, y (heap w entity) + dy).

Definition blocking_entity (entity : nat) (dx dy : Z) (w : World) : option nat :=
  let '(cx, cy) := dest_xy entity dx dy w in
  get_blocking_entity_at_location w cx cy.

Definition target_actor (entity : nat) (dx dy : Z) (w : World) : option nat :=
  let '(cx, cy) := dest_xy entity dx dy w in
  get_actor_at_location w cx cy.

Definition WaitAction_perform (entity : nat) : M unit := mret tt.

Definition MeleeAction_perform (entity : nat) (dx dy : Z) : M unit :=
  target ← gets (target_actor entity dx dy);
  match target with
  | None => raise (Impossible "Nothing to attack.")
  | Some target =>
    damage ← gets (λ w, power (heap w entity) - defense (heap w target));
    modify (update_temporary_buffs entity);;
    attack_desc ← gets (λ w, capitalize (name (heap w entity)) +:+ " attacks "
                                +:+ name (heap w target));
    attack_color ← gets (λ w, if Nat.eqb entity (player w)
                               then player_atk else enemy_atk);
    if 0 <? damage then
      modify (add_message (attack_desc +:+ " for " +:+ pretty damage +:+ " hit points.")
                          attack_color);;
      modify (take_damage target damage)
    else
      modify (add_message (attack_desc +:+ " but does no damage.") attack_color)
  end.

Definition MovementAction_perform (entity : nat) (dx dy : Z) : M unit :=
  '(dest_x, dest_y) ← gets (dest_xy entity dx dy);
  inb ← gets (λ w, in_bounds (game_map w) dest_x dest_y);
  (* Destination is out of bounds. *)
  when (negb inb) (raise (Impossible "That way is blocked."));;
  walk ← gets (λ w, walkable (game_map w) dest_x dest_y);
  (* Destination is blocked by a tile. *)
  when (negb walk) (raise (Impossible "That way is blocked."));;
  blocker ← gets (λ w, get_blocking_entity_at_location w dest_x dest_y);
  (* Destination is blocked by an entity. *)
  when (truthy blocker) (raise (Impossible "That way is blocked."));;
  modify (Entity_move entity dx dy).

Definition BumpAction_perform (entity : nat) (dx dy : Z) : M unit :=
  target ← gets (target_actor entity dx dy);
  if truthy target then MeleeAction_perform entity dx dy
  else MovementAction_perform entity dx dy.

End actions.

(** ** components/ai.py *)

Module ai.

(** The [int8] copy of the walkable array: 1 where walkable, 0 elsewhere. *)
Definition np_array_int8 (walk : Z → Z → bool) : Z → Z → Z :=
  λ cx cy, if walk cx cy then 1 else 0.

Definition set_cell (cx cy v : Z) (cost : Z → Z → Z) : Z → Z → Z :=
  λ x' y', if (x' =? cx) && (y' =? cy) then v else cost x' y'.

(** One round of the loop over the map's entities. *)
Definition add_blocked_cost (w : World) (cost : Z → Z → Z) (r : nat) : Z → Z → Z :=
  let e := heap w r in
  if blocks_movement e && negb (cost (x e) (y e) =? 0) then
    set_cell (x e) (y e) (wrap8 (cost (x e) (y e) + 10)) cost
  else cost.

Definition cost_grid (w : World) : Z → Z → Z :=
  fold_left (add_blocked_cost w) (entities (game_map w))
            (np_array_int8 (walkable (game_map w))).

(** [get_path_to].  The tcod pathfinder is a parameter: [path_to cost root
    dest] stands for building [SimpleGraph(cost, cardinal=2, diagonal=3)],
    adding [root] and asking for the path to [dest]. *)
Definition get_path_to (path_to : (Z → Z → Z) → Z * Z → Z * Z → list (Z * Z))
    (entity : nat) (dest_x dest_y : Z) (w : World) : list (Z * Z) :=
  let path := drop 1 (path_to (cost_grid w) (x (heap w entity), y (heap w entity))
                              (dest_x, dest_y)) in
  path.

Definition directions : list (Z * Z) :=
  [ (-1, -1);  (* Northwest *)
    (0, -1);   (* North *)
    (1, -1);   (* Northeast *)
    (-1, 0);   (* West *)
    (1, 0);    (* East *)
    (-1, 1);   (* Southwest *)
    (0, 1);    (* South *)
    (1, 1) ].  (* Southeast *)

(** [random.choice]: the generator's draw is the input [rnd]. *)
Definition random_choice {A : Type} (d : A) (l : list A) (rnd : nat) : A :=
  nth (rnd mod length l)%nat l d.

(** [ConfusedEnemy.perform].  The method runs as [entity.ai.perform()], so
    [self] is the strategy object that the actor's [ai] field refers to:
    the write to [self.turns_remaining] is a write behind that field. *)
Definition ConfusedEnemy_perform (entity : nat) (previous_ai : option AI)
    (turns_remaining : Z) (rnd : nat) : M unit :=
  (* Revert the AI back to the original state if the effect has run its course. *)
  if turns_remaining <=? 0 then
    nm ← gets (λ w, name (heap w entity));
    modify (add_message ("The " +:+ nm +:+ " is no longer confused.") white);;
    modify (update_entity entity (set_ai previous_ai))
  else
    let '(direction_x, direction_y) := random_choice (0, 0) directions rnd in
    modify (update_entity entity
              (set_ai (Some (ConfusedEnemy previous_ai (turns_remaining - 1)))));;
    actions.BumpAction_perform entity direction_x direction_y.

Definition ParalyzedEnemy_perform (entity : nat) (previous_ai : option AI)
    (turns_remaining : Z) : M unit :=
  if turns_remaining <=? 0 then
    nm ← gets (λ w, name (heap w entity));
    modify (add_message ("The " +:+ nm +:+ " breaks free from the ice!")
                        status_effect_applied);;
    modify (update_entity entity (set_ai previous_ai))
  else
    modify (update_entity entity
              (set_ai (Some (ParalyzedEnemy previous_ai (turns_remaining - 1)))));;
    actions.WaitAction_perform entity.

(** A run of decision ticks of a confused actor: each tick is one call of
    [entity.ai.perform()] while the actor's strategy is a [ConfusedEnemy];
    the run stops as soon as another strategy is in place. *)
Fixpoint confused_ticks (entity : nat) (rnds : list nat) (w : World) : World :=
  match rnds with
  | [] => w
  | rnd :: rnds' =>
    match ai (heap w entity) with
    | Some (ConfusedEnemy previous_ai turns_remaining) =>
      confused_ticks entity rnds'
        (ConfusedEnemy_perform entity previous_ai turns_remaining rnd w).1
    | _ => w
    end
  end.

End ai.

(** ** projectiles.py *)

Module projectiles.

Import Projectile.

Definition set_pos (nx ny : Z) (p : Projectile.t) : Projectile.t :=
  {| cls := cls p; actor := actor p; x := nx; y := ny; range := range p;
     damage := damage p; dx := dx p; dy := dy p;
     distance_travelled := distance_travelled p; done := done p;
     can_hit_self := can_hit_self p; hit_actors := hit_actors p |}.

Definition set_distance_travelled (d : Z) (p : Projectile.t) : Projectile.t :=
  {| cls := cls p; actor := actor p; x := x p; y := y p;
     range := range p;      damage := damage p; dx := dx p; dy := dy p;
     distance_travelled := d; done := done p;
     can_hit_self := can_hit_self p; hit_actors := hit_actors p |}.

Definition set_done (b : bool) (p : Projectile.t) : Projectile.t :=
  {| cls := cls p; actor := actor p; x := x p; y := y p;
     range := range p;      damage := damage p; dx := dx p; dy := dy p;
     distance_travelled := distance_travelled p; done := b;
     can_hit_self := can_hit_self p; hit_actors := hit_actors p |}.

Definition set_hit_actors (s : gset nat) (p : Projectile.t) : Projectile.t :=
  {| cls := cls p; actor := actor p; x := x p; y := y p;
     range := range p;      damage := damage p; dx := dx p; dy := dy p;
     distance_travelled := distance_travelled p; done := done p;
     can_hit_self := can_hit_self p; hit_actors := s |}.

Definition set_cls (c : ProjectileClass) (p : Projectile.t) : Projectile.t :=
  {| cls := c; actor := actor p; x := x p; y := y p;
     range := range p;      damage := damage p; dx := dx p; dy := dy p;
     distance_travelled := distance_travelled p; done := done p;
     can_hit_self := can_hit_self p; hit_actors := hit_actors p |}.

(** [__init__]: the projectile starts on its owner's cell. *)
Definition Projectile_init (w : World) (owner : nat) (rng dmg vx vy : Z)
    (self_hit : bool) : Projectile.t :=
  {| cls := Projectile_cls; actor := owner;
     x := Entity.x (heap w owner); y := Entity.y (heap w owner);
     range := rng; damage := dmg; dx := vx; dy := vy;
     distance_travelled := 0; done := false;
     can_hit_self := self_hit; hit_actors := ∅ |}.

(** [Shockwave__init__] *)
Definition ShockwaveProjectile_init (w : World) (owner : nat) (rng dmg : Z)
  : Projectile.t :=
  set_cls (ShockwaveProjectile_cls 0) (Projectile_init w owner rng dmg 0 0 false).

Definition attack_color (p : Projectile.t) (w : World) : Color :=
  if Nat.eqb (actor p) (player w) then player_atk else enemy_atk.

(** [check_collision]: the projectile, the world and the returned flag. *)
Definition check_collision (p : Projectile.t) (cx cy : Z) (w : World)
  : Projectile.t * World * bool :=
  if negb (in_bounds (game_map w) cx cy) then (p, w, false)
  else
    match get_actor_at_location w cx cy with
    | Some target_actor =>
      if bool_decide (target_actor ∉ hit_actors p) then
        if Nat.eqb target_actor (actor p) && negb (can_hit_self p) then (p, w, false)
        else
          let p' := set_hit_actors ({[ target_actor ]} ∪ hit_actors p) p in
          let damage_dealt := Z.max 0 (damage p - defense (heap w target_actor)) in
          if 0 <? damage_dealt then
            let w1 := add_message ("The projectile hits " +:+ name (heap w target_actor)
                                     +:+ " for " +:+ pretty damage_dealt +:+ " damage!")
                                  (attack_color p w) w in
            (p', take_damage target_actor damage_dealt w1, true)
          else
            (p', add_message ("The projectile bounces off " +:+ name (heap w target_actor)
                                +:+ "!") (attack_color p w) w, true)
      else (p, w, false)
    | None => (p, w, false)
    end.

(** [move]: base movement (straight line). *)
Definition move (p : Projectile.t) (w : World) : Projectile.t * World :=
  let p := set_pos (x p + dx p) (y p + dy p) p in
  let p := set_distance_travelled (distance_travelled p + 1) p in
  (* Remove if out of bounds or max range reached *)
  let finish (p : Projectile.t) (w : World) :=
    if negb (in_bounds (game_map w) (x p) (y p)) || (range p <=? distance_travelled p)
    then (set_done true p, w) else (p, w) in
  (* Check collision *)
  if in_bounds (game_map w) (x p) (y p) then
    let '(p, w, _) := check_collision p (x p) (y p) w in
    (* Check if hit a wall *)
    if negb (walkable (game_map w) (x p) (y p)) then (set_done true p, w)
    else finish p w
  else finish p w.

(** [update], inherited by [DirectionalProjectile]. *)
Definition Projectile_update (p : Projectile.t) (w : World) : Projectile.t * World :=
  if negb (done p) then move p w else (p, w).

(** The offsets visited by the nested loops of [Shockwaveupdate],
    in order: only the outer ring passes the test. *)
Definition ring_offsets (r : Z) : list (Z * Z) :=
  ox ← range_ (- r) (r + 1);
  oy ← range_ (- r) (r + 1);
  if (Z.abs ox =? r) || (Z.abs oy =? r) then [(ox, oy)] else [].

(** One round of the ring loop: the owner's position is read again, the
    offset added and the collision checked. *)
Definition ring_round (s : Projectile.t * World) (o : Z * Z) : Projectile.t * World :=
  let cx := Entity.x (heap s.2 (actor s.1)) + o.1 in
  let cy := Entity.y (heap s.2 (actor s.1)) + o.2 in
  (check_collision s.1 cx cy s.2).1.

(** A loop of collision checks at offsets from the owner's position. *)
Definition check_around_actor (offs : list (Z * Z)) (p : Projectile.t) (w : World)
  : Projectile.t * World :=
  fold_left ring_round offs (p, w).

(** A loop of collision checks at given cells. *)
Definition check_cells (cells : list (Z * Z)) (p : Projectile.t) (w : World)
  : Projectile.t * World :=
  fold_left (λ (s : Projectile.t * World) (c : Z * Z),
               (check_collision s.1 c.1 c.2 s.2).1)
            cells (p, w).

Definition ShockwaveProjectile_update (expanding_radius : Z) (p : Projectile.t)
    (w : World) : Projectile.t * World :=
  if done p then (p, w)
  else
    let expanding_radius := expanding_radius + 1 in
    let p := set_cls (ShockwaveProjectile_cls expanding_radius) p in
    if range p <? expanding_radius then (set_done true p, w)
    else check_around_actor (ring_offsets expanding_radius) p w.

Definition CrossProjectile_update (p : Projectile.t) (w : World)
  : Projectile.t * World :=
  if done p then (p, w)
  else
    let p := set_distance_travelled (distance_travelled p + 1) p in
    if range p <? distance_travelled p then (set_done true p, w)
    else
      let cx := Entity.x (heap w (actor p)) in
      let cy := Entity.y (heap w (actor p)) in
      let d := distance_travelled p in
      let '(p, w) := check_cells ((λ ox, (cx + ox, cy)) <$> range_ (- d) (d + 1)) p w in
      check_cells ((λ oy, (cx, cy + oy)) <$> range_ (- d) (d + 1)) p w.

Definition DiagonalProjectile_update (p : Projectile.t) (w : World)
  : Projectile.t * World :=
  if done p then (p, w)
  else
    let p := set_distance_travelled (distance_travelled p + 1) p in
    if range p <? distance_travelled p then (set_done true p, w)
    else
      let cx := Entity.x (heap w (actor p)) in
      let cy := Entity.y (heap w (actor p)) in
      let t := distance_travelled p in
      check_cells (d ← range_ (- t) (t + 1);
                   (λ o : Z * Z, (cx + o.1, cy + o.2))
                     <$> [(d, d); (d, - d); (- d, d); (- d, - d)]) p w.

(** [projectile.update()], dispatched on the class of the object. *)
Definition update (p : Projectile.t) (w : World) : Projectile.t * World :=
  match cls p with
  | Projectile_cls | DirectionalProjectile_cls _ => Projectile_update p w
  | ShockwaveProjectile_cls r => ShockwaveProjectile_update r p w
  | CrossProjectile_cls => CrossProjectile_update p w
  | DiagonalProjectile_cls => DiagonalProjectile_update p w
  end.

(** [n] update calls in a row, nothing else touching the world between. *)
Fixpoint updates (n : nat) (p : Projectile.t) (w : World) : Projectile.t * World :=
  match n with
  | O => (p, w)
  | S n' => let '(p', w') := update p w in updates n' p' w'
  end.

End projectiles.

(** ** engine.py *)

Module engine.

Inductive GameState := EXPLORATION | TURN_BASED.

(** The scheduler's own fields around the world that actions reach.  Clock
    readings ([time.monotonic()]) are numbers of a fixed unit. *)
Record Engine := {
  world : World;
  game_state : GameState;
  last_enemy_turn_time : Z;
  enemy_turn_interval : Z;
  last_player_move_time : Z;
  player_move_interval : Z;
}.

Definition set_world (w : World) (e : Engine) : Engine :=
  {| world := w; game_state := game_state e;
     last_enemy_turn_time := last_enemy_turn_time e;
     enemy_turn_interval := enemy_turn_interval e;
     last_player_move_time := last_player_move_time e;
     player_move_interval := player_move_interval e |}.

Definition set_game_state (g : GameState) (e : Engine) : Engine :=
  {| world := world e; game_state := g;
     last_enemy_turn_time := last_enemy_turn_time e;
     enemy_turn_interval := enemy_turn_interval e;
     last_player_move_time := last_player_move_time e;
     player_move_interval := player_move_interval e |}.

Definition set_last_enemy_turn_time (t : Z) (e : Engine) : Engine :=
  {| world := world e; game_state := game_state e;
     last_enemy_turn_time := t;
     enemy_turn_interval := enemy_turn_interval e;
     last_player_move_time := last_player_move_time e;
     player_move_interval := player_move_interval e |}.

(** [handle_enemy_turns].  The loop runs over a Python set, whose order is
    not fixed: [set_order] gives it.  [ai_perform entity] stands for
    [entity.ai.perform()] of whatever strategy the actor holds; an
    [Impossible] it raises is dropped, the writes made before it stay. *)
Definition handle_enemy_turns (set_order : list nat → list nat)
    (ai_perform : nat → M unit) (w : World) : World :=
  fold_left (λ w entity,
               if truthy (ai (heap w entity)) then (ai_perform entity w).1 else w)
            (set_order (list_difference (remove_dups (actors w)) [player w])) w.

(** [update_projectiles]: the loop runs over a copy of the list; every
    projectile is updated once and taken out of the list when done. *)
Definition update_projectiles (w : World) : World :=
  let '(kept, w') :=
    fold_left (λ (s : list Projectile.t * World) (p : Projectile.t),
                 let '(p', w') := projectiles.update p s.2 in
                 (if Projectile.done p' then s.1 else s.1 ++ [p'], w'))
              (active_projectiles w) ([], w) in
  set_active_projectiles kept w'.

(** The test of the scan: a non-player actor with a strategy on a visible
    tile. *)
Definition visible_enemy (w : World) (entity : nat) : bool :=
  negb (Nat.eqb entity (player w)) && truthy (ai (heap w entity))
  && visible (game_map w) (x (heap w entity)) (y (heap w entity)).

(** The [for] loop of [update_realtime]: [Some e'] when the loop body
    executed [return] and left the engine as [e'], [None] when the loop ran
    to its end. *)
Fixpoint scan_actors (l : list nat) (e : Engine) : option Engine :=
  match l with
  | [] => None
  | entity :: l' =>
    if visible_enemy (world e) entity then
      (* Found a visible enemy *)
      Some (match game_state e with
            | EXPLORATION =>
              set_world (add_message "Enemy spotted! Combat started." enemy_atk (world e))
                        (set_game_state TURN_BASED e)
            | TURN_BASED => e
            end)
    else scan_actors l' e
  end.

Definition update_realtime (set_order : list nat → list nat)
    (ai_perform : nat → M unit) (current_time : Z) (e : Engine) : Engine :=
  match scan_actors (actors (world e)) e with
  | Some e' => e'   (* Stay in turn-based or just switched *)
  | None =>
    (* No enemies are visible. Ensure we are in EXPLORATION mode *)
    let e := match game_state e with
             | TURN_BASED =>
               set_world (add_message "Combat ended." welcome_text (world e))
                         (set_game_state EXPLORATION e)
             | EXPLORATION => e
             end in
    (* Handle ambient enemy movement (slowly) *)
    let e := if enemy_turn_interval e <=? current_time - last_enemy_turn_time e then
               set_last_enemy_turn_time current_time
                 (set_world (handle_enemy_turns set_order ai_perform (world e)) e)
             else e in
    set_world (update_projectiles (world e)) e
  end.

End engine.

(** ** projectiles.py: the constructors of the cross and diagonal patterns *)

Module patterns.

(** [Cross__init__] *)
Definition CrossProjectile_init (w : World) (owner : nat) (rng dmg : Z) : Projectile.t :=
  projectiles.set_cls CrossProjectile_cls
    (projectiles.Projectile_init w owner rng dmg 0 0 false).

(** [Diagonal__init__] *)
Definition DiagonalProjectile_init (w : World) (owner : nat) (rng dmg : Z)
  : Projectile.t :=
  projectiles.set_cls DiagonalProjectile_cls
    (projectiles.Projectile_init w owner rng dmg 0 0 false).

End patterns.

(** ** components/ai.py: the strategies that seek the player *)

Module strategies.

(** [1 if d > 0 else (-1 if d < 0 else 0)] *)
Definition step_toward (d : Z) : Z :=
  if 0 <? d then 1 else if d <? 0 then -1 else 0.

(** [-1 if d > 0 else (1 if d < 0 else 0)] *)
Definition step_away (d : Z) : Z :=
  if 0 <? d then -1 else if d <? 0 then 1 else 0.

(** [self.engine.active_projectiles.append(projectile)] *)
Definition append_projectile (p : Projectile.t) (w : World) : World :=
  set_active_projectiles (active_projectiles w ++ [p]) w.

(** A write to a field of [self]: the strategy object is the one that the
    actor's [ai] field refers to, so the write shows behind that field. *)
Definition write_self (entity : nat) (self : AI) : M unit :=
  modify (update_entity entity (set_ai (Some self))).

(** [BlacksmithAI.perform] *)
Definition BlacksmithAI_perform (entity : nat) : M unit :=
  actions.WaitAction_perform entity.

(** The end of [perform] that the four seeking strategies share: take the
    next cell off the cached path and step to it, or wait.  [with_path]
    gives the strategy object with its path replaced. *)
Definition follow_path (entity : nat) (with_path : list (Z * Z) → AI)
    (path : list (Z * Z)) : M unit :=
  match path with
  | (dest_x, dest_y) :: rest =>
    write_self entity (with_path rest);;
    ex ← gets (λ w, x (heap w entity));
    ey ← gets (λ w, y (heap w entity));
    actions.MovementAction_perform entity (dest_x - ex) (dest_y - ey)
  | [] => actions.WaitAction_perform entity
  end.

(** [RangedEnemy.throw_projectile].  [math.sqrt(dx * dx + dy * dy) > 0]
    holds exactly when [dx * dx + dy * dy] is positive. *)
Definition RangedEnemy_throw_projectile (entity : nat) : M unit :=
  target ← gets player;
  dx ← gets (λ w, x (heap w target) - x (heap w entity));
  dy ← gets (λ w, y (heap w target) - y (heap w entity));
  (* Normalize *)
  if 0 <? dx * dx + dy * dy then
    let norm_dx := step_toward dx in
    let norm_dy := step_toward dy in
    projectile ← gets (λ w, projectiles.Projectile_init w entity 8
                              (power (heap w entity)) norm_dx norm_dy false);
    modify (append_projectile projectile);;
    nm ← gets (λ w, name (heap w entity));
    modify (add_message ("The " +:+ nm +:+ " fires at you!") enemy_atk)
  else mret tt.

(** [BossAI.special_attack] *)
Definition BossAI_special_attack (entity : nat) : M unit :=
  projectile ← gets (λ w, projectiles.ShockwaveProjectile_init w entity 4
                            (power (heap w entity) * 2));
  modify (append_projectile projectile);;
  nm ← gets (λ w, name (heap w entity));
  modify (add_message ("The " +:+ nm +:+ " unleashes a devastating attack!") enemy_atk).

Section Perform.

(** The tcod pathfinder behind [get_path_to]. *)
Variable path_to : (Z → Z → Z) → Z * Z → Z * Z → list (Z * Z).

(** [scale10 d dx dy] stands for [int(d / math.sqrt(dx * dx + dy * dy) * 10)],
    a floating-point computation. *)
Variable scale10 : Z → Z → Z → Z.

(** [HostileEnemy.perform] *)
Definition HostileEnemy_perform (entity : nat) (path : list (Z * Z)) : M unit :=
  target ← gets player;
  dx ← gets (λ w, x (heap w target) - x (heap w entity));
  dy ← gets (λ w, y (heap w target) - y (heap w entity));
  let distance := Z.max (Z.abs dx) (Z.abs dy) in  (* Chebyshev distance. *)
  vis ← gets (λ w, visible (game_map w) (x (heap w entity)) (y (heap w entity)));
  if (vis : bool) then
    if distance <=? 1 then actions.MeleeAction_perform entity dx dy
    else
      path ← gets (λ w, ai.get_path_to path_to entity
                          (x (heap w target)) (y (heap w target)) w);
      write_self entity (HostileEnemy path);;
      follow_path entity HostileEnemy path
  else follow_path entity HostileEnemy path.

(** [HostileEnemyWithProjectile.throw_projectile] *)
Definition HostileEnemyWithProjectile_throw_projectile (entity : nat)
    (projectile_range : Z) : M unit :=
  target ← gets player;
  (* Calculate direction to player *)
  dx ← gets (λ w, x (heap w target) - x (heap w entity));
  dy ← gets (λ w, y (heap w target) - y (heap w entity));
  (* Normalize direction *)
  let '(dx, dy) := if 0 <? dx * dx + dy * dy
                   then (scale10 dx dx dy, scale10 dy dx dy) else (dx, dy) in
  projectile ← gets (λ w, projectiles.Projectile_init w entity projectile_range
                            (power (heap w entity) / 2)
                            (step_toward dx) (step_toward dy) false);
  modify (append_projectile projectile);;
  nm ← gets (λ w, name (heap w entity));
  modify (add_message ("The " +:+ nm +:+ " throws a projectile!") enemy_atk).

(** [HostileEnemyWithProjectile.perform].  [coin] is the outcome of
    [random.random() < self.projectile_chance]. *)
Definition HostileEnemyWithProjectile_perform (entity : nat) (path : list (Z * Z))
    (projectile_range projectile_cooldown : Z) (coin : bool) : M unit :=
  target ← gets player;
  dx ← gets (λ w, x (heap w target) - x (heap w entity));
  dy ← gets (λ w, y (heap w target) - y (heap w entity));
  let distance := Z.max (Z.abs dx) (Z.abs dy) in  (* Chebyshev distance. *)
  vis ← gets (λ w, visible (game_map w) (x (heap w entity)) (y (heap w entity)));
  if (vis : bool) then
    (* Reduce cooldown *)
    let projectile_cooldown :=
      if 0 <? projectile_cooldown then projectile_cooldown - 1 else projectile_cooldown in
    write_self entity (HostileEnemyWithProjectile path projectile_range projectile_cooldown);;
    let chase :=
      path ← gets (λ w, ai.get_path_to path_to entity
                          (x (heap w target)) (y (heap w target)) w);
      write_self entity
        (HostileEnemyWithProjectile path projectile_range projectile_cooldown);;
      follow_path entity
        (λ path, HostileEnemyWithProjectile path projectile_range projectile_cooldown)
        path in
    (* Melee range - attack *)
    if distance <=? 1 then actions.MeleeAction_perform entity dx dy
    (* Medium range - maybe throw projectile *)
    else if (distance <=? projectile_range) && (projectile_cooldown =? 0) then
      if coin then
        HostileEnemyWithProjectile_throw_projectile entity projectile_range;;
        (* Wait 3 turns before throwing again *)
        write_self entity (HostileEnemyWithProjectile path projectile_range 3);;
        actions.WaitAction_perform entity
      else chase
    (* Otherwise pathfind toward player *)
    else chase
  else
    follow_path entity
      (λ path, HostileEnemyWithProjectile path projectile_range projectile_cooldown)
      path.

(** [RangedEnemy.perform] *)
Definition RangedEnemy_perform (entity : nat) (path : list (Z * Z))
    (preferred_distance projectile_cooldown : Z) : M unit :=
  target ← gets player;
  dx ← gets (λ w, x (heap w target) - x (heap w entity));
  dy ← gets (λ w, y (heap w target) - y (heap w entity));
  let distance := Z.max (Z.abs dx) (Z.abs dy) in
  vis ← gets (λ w, visible (game_map w) (x (heap w entity)) (y (heap w entity)));
  if (vis : bool) then
    let projectile_cooldown :=
      if 0 <? projectile_cooldown then projectile_cooldown - 1 else projectile_cooldown in
    write_self entity (RangedEnemy path preferred_distance projectile_cooldown);;
    (* Too close - back away *)
    if distance <=? 2 then
      (* Move away from player *)
      let retreat_dx := step_away dx in
      let retreat_dy := step_away dy in
      actions.MovementAction_perform entity retreat_dx retreat_dy
    (* Good distance - throw projectile *)
    else if (distance <=? 6) && (projectile_cooldown =? 0) then
      RangedEnemy_throw_projectile entity;;
      write_self entity (RangedEnemy path preferred_distance 2);;
      actions.WaitAction_perform entity
    (* Too far - move closer *)
    else
      path ← gets (λ w, ai.get_path_to path_to entity
                          (x (heap w target)) (y (heap w target)) w);
      write_self entity (RangedEnemy path preferred_distance projectile_cooldown);;
      follow_path entity
        (λ path, RangedEnemy path preferred_distance projectile_cooldown) path
  else
    follow_path entity
      (λ path, RangedEnemy path preferred_distance projectile_cooldown) path.

(** [BossAI.perform].  [coin] is the outcome of
    [random.random() < self.special_attack_chance]. *)
Definition BossAI_perform (entity : nat) (path : list (Z * Z)) (cooldown : Z)
    (coin : bool) : M unit :=
  target ← gets player;
  dx ← gets (λ w, x (heap w target) - x (heap w entity));
  dy ← gets (λ w, y (heap w target) - y (heap w entity));
  let distance := Z.max (Z.abs dx) (Z.abs dy) in
  vis ← gets (λ w, visible (game_map w) (x (heap w entity)) (y (heap w entity)));
  if (vis : bool) then
    let cooldown := if 0 <? cooldown then cooldown - 1 else cooldown in
    write_self entity (BossAI path cooldown);;
    (* Melee range - powerful attack *)
    if distance <=? 1 then actions.MeleeAction_perform entity dx dy
    (* Special attack at medium range *)
    else if (distance <=? 5) && (cooldown =? 0) && coin then
      BossAI_special_attack entity;;
      write_self entity (BossAI path 5);;
      actions.WaitAction_perform entity
    else
      (* Chase player *)
      path ← gets (λ w, ai.get_path_to path_to entity
                          (x (heap w target)) (y (heap w target)) w);
      write_self entity (BossAI path cooldown);;
      follow_path entity (λ path, BossAI path cooldown) path
  else follow_path entity (λ path, BossAI path cooldown) path.

(** [entity.ai.perform()]: the method of the strategy object that the
    actor holds at the time of the call.  [rnd] and [coin] are the draws
    of the random generator that the call may consume.  The engine calls
    it only on actors that hold a strategy. *)
Definition perform (rnd : nat) (coin : bool) (entity : nat) : M unit :=
  λ w,
    match ai (heap w entity) with
    | Some (HostileEnemy path) => HostileEnemy_perform entity path w
    | Some (ConfusedEnemy previous_ai turns_remaining) =>
      ai.ConfusedEnemy_perform entity previous_ai turns_remaining rnd w
    | Some (ParalyzedEnemy previous_ai turns_remaining) =>
      ai.ParalyzedEnemy_perform entity previous_ai turns_remaining w
    | Some (HostileEnemyWithProjectile path projectile_range projectile_cooldown) =>
      HostileEnemyWithProjectile_perform entity path projectile_range
        projectile_cooldown coin w
    | Some (RangedEnemy path preferred_distance projectile_cooldown) =>
      RangedEnemy_perform entity path preferred_distance projectile_cooldown w
    | Some BlacksmithAI => BlacksmithAI_perform entity w
    | Some (BossAI path cooldown) => BossAI_perform entity path cooldown coin w
    | None => (w, Ok tt)
    end.

(** Decision ticks of one actor in a row, one pair of draws per tick. *)
Fixpoint ticks (draws : list (nat * bool)) (entity : nat) (w : World) : World :=
  match draws with
  | [] => w
  | (rnd, coin) :: draws' => ticks draws' entity (perform rnd coin entity w).1
  end.

End Perform.

End strategies.

(** ** actions.py: throwing *)

Module throwing.

(** [ThrowProjectileAction.perform].  The clamped target cell that the
    method computes is not used afterwards. *)
Definition ThrowProjectileAction_perform (entity : nat) (dx dy : Z) : M unit :=
  projectile ← gets (λ w, projectiles.Projectile_init w (player w) 5
                            (power (heap w entity) / 2)
                            (facing_direction (heap w (player w))).1
                            (facing_direction (heap w (player w))).2
                            false);
  modify (strategies.append_projectile projectile);;
  modify (add_message "You throw a projectile!" player_atk).

End throwing.

(** * Specification vocabulary *)

(** ** Vocabulary for actions *)

(** The destination of a step is clear: inside the map, on a walkable tile
    and with no blocking entity of the map on it. *)
Definition destination_clear (w : World) (cx cy : Z) : Prop :=
  in_bounds (game_map w) cx cy = true
  ∧ walkable (game_map w) cx cy = true
  ∧ ∀ r, r ∈ entities (game_map w) → blocks_movement (heap w r) = true →
         (x (heap w r), y (heap w r)) ≠ (cx, cy).

(** The text and color of the message an attack logs. *)
Definition attack_message (w : World) (entity target : nat) (damage : Z) : Message :=
  let attack_desc := capitalize (name (heap w entity)) +:+ " attacks "
                     +:+ name (heap w target) in
  {| text := if 0 <? damage
             then attack_desc +:+ " for " +:+ pretty damage +:+ " hit points."
             else attack_desc +:+ " but does no damage.";
     fg := if Nat.eqb entity (player w) then player_atk else enemy_atk |}.

(** ** Vocabulary for projectiles *)

Definition hp_of (w : World) (r : nat) : Z := hp (fighter (heap w r)).

(** What a collision deals to actor [r]: [max(0, damage - defense)]. *)
Definition dealt (p : Projectile.t) (w : World) (r : nat) : Z :=
  Z.max 0 (Projectile.damage p - defense (heap w r)).

(** Two worlds that collision checks cannot tell apart but for the hp of
    the actors and the log: same map, same player, every object on the
    same cell, of the same class and with the same defense. *)
Definition same_stage (w w' : World) : Prop :=
  game_map w' = game_map w ∧ player w' = player w
  ∧ ∀ r, x (heap w' r) = x (heap w r) ∧ y (heap w' r) = y (heap w r)
         ∧ is_actor (heap w' r) = is_actor (heap w r)
         ∧ defense (heap w' r) = defense (heap w r).

(** The actor that a collision check at (cx, cy) strikes, if any. *)
Definition struck (p : Projectile.t) (cx cy : Z) (w : World) : option nat :=
  if in_bounds (game_map w) cx cy then
    match get_actor_at_location w cx cy with
    | Some t =>
      if bool_decide (t ∉ Projectile.hit_actors p)
         && negb (Nat.eqb t (Projectile.actor p) && negb (Projectile.can_hit_self p))
      then Some t else None
    | None => None
    end
  else None.

(** Over a stretch [s] to [s'] of a projectile's life, actor [r] is
    untouched: same hp, same standing in the hit set. *)
Definition untouched (r : nat) (s s' : Projectile.t * World) : Prop :=
  hp_of s'.2 r = hp_of s.2 r
  ∧ (r ∈ Projectile.hit_actors s'.1 ↔ r ∈ Projectile.hit_actors s.1).

(** Over the stretch, actor [r] is struck once: it enters the hit set and
    its hp goes down by what one collision deals; the owner is struck only
    under the self-hit flag. *)
Definition struck_once (r : nat) (s s' : Projectile.t * World) : Prop :=
  (r ∉ Projectile.hit_actors s.1) ∧ (r ∈ Projectile.hit_actors s'.1)
  ∧ hp_of s'.2 r = hp_of s.2 r - dealt s.1 s.2 r
  ∧ ¬ (r = Projectile.actor s.1 ∧ Projectile.can_hit_self s.1 = false).

Definition same_shooter (s s' : Projectile.t * World) : Prop :=
  Projectile.actor s'.1 = Projectile.actor s.1
  ∧ Projectile.can_hit_self s'.1 = Projectile.can_hit_self s.1
  ∧ Projectile.damage s'.1 = Projectile.damage s.1
  ∧ same_stage s.2 s'.2.

Definition hit_at_most_once (r : nat) (s s' : Projectile.t * World) : Prop :=
  same_shooter s s' ∧ (untouched r s s' ∨ struck_once r s s').

(** Writes to the projectile's own position, counters and flags do not
    touch the record of who was hit. *)
Definition keeps_record (p p' : Projectile.t) : Prop :=
  Projectile.hit_actors p' = Projectile.hit_actors p
  ∧ Projectile.actor p' = Projectile.actor p
  ∧ Projectile.can_hit_self p' = Projectile.can_hit_self p
  ∧ Projectile.damage p' = Projectile.damage p.

(** The life of a projectile: before each frame the rest of the game
    changes the world as it likes ([env]), then the frame's [update] runs.
    [hp_drops r envs p w] counts the frames whose update lowers the hp of
    actor [r]. *)
Fixpoint hp_drops (r : nat) (envs : list (World → World)) (p : Projectile.t)
    (w : World) : nat :=
  match envs with
  | [] => 0%nat
  | env :: envs' =>
    let w0 := env w in
    let '(p', w') := projectiles.update p w0 in
    ((if (hp_of w' r <? hp_of w0 r)%Z then 1 else 0) + hp_drops r envs' p' w')%nat
  end.

(** The classes whose [update] is the straight-line one. *)
Definition flies_straight (p : Projectile.t) : bool :=
  match Projectile.cls p with
  | Projectile_cls | DirectionalProjectile_cls _ => true
  | _ => false
  end.

(** The [k]-th cell on the line of a projectile that has not moved yet. *)
Definition cell_on_line (p : Projectile.t) (k : Z) : Z * Z :=
  (Projectile.x p + k * Projectile.dx p, Projectile.y p + k * Projectile.dy p).

(** The [k]-th cell of the line lets the projectile through: it is inside
    the map and walkable. *)
Definition lets_through (p : Projectile.t) (gm : GameMap) (k : Z) : bool :=
  in_bounds gm (cell_on_line p k).1 (cell_on_line p k).2
  && walkable gm (cell_on_line p k).1 (cell_on_line p k).2.

(** Chebyshev distance between two cells. *)
Definition chebyshev (a b : Z * Z) : Z :=
  Z.max (Z.abs (a.1 - b.1)) (Z.abs (a.2 - b.2)).

Definition position (w : World) (r : nat) : Z * Z := (x (heap w r), y (heap w r)).

(** Actor [t] can be struck by projectile [p] in world [w]: it is the
    actor the map finds on its own cell, the cell is inside the map, and
    it is not the owner shielded by the self-hit flag. *)
Definition exposed (t : nat) (p : Projectile.t) (w : World) : Prop :=
  get_actor_at_location w (position w t).1 (position w t).2 = Some t
  ∧ in_bounds (game_map w) (position w t).1 (position w t).2 = true
  ∧ ¬ (t = Projectile.actor p ∧ Projectile.can_hit_self p = false).

(** The offset of actor [t] from the owner of [p]. *)
Definition offset_from_owner (t : nat) (p : Projectile.t) (w : World) : Z * Z :=
  ((position w t).1 - (position w (Projectile.actor p)).1,
   (position w t).2 - (position w (Projectile.actor p)).2).

(** ** Vocabulary for the pathfinder *)



(** ** Vocabulary for the scheduler *)

(** Some actor of the map is a visible enemy. *)
Definition has_visible_enemy (w : World) : bool :=
  existsb (engine.visible_enemy w) (actors w).

Definition enemy_spotted : Message :=
  {| text := "Enemy spotted! Combat started."; fg := enemy_atk |}.

Definition combat_ended : Message :=
  {| text := "Combat ended."; fg := welcome_text |}.

(** The engine as the scan leaves it on finding a visible enemy. *)
Definition enter_combat (e : engine.Engine) : engine.Engine :=
  match engine.game_state e with
  | engine.EXPLORATION =>
    engine.set_world (add_message (text enemy_spotted) (fg enemy_spotted) (engine.world e))
                     (engine.set_game_state engine.TURN_BASED e)
  | engine.TURN_BASED => e
  end.

(** The engine after a scan that found no visible enemy. *)
Definition leave_combat (e : engine.Engine) : engine.Engine :=
  match engine.game_state e with
  | engine.TURN_BASED =>
    engine.set_world (add_message (text combat_ended) (fg combat_ended) (engine.world e))
                     (engine.set_game_state engine.EXPLORATION e)
  | engine.EXPLORATION => e
  end.

(** What [update_realtime] goes on to do when the scan found nothing: the
    enemy turns if the clock fired, then the projectiles. *)
Definition ambient_phase (set_order : list nat → list nat) (ai_perform : nat → M unit)
    (current_time : Z) (e : engine.Engine) : engine.Engine :=
  let e := if engine.enemy_turn_interval e <=? current_time - engine.last_enemy_turn_time e
           then engine.set_last_enemy_turn_time current_time
                  (engine.set_world
                     (engine.handle_enemy_turns set_order ai_perform (engine.world e)) e)
           else e in
  engine.set_world (engine.update_projectiles (engine.world e)) e.

(** ** Vocabulary for the expanding patterns *)

(** The classes whose [update] widens a pattern around the owner. *)
Definition is_expanding (p : Projectile.t) : bool :=
  match Projectile.cls p with
  | ShockwaveProjectile_cls _ | CrossProjectile_cls | DiagonalProjectile_cls => true
  | _ => false
  end.

(** The counter that an expanding pattern advances by one per frame:
    [expanding_radius] for the shockwave, [distance_travelled] for the
    cross and the diagonal. *)
Definition reach (p : Projectile.t) : Z :=
  match Projectile.cls p with
  | ShockwaveProjectile_cls r => r
  | _ => Projectile.distance_travelled p
  end.

(** The arms of the cross at size [k], as offsets from the owner. *)
Definition cross_offsets (k : Z) : list (Z * Z) :=
  ((λ o, (o, 0)) <$> range_ (- k) (k + 1)) ++ ((λ o, (0, o)) <$> range_ (- k) (k + 1)).

(** The diagonals at size [k], as offsets from the owner. *)
Definition diagonal_offsets (k : Z) : list (Z * Z) :=
  d ← range_ (- k) (k + 1); [(d, d); (d, - d); (- d, d); (- d, - d)].

(** The offsets that the frame bringing the counter to [k] checks. *)
Definition pattern_offsets (c : ProjectileClass) (k : Z) : list (Z * Z) :=
  match c with
  | ShockwaveProjectile_cls _ => projectiles.ring_offsets k
  | CrossProjectile_cls => cross_offsets k
  | DiagonalProjectile_cls => diagonal_offsets k
  | _ => []
  end.

(** The frames on which the pattern of a projectile of range [R] passes
    over the offset [o] for the first time, if it ever does. *)
Definition first_covered (c : ProjectileClass) (R : Z) (o : Z * Z) (d : Z) : Prop :=
  1 ≤ d ≤ R ∧ o ∈ pattern_offsets c d ∧ ∀ k, 1 ≤ k < d → o ∉ pattern_offsets c k.

Definition never_covered (c : ProjectileClass) (R : Z) (o : Z * Z) : Prop :=
  ∀ k, 1 ≤ k ≤ R → o ∉ pattern_offsets c k.

(** Actor [t] is struck by the [d]-th update of the projectile and by no
    other: its hp is the initial one before, lower by one collision's
    damage from then on, and it is in the hit set from then on. *)
Definition struck_on_frame (t : nat) (d : Z) (p : Projectile.t) (w : World) : Prop :=
  ∀ n : nat,
    hp_of (projectiles.updates n p w).2 t
    = (if Z.of_nat n <? d then hp_of w t else hp_of w t - dealt p w t)
    ∧ (t ∈ Projectile.hit_actors (projectiles.updates n p w).1 ↔ d ≤ Z.of_nat n).

(** Actor [t] is never struck by the projectile, however many updates
    run. *)
Definition never_struck (t : nat) (p : Projectile.t) (w : World) : Prop :=
  ∀ n : nat,
    hp_of (projectiles.updates n p w).2 t = hp_of w t
    ∧ t ∉ Projectile.hit_actors (projectiles.updates n p w).1.

(** ** Vocabulary for the projectile list of the engine *)

(** An upper bound on the updates a projectile takes part in before it is
    done: the sizes an expanding pattern has left plus the closing update,
    the cells a straight projectile has left (at least one). *)
Definition frames_left (p : Projectile.t) : nat :=
  if Projectile.done p then 0%nat
  else if is_expanding p
       then S (Z.to_nat (Projectile.range p - reach p))
       else S (Z.to_nat (Projectile.range p - Projectile.distance_travelled p - 1)).

(** The projectiles of a list updated one after the other, each in the
    world its predecessors left. *)
Fixpoint run_frames (l : list Projectile.t) (w : World) : list Projectile.t * World :=
  match l with
  | [] => ([], w)
  | p :: l' =>
    let '(p', w') := projectiles.update p w in
    let '(ps, w'') := run_frames l' w' in
    (p' :: ps, w'')
  end.

(** Game frames: before each call of [update_projectiles] the rest of the
    game changes the world ([env]). *)
Fixpoint projectile_frames (envs : list (World → World)) (w : World) : World :=
  match envs with
  | [] => w
  | env :: envs' => projectile_frames envs' (engine.update_projectiles (env w))
  end.

(** ** Vocabulary for decision ticks *)

(** The computation [m] keeps the property [P] of the world, whether it
    returns or raises. *)
Definition keeps {A : Type} (P : World → Prop) (m : M A) : Prop :=
  ∀ w, P w → P (m w).1.

(** The blocking entities of the map stand inside the map, on walkable
    tiles, and no two of them on the same cell. *)
Definition well_placed (w : World) : Prop :=
  (∀ r, r ∈ entities (game_map w) → blocks_movement (heap w r) = true →
        in_bounds (game_map w) (x (heap w r)) (y (heap w r)) = true
        ∧ walkable (game_map w) (x (heap w r)) (y (heap w r)) = true)
  ∧ (∀ r1 r2, r1 ∈ entities (game_map w) → r2 ∈ entities (game_map w) →
        blocks_movement (heap w r1) = true → blocks_movement (heap w r2) = true →
        position w r1 = position w r2 → r1 = r2).

(** Two worlds with the same map and player in which every object stands
    on the same cell and blocks or not as before. *)
Definition same_layout (w w' : World) : Prop :=
  game_map w' = game_map w ∧ player w' = player w
  ∧ ∀ r, position w' r = position w r
         ∧ blocks_movement (heap w' r) = blocks_movement (heap w r)
         ∧ is_actor (heap w' r) = is_actor (heap w r).

(** [entity.ai.perform()] as the engine's enemy phase calls it, the draws
    of the random generator given per actor. *)
Definition ai_perform (path_to : (Z → Z → Z) → Z * Z → Z * Z → list (Z * Z))
    (scale10 : Z → Z → Z → Z) (draws : nat → nat * bool) (entity : nat) : M unit :=
  strategies.perform path_to scale10 (draws entity).1 (draws entity).2 entity.

(** The executable test of [well_placed]. *)
Definition well_placedb (w : World) : bool :=
  forallb (λ r, implb (blocks_movement (heap w r))
                      (in_bounds (game_map w) (x (heap w r)) (y (heap w r))
                       && walkable (game_map w) (x (heap w r)) (y (heap w r))))
          (entities (game_map w))
  && forallb (λ r1,
       forallb (λ r2,
         implb (blocks_movement (heap w r1) && blocks_movement (heap w r2)
                && at_cell w (x (heap w r1)) (y (heap w r1)) r2)
               (Nat.eqb r1 r2))
         (entities (game_map w)))
       (entities (game_map w)).

(** The world only gained log entries and projectiles over [w0]. *)
Definition only_appended (w0 w : World) : Prop :=
  (∃ l, message_log w = message_log w0 ++ l)
  ∧ (∃ ps, active_projectiles w = active_projectiles w0 ++ ps).

(** Over the stretch from [w0] to [w] the player is the same object and
    object [r] stands where it stood. *)
Definition stays_put (r : nat) (w0 w : World) : Prop :=
  player w = player w0 ∧ position w r = position w0 r.

(** The path that a seeking strategy caches in [self.path]. *)
Definition cached_path (a : option AI) : option (list (Z * Z)) :=
  match a with
  | Some (HostileEnemy path) | Some (HostileEnemyWithProjectile path _ _)
  | Some (RangedEnemy path _ _) | Some (BossAI path _) => Some path
  | _ => None
  end.

(** The turns before the strategy may use its ranged attack again. *)
Definition cooldown_of (a : option AI) : option Z :=
  match a with
  | Some (HostileEnemyWithProjectile _ _ cd) | Some (RangedEnemy _ _ cd)
  | Some (BossAI _ cd) => Some cd
  | _ => None
  end.

(** The actor's tile is in the player's view. *)
Definition in_view (w : World) (entity : nat) : bool :=
  visible (game_map w) (x (heap w entity)) (y (heap w entity)).

(** ** Vocabulary for confusion *)

(** The direction that the draw [rnd] picks among the eight compass
    directions. *)
Definition drawn_direction (rnd : nat) : Z * Z :=
  nth (rnd mod 8)%nat ai.directions (0, 0).

(** One confused turn, in the specification's words: the counter goes
    from [left] to [left - 1] and the actor bumps in the drawn direction.
    The world is the one the Bump leaves, also when the Bump raises (a
    turn wasted on a wall). *)
Definition stumble (entity : nat) (previous_ai : option AI) (left : Z) (rnd : nat)
    (w : World) : World :=
  (actions.BumpAction_perform entity (drawn_direction rnd).1 (drawn_direction rnd).2
     (update_entity entity (set_ai (Some (ConfusedEnemy previous_ai (left - 1)))) w)).1.

(** The end of a confusion: the message is logged and the saved strategy
    is put back; nobody moves and nobody is attacked. *)
Definition recover (entity : nat) (previous_ai : option AI) (w : World) : World :=
  update_entity entity (set_ai previous_ai)
    (add_message ("The " +:+ name (heap w entity) +:+ " is no longer confused.") white w).

(** ** Vocabulary for the pathfinder's answer *)




(** ** Vocabulary for the enemy phase *)

(** An enemy phase that gives a turn, among the actors of the pass, only
    to those that [visited] lets through when their turn comes: for one,
    to those that were not killed earlier in the pass.  With a test that
    lets every actor through this is [handle_enemy_turns]. *)
Definition enemy_phase_visiting (visited : World → nat → bool)
    (set_order : list nat → list nat) (ai_perform : nat → M unit) (w : World) : World :=
  fold_left (λ w entity,
               if visited w entity && truthy (ai (heap w entity))
               then (ai_perform entity w).1 else w)
            (set_order (list_difference (remove_dups (actors w)) [player w])) w.

(** * Scenarios *)

Definition mk_fighter (h d p : Z) (buffs : list (string * Buff)) : Fighter :=
  {| hp := h; max_hp := h; base_defense := d; base_power := p;
     temporary_buffs := buffs |}.

Definition mk_actor (ax ay : Z) (nm : string) (f : Fighter) (a : option AI) : Entity.t :=
  {| x := ax; y := ay; name := nm; blocks_movement := true; is_actor := true;
     fighter := f; power_bonus := 0; defense_bonus := 0; ai := a;
     facing_direction := (0, 1) |}.

(** A map of open floor, everything in view. *)
Definition open_floor (wd ht : Z) (refs : list nat) : GameMap :=
  {| width := wd; height := ht; walkable := λ _ _, true; visible := λ _ _, true;
     entities := refs |}.

Definition mk_world (gm : GameMap) (h : nat → Entity.t) : World :=
  {| game_map := gm; heap := h; player := 0%nat; message_log := [];
     active_projectiles := [] |}.

(** The strength potion's entry in [temporary_buffs], on its last turn. *)
Definition strength_buff (boost turns : Z) : string * Buff :=
  ("strength",
   {| turns_left := turns; on_expire := lower_base_power boost;
      message := "You feel your power getting neutralized, your strength boost has worn off.";
      color := red |}).

(** The player (reference 0) at (4,5) with power 3, next to an orc
    (reference 1) at (5,5) with 10 hp and no defense. *)
Definition duel : World :=
  mk_world (open_floor 20 20 [0%nat; 1%nat])
    (λ r, match r with
          | O => mk_actor 4 5 "player" (mk_fighter 30 1 3 []) (Some (HostileEnemy []))
          | _ => mk_actor 5 5 "orc" (mk_fighter 10 0 3 []) (Some (HostileEnemy []))
          end).

(** The same duel with the player's power at 5 thanks to a strength boost
    of 3 that has one turn left. *)
Definition duel_boosted : World :=
  mk_world (open_floor 20 20 [0%nat; 1%nat])
    (λ r, match r with
          | O => mk_actor 4 5 "player" (mk_fighter 30 1 5 [strength_buff 3 1])
                          (Some (HostileEnemy []))
          | _ => mk_actor 5 5 "orc" (mk_fighter 10 0 3 []) (Some (HostileEnemy []))
          end).

(** The duel with the orc confused for two turns. *)
Definition duel_confused : World :=
  mk_world (open_floor 20 20 [0%nat; 1%nat])
    (λ r, match r with
          | O => mk_actor 4 5 "player" (mk_fighter 30 1 3 []) (Some (HostileEnemy []))
          | _ => mk_actor 5 5 "orc" (mk_fighter 10 0 3 [])
                          (Some (ConfusedEnemy (Some (HostileEnemy [])) 2))
          end).

(** A projectile thrown east by the player of [duel] with range 3. *)
Definition dart : Projectile.t := projectiles.Projectile_init duel 0 3 2 1 0 false.

(** The duel on a floor with a pillar on (6,5). *)
Definition duel_pillar : World :=
  mk_world {| width := 20; height := 20;
              walkable := λ cx cy, negb ((cx =? 6) && (cy =? 5));
              visible := λ _ _, true; entities := [0%nat; 1%nat] |}
           (heap duel).

(** A dragon (reference 1) on (10,10) and the player (reference 0) two
    cells away on (12,11), on an open floor of 30 by 30. *)
Definition lair : World :=
  mk_world (open_floor 30 30 [0%nat; 1%nat])
    (λ r, match r with
          | O => mk_actor 12 11 "player" (mk_fighter 30 1 2 []) (Some (HostileEnemy []))
          | _ => mk_actor 10 10 "ancient dragon" (mk_fighter 30 4 8 []) (Some (BossAI [] 0))
          end).

(** The duel in its second round, the player's dart in the air. *)
Definition skirmish : engine.Engine :=
  {| engine.world := set_active_projectiles [dart] duel;
     engine.game_state := engine.TURN_BASED;
     engine.last_enemy_turn_time := 0;
     engine.enemy_turn_interval := 1000;
     engine.last_player_move_time := 0;
     engine.player_move_interval := 100 |}.

(** The duel in the dark: no tile is in view. *)
Definition duel_unseen : World :=
  mk_world {| width := 20; height := 20; walkable := λ _ _, true;
              visible := λ _ _, false; entities := [0%nat; 1%nat] |}
           (heap duel).

(** The engine in TurnBased mode over the unseen duel, the dart in the air. *)
Definition lull : engine.Engine :=
  {| engine.world := set_active_projectiles [dart] duel_unseen;
     engine.game_state := engine.TURN_BASED;
     engine.last_enemy_turn_time := 0;
     engine.enemy_turn_interval := 1000;
     engine.last_player_move_time := 0;
     engine.player_move_interval := 100 |}.

(** A courtyard of 20 by 20: the player (reference 0) on (8,8), a wizard
    (reference 1) on (5,5) and a guard (reference 2) on (5,8). *)
Definition courtyard : World :=
  mk_world (open_floor 20 20 [0%nat; 1%nat; 2%nat])
    (λ r, match r with
          | O => mk_actor 8 8 "player" (mk_fighter 30 1 3 []) None
          | S O => mk_actor 5 5 "wizard" (mk_fighter 12 0 4 [])
                            (Some (RangedEnemy [] 3 0))
          | _ => mk_actor 5 8 "guard" (mk_fighter 16 1 4 []) (Some (HostileEnemy []))
          end).

(** The courtyard with a wall across column 7. *)
Definition courtyard_walled : World :=
  mk_world {| width := 20; height := 20;
              walkable := λ cx cy, negb (cx =? 7);
              visible := λ _ _, true; entities := [0%nat; 1%nat; 2%nat] |}
           (heap courtyard).

(** The courtyard in the dark: no tile is in view, and the guard holds a
    cached path whose first cell is two cells south of it. *)
Definition courtyard_dark : World :=
  mk_world {| width := 20; height := 20; walkable := λ _ _, true;
              visible := λ _ _, false; entities := [0%nat; 1%nat; 2%nat] |}
    (λ r, match r with
          | S (S _) => mk_actor 5 8 "guard" (mk_fighter 16 1 4 [])
                                (Some (HostileEnemy [(5, 10); (5, 11)]))
          | _ => heap courtyard r
          end).

(** * Properties *)

(** ** Reading the heap after a write *)

Lemma store_same (r : nat) (e : Entity.t) (h : nat → Entity.t) : store r e h r = e.
Proof. unfold store. by rewrite Nat.eqb_refl. Qed.

Lemma store_other (r r' : nat) (e : Entity.t) (h : nat → Entity.t) :
  r' ≠ r → store r e h r' = h r'.
Proof. intros Hne. unfold store. by apply Nat.eqb_neq in Hne as ->. Qed.

(** Unfolding the monad of actions. *)
Ltac run_M :=
  unfold mbind, M_bind, mret, M_ret, gets, modify, when, raise; simpl.

(** ** Movement *)

Lemma find_none_iff {A : Type} (f : A → bool) (l : list A) :
  List.find f l = None ↔ ∀ a, a ∈ l → f a = false.
Proof.
  induction l as [|a l IH]; simpl.
  - split; [intros _ a Ha; inversion Ha | done].
  - destruct (f a) eqn:Hfa.
    + split; [done | intros H]. specialize (H a (list_elem_of_here a l)). congruence.
    + rewrite IH. split.
      * intros H b Hb. apply elem_of_cons in Hb as [-> | Hb]; auto.
      * intros H b Hb. apply H. by right.
Qed.

Lemma at_cell_true (w : World) (cx cy : Z) (r : nat) :
  at_cell w cx cy r = true ↔ (x (heap w r), y (heap w r)) = (cx, cy).
Proof.
  unfold at_cell. rewrite andb_true_iff, !Z.eqb_eq.
  split; [intros [-> ->]; done | intros [= -> ->]; done].
Qed.

Lemma no_blocking_entity_iff (w : World) (cx cy : Z) :
  get_blocking_entity_at_location w cx cy = None
  ↔ ∀ r, r ∈ entities (game_map w) → blocks_movement (heap w r) = true →
         (x (heap w r), y (heap w r)) ≠ (cx, cy).
Proof.
  unfold get_blocking_entity_at_location. rewrite find_none_iff.
  split; intros H r Hr.
  - intros Hb Hat. apply at_cell_true in Hat.
    specialize (H r Hr). rewrite Hb, Hat in H. done.
  - destruct (blocks_movement (heap w r)) eqn:Hb; [simpl | done].
    destruct (at_cell w cx cy r) eqn:Hat; [| done].
    apply at_cell_true in Hat. by destruct (H r Hr Hb).
Qed.

(** The two outcomes of a Movement action. *)
Lemma MovementAction_perform_cases (w : World) (entity : nat) (dx dy : Z) :
  let dest := actions.dest_xy entity dx dy w in
  (destination_clear w dest.1 dest.2
   ∧ actions.MovementAction_perform entity dx dy w = (Entity_move entity dx dy w, Ok tt))
  ∨ (¬ destination_clear w dest.1 dest.2
     ∧ actions.MovementAction_perform entity dx dy w
       = (w, Raise (Impossible "That way is blocked."))).
Proof.
  unfold actions.MovementAction_perform, actions.dest_xy, destination_clear.
  run_M.
  set (cx := x (heap w entity) + dx). set (cy := y (heap w entity) + dy).
  rewrite <- no_blocking_entity_iff.
  destruct (in_bounds (game_map w) cx cy); simpl;
    [| right; split; [by intros [? _] | done]].
  destruct (walkable (game_map w) cx cy); simpl;
    [| right; split; [by intros (_ & ? & _) | done]].
  destruct (get_blocking_entity_at_location w cx cy); simpl.
  - right; split; [by intros (_ & _ & ?) | done].
  - by left.
Qed.

(** C1.  A Movement action succeeds exactly when its destination is inside
    the map, walkable and free of blocking entities, and then the actor's
    position is translated by (dx, dy); in every other case it raises
    Impossible and leaves the world, hence the actor's position, as it
    was. *)
Theorem MovementAction_perform_iff_clear (w : World) (entity : nat) (dx dy : Z) :
  let dest := actions.dest_xy entity dx dy w in
  let r := actions.MovementAction_perform entity dx dy w in
  (raised r = false ↔ destination_clear w dest.1 dest.2)
  ∧ (raised r = false →
     r.2 = Ok tt
     ∧ x (heap r.1 entity) = x (heap w entity) + dx
     ∧ y (heap r.1 entity) = y (heap w entity) + dy)
  ∧ (raised r = true →
     r = (w, Raise (Impossible "That way is blocked."))
     ∧ x (heap r.1 entity) = x (heap w entity)
     ∧ y (heap r.1 entity) = y (heap w entity)).
Proof.
  cbv zeta.
  destruct (MovementAction_perform_cases w entity dx dy) as [[Hc ->] | [Hc ->]];
    cbv zeta in Hc; simpl.
  - split_and!; [done | | done].
    intros _. by rewrite store_same.
  - split_and!; [split; [done | intros H'; by destruct Hc] | done | done].
Qed.

(** The player of the duel steps west onto a free tile, and is stopped by
    the orc when stepping east. *)
Lemma MovementAction_perform_iff_clear_witness :
  (actions.MovementAction_perform 0 (-1) 0 duel).2 = Ok tt
  ∧ position (actions.MovementAction_perform 0 (-1) 0 duel).1 0 = (3, 5)
  ∧ actions.MovementAction_perform 0 1 0 duel
    = (duel, Raise (Impossible "That way is blocked.")).
Proof.
  destruct (MovementAction_perform_iff_clear duel 0 (-1) 0) as (_ & Hok & _).
  destruct (MovementAction_perform_iff_clear duel 0 1 0) as (_ & _ & Hfail).
  destruct (Hok eq_refl) as (Hres & Hx & Hy).
  destruct (Hfail eq_refl) as (Hraise & _).
  split; [exact Hres |].
  split; [exact (f_equal2 pair Hx Hy) | exact Hraise].
Defined.

(** ** Melee *)

Lemma refresh_buffs_hp (bs : list (string * Buff)) (f : Fighter) (log : list Message) :
  hp (refresh_buffs bs f log).1.2 = hp f
  ∧ ∃ expired, (refresh_buffs bs f log).2 = log ++ expired.
Proof.
  revert f log. induction bs as [|[k b] bs IH]; intros f log; simpl.
  - split; [done | exists []; by rewrite app_nil_r].
  - destruct (turns_left b - 1 <=? 0).
    + destruct (IH (run_on_expire (on_expire b) f)
                   (log ++ [{| text := message b; fg := color b |}])) as [Hhp [ex Hlog]].
      split.
      * rewrite Hhp. by destruct (on_expire b).
      * eexists. rewrite Hlog, <- app_assoc. done.
    + destruct (IH f log) as [Hhp Hlog].
      destruct (refresh_buffs bs f log) as [[kept f'] log']. done.
Qed.

Lemma update_temporary_buffs_hp (entity r : nat) (w : World) :
  hp (fighter (heap (update_temporary_buffs entity w) r)) = hp (fighter (heap w r)).
Proof.
  unfold update_temporary_buffs.
  pose proof (refresh_buffs_hp (temporary_buffs (fighter (heap w entity)))
                (fighter (heap w entity)) (message_log w)) as [Hhp _].
  destruct (refresh_buffs _ _ _) as [[kept f'] log']. simpl in *.
  unfold store. destruct (Nat.eqb r entity) eqn:E; [| done].
  apply Nat.eqb_eq in E as ->. done.
Qed.

Lemma update_temporary_buffs_name (entity r : nat) (w : World) :
  name (heap (update_temporary_buffs entity w) r) = name (heap w r).
Proof.
  unfold update_temporary_buffs.
  destruct (refresh_buffs _ _ _) as [[kept f'] log']. simpl.
  unfold store. destruct (Nat.eqb r entity) eqn:E; [| done].
  apply Nat.eqb_eq in E as ->. done.
Qed.

Lemma update_temporary_buffs_player (entity : nat) (w : World) :
  player (update_temporary_buffs entity w) = player w.
Proof.
  unfold update_temporary_buffs.
  by destruct (refresh_buffs _ _ _) as [[kept f'] log'].
Qed.

(** What a Melee action does when an actor stands at the destination. *)
Lemma MeleeAction_perform_target (w : World) (entity target : nat) (dx dy : Z) :
  actions.target_actor entity dx dy w = Some target →
  actions.MeleeAction_perform entity dx dy w =
    let damage := power (heap w entity) - defense (heap w target) in
    let w1 := update_temporary_buffs entity w in
    let w2 := set_message_log
                (message_log w1 ++ [attack_message w entity target damage]) w1 in
    (if 0 <? damage then take_damage target damage w2 else w2, Ok tt).
Proof.
  intros Ht. unfold actions.MeleeAction_perform. run_M. rewrite Ht. simpl.
  unfold attack_message, add_message.
  rewrite !update_temporary_buffs_name, update_temporary_buffs_player.
  by destruct (0 <? power (heap w entity) - defense (heap w target)).
Qed.

Lemma MeleeAction_perform_no_target (w : World) (entity : nat) (dx dy : Z) :
  actions.target_actor entity dx dy w = None →
  actions.MeleeAction_perform entity dx dy w
  = (w, Raise (Impossible "Nothing to attack.")).
Proof. intros Ht. unfold actions.MeleeAction_perform. run_M. by rewrite Ht. Qed.

Lemma take_damage_hp (target r : nat) (amount : Z) (w : World) :
  hp (fighter (heap (take_damage target amount w) r))
  = if Nat.eqb r target then hp (fighter (heap w r)) - amount
    else hp (fighter (heap w r)).
Proof.
  unfold take_damage, update_entity, store. simpl.
  destruct (Nat.eqb r target) eqn:E; [| done].
  by apply Nat.eqb_eq in E as ->.
Qed.

(** C3 (amended).  With an actor at the destination, a Melee action
    computes damage = power - defense from the stats as they are before
    the attacker's timed buffs are refreshed, then refreshes the buffs;
    the damage is subtracted from the defender's hp once and only when it
    is strictly positive, otherwise the hp is unchanged and a no-damage
    message is logged; the defender's hp never increases. *)
Theorem MeleeAction_perform_damage (w : World) (entity target : nat) (dx dy : Z) :
  actions.target_actor entity dx dy w = Some target →
  let damage := power (heap w entity) - defense (heap w target) in
  let w1 := update_temporary_buffs entity w in
  let r := actions.MeleeAction_perform entity dx dy w in
  r.2 = Ok tt
  ∧ hp (fighter (heap r.1 target))
    = (if 0 <? damage then hp (fighter (heap w target)) - damage
       else hp (fighter (heap w target)))
  ∧ hp (fighter (heap r.1 target)) ≤ hp (fighter (heap w target))
  ∧ message_log r.1 = message_log w1 ++ [attack_message w entity target damage]
  ∧ temporary_buffs (fighter (heap r.1 entity))
    = temporary_buffs (fighter (heap w1 entity))
  ∧ power (heap r.1 entity) = power (heap w1 entity).
Proof.
  intros Ht damage w1 r. subst r.
  rewrite (MeleeAction_perform_target _ _ _ _ _ Ht). cbv zeta.
  fold damage w1.
  destruct (0 <? damage) eqn:Hd; cbn [fst snd].
  - rewrite take_damage_hp, Nat.eqb_refl. simpl.
    unfold w1 at 1 2. rewrite update_temporary_buffs_hp.
    apply Z.ltb_lt in Hd.
    split_and!; [done | done | lia | done | |].
    + unfold store. by destruct (Nat.eqb entity target) eqn:E;
        [apply Nat.eqb_eq in E as <- |].
    + unfold power, store. by destruct (Nat.eqb entity target) eqn:E;
        [apply Nat.eqb_eq in E as <- |].
  - simpl. unfold w1 at 1 2. rewrite update_temporary_buffs_hp.
    split_and!; done || lia.
Qed.

(** The attack of the specification's example: 10 hp, no defense, power 3. *)
Lemma MeleeAction_perform_damage_witness :
  actions.target_actor 0 1 0 duel = Some 1%nat
  ∧ hp (fighter (heap (actions.MeleeAction_perform 0 1 0 duel).1 1)) = 7
  ∧ message_log (actions.MeleeAction_perform 0 1 0 duel).1
    = [{| text := "Player attacks orc for 3 hit points."; fg := player_atk |}].
Proof.
  split; [reflexivity |].
  destruct (MeleeAction_perform_damage duel 0 1 1 0 eq_refl) as (_ & Hhp & _ & Hlog & _).
  split; [exact Hhp | exact Hlog].
Defined.

(** C3, as stated, fails: were the buffs refreshed before the damage is
    computed, the boosted player would strike with power 2 and leave the
    orc at 8 hp; the code computes the damage first and leaves it at 5. *)
Lemma MeleeAction_damage_before_refresh :
  let w1 := update_temporary_buffs 0 duel_boosted in
  power (heap w1 0) - defense (heap w1 1) = 2
  ∧ hp (fighter (heap duel_boosted 1)) = 10
  ∧ hp (fighter (heap (actions.MeleeAction_perform 0 1 0 duel_boosted).1 1)) = 5
  ∧ hp (fighter (heap (actions.MeleeAction_perform 0 1 0 duel_boosted).1 1))
    ≠ hp (fighter (heap duel_boosted 1)) - (power (heap w1 0) - defense (heap w1 1)).
Proof. vm_compute. split_and!; congruence. Qed.

(** ** Bump *)

(** C10.  When an actor stands at the destination, a Bump action runs the
    Melee action on the very world it inspected, so the Melee action finds
    the same target and cannot raise its "Nothing to attack"; a Bump action
    that raises Impossible is therefore a Movement action whose destination
    is not clear. *)
Theorem BumpAction_perform_raises_only_from_Movement (w : World) (entity : nat) (dx dy : Z) :
  let r := actions.BumpAction_perform entity dx dy w in
  let dest := actions.dest_xy entity dx dy w in
  (∀ target, actions.target_actor entity dx dy w = Some target →
     r = actions.MeleeAction_perform entity dx dy w ∧ r.2 = Ok tt)
  ∧ (raised r = true →
     actions.target_actor entity dx dy w = None
     ∧ r = actions.MovementAction_perform entity dx dy w
     ∧ r = (w, Raise (Impossible "That way is blocked."))
     ∧ ¬ destination_clear w dest.1 dest.2).
Proof.
  unfold actions.BumpAction_perform. run_M.
  destruct (actions.target_actor entity dx dy w) as [target|] eqn:Ht; simpl.
  - split.
    + intros t [= <-]. split; [done |].
      by rewrite (MeleeAction_perform_target _ _ _ _ _ Ht).
    + rewrite (MeleeAction_perform_target _ _ _ _ _ Ht). cbv zeta. done.
  - split; [done |]. intros Hr.
    destruct (MovementAction_perform_cases w entity dx dy) as [[Hc Heq] | [Hc Heq]];
      cbv zeta in Hc; rewrite Heq in Hr |- *; [done |].
    done.
Qed.

(** Bumping east in the duel is the attack on the orc; bumping off the map
    is the Movement action that raises. *)
Lemma BumpAction_perform_raises_only_from_Movement_witness :
  actions.target_actor 0 1 0 duel = Some 1%nat
  ∧ (actions.BumpAction_perform 0 1 0 duel).2 = Ok tt
  ∧ raised (actions.BumpAction_perform 0 (-5) 0 duel) = true
  ∧ actions.target_actor 0 (-5) 0 duel = None
  ∧ actions.BumpAction_perform 0 (-5) 0 duel
    = (duel, Raise (Impossible "That way is blocked.")).
Proof.
  destruct (BumpAction_perform_raises_only_from_Movement duel 0 1 0) as (Hmelee & _).
  destruct (BumpAction_perform_raises_only_from_Movement duel 0 (-5) 0) as (_ & Hmove).
  destruct (Hmelee 1%nat eq_refl) as (_ & Hok).
  destruct (Hmove eq_refl) as (Hnone & _ & Hraise & _).
  split; [reflexivity |]. split; [exact Hok |]. split; [reflexivity |].
  split; [exact Hnone | exact Hraise].
Defined.

(** ** Confusion *)

Lemma update_temporary_buffs_ai (entity r : nat) (w : World) :
  ai (heap (update_temporary_buffs entity w) r) = ai (heap w r).
Proof.
  unfold update_temporary_buffs.
  destruct (refresh_buffs _ _ _) as [[kept f'] log']. simpl.
  unfold store. destruct (Nat.eqb r entity) eqn:E; [| done].
  by apply Nat.eqb_eq in E as ->.
Qed.

Lemma take_damage_ai (target r : nat) (amount : Z) (w : World) :
  ai (heap (take_damage target amount w) r) = ai (heap w r).
Proof.
  unfold take_damage, update_entity, store. simpl.
  destruct (Nat.eqb r target) eqn:E; [| done].
  by apply Nat.eqb_eq in E as ->.
Qed.

Lemma Entity_move_ai (entity r : nat) (dx dy : Z) (w : World) :
  ai (heap (Entity_move entity dx dy w) r) = ai (heap w r).
Proof.
  unfold Entity_move, update_entity, store. simpl.
  destruct (Nat.eqb r entity) eqn:E; [| done].
  by apply Nat.eqb_eq in E as ->.
Qed.

(** No action reached from a Bump writes the [ai] field of any actor. *)
Lemma BumpAction_perform_ai (w : World) (entity r : nat) (dx dy : Z) :
  ai (heap (actions.BumpAction_perform entity dx dy w).1 r) = ai (heap w r).
Proof.
  unfold actions.BumpAction_perform. run_M.
  destruct (actions.target_actor entity dx dy w) as [target|] eqn:Ht; simpl.
  - rewrite (MeleeAction_perform_target _ _ _ _ _ Ht). cbv zeta.
    destruct (0 <? _); cbn [fst].
    + rewrite take_damage_ai. apply update_temporary_buffs_ai.
    + apply update_temporary_buffs_ai.
  - destruct (MovementAction_perform_cases w entity dx dy) as [[_ ->] | [_ ->]];
      [apply Entity_move_ai | done].
Qed.

(** A tick with turns left: the counter goes down by one, whatever the
    Bump does (also when it raises). *)
Lemma ConfusedEnemy_perform_counts_down (w : World) (entity : nat)
    (previous_ai : option AI) (turns_remaining : Z) (rnd : nat) :
  0 < turns_remaining →
  ai (heap (ai.ConfusedEnemy_perform entity previous_ai turns_remaining rnd w).1 entity)
  = Some (ConfusedEnemy previous_ai (turns_remaining - 1)).
Proof.
  intros Hpos. unfold ai.ConfusedEnemy_perform.
  apply Z.leb_gt in Hpos as ->.
  destruct (ai.random_choice (0, 0) ai.directions rnd) as [direction_x direction_y].
  run_M. rewrite BumpAction_perform_ai. simpl. by rewrite store_same.
Qed.

(** A tick with no turn left: the previous strategy is put back. *)
Lemma ConfusedEnemy_perform_reverts (w : World) (entity : nat)
    (previous_ai : option AI) (turns_remaining : Z) (rnd : nat) :
  turns_remaining ≤ 0 →
  ai (heap (ai.ConfusedEnemy_perform entity previous_ai turns_remaining rnd w).1 entity)
  = previous_ai.
Proof.
  intros Hle. unfold ai.ConfusedEnemy_perform.
  apply Z.leb_le in Hle as ->. run_M. by rewrite store_same.
Qed.

Lemma confused_ticks_still_confused (entity : nat) (previous_ai : option AI)
    (rnds : list nat) (n : Z) (w : World) :
  ai (heap w entity) = Some (ConfusedEnemy previous_ai n) →
  Z.of_nat (length rnds) ≤ n →
  ai (heap (ai.confused_ticks entity rnds w) entity)
  = Some (ConfusedEnemy previous_ai (n - Z.of_nat (length rnds))).
Proof.
  revert n w. induction rnds as [|rnd rnds IH]; intros n w Hai Hlen; simpl in *.
  - rewrite Hai. f_equal. f_equal. lia.
  - rewrite Hai.
    rewrite (IH (n - 1)); [f_equal; f_equal; lia | | lia].
    apply ConfusedEnemy_perform_counts_down. lia.
Qed.

Lemma confused_ticks_reverted (entity : nat) (previous_ai : option AI)
    (rnds : list nat) (n : Z) (w : World) :
  ai (heap w entity) = Some (ConfusedEnemy previous_ai n) →
  0 ≤ n → Z.of_nat (length rnds) = n + 1 →
  ai (heap (ai.confused_ticks entity rnds w) entity) = previous_ai.
Proof.
  revert n w. induction rnds as [|rnd rnds IH]; intros n w Hai Hn Hlen; simpl in *.
  - lia.
  - rewrite Hai. destruct (decide (n = 0)) as [-> | Hne].
    + destruct rnds; [| simpl in Hlen; lia]. cbn [ai.confused_ticks].
      by apply ConfusedEnemy_perform_reverts.
    + apply (IH (n - 1)); [| lia | lia].
      apply ConfusedEnemy_perform_counts_down. lia.
Qed.

Lemma confused_ticks_app (entity : nat) (rnds : list nat) (rnd : nat) (w : World) :
  ai.confused_ticks entity (rnds ++ [rnd]) w
  = ai.confused_ticks entity [rnd] (ai.confused_ticks entity rnds w).
Proof.
  revert w. induction rnds as [|r rnds IH]; intros w; [done |].
  cbn [ai.confused_ticks app].
  destruct (ai (heap w entity)) as [[| prev n | | | | |] |] eqn:Hai;
    [| apply IH | ..]; simpl; by rewrite Hai.
Qed.

(** A tick with turns left is a confused turn of the specification. *)
Lemma ConfusedEnemy_perform_stumbles (w : World) (entity : nat)
    (previous_ai : option AI) (turns_remaining : Z) (rnd : nat) :
  0 < turns_remaining →
  (ai.ConfusedEnemy_perform entity previous_ai turns_remaining rnd w).1
  = stumble entity previous_ai turns_remaining rnd w.
Proof.
  intros Hpos. unfold ai.ConfusedEnemy_perform, stumble.
  apply Z.leb_gt in Hpos as ->.
  change (ai.random_choice (0, 0) ai.directions rnd) with (drawn_direction rnd).
  destruct (drawn_direction rnd) as [direction_x direction_y].
  unfold mbind, M_bind, modify. done.
Qed.

(** A tick with no turn left is the end of the confusion. *)
Lemma ConfusedEnemy_perform_recovers (w : World) (entity : nat)
    (previous_ai : option AI) (turns_remaining : Z) (rnd : nat) :
  turns_remaining ≤ 0 →
  (ai.ConfusedEnemy_perform entity previous_ai turns_remaining rnd w).1
  = recover entity previous_ai w.
Proof.
  intros Hle. unfold ai.ConfusedEnemy_perform, recover.
  apply Z.leb_le in Hle as ->. by run_M.
Qed.

Lemma drawn_direction_compass (rnd : nat) : drawn_direction rnd ∈ ai.directions.
Proof.
  unfold drawn_direction.
  assert (rnd mod 8 < 8)%nat as Hlt by (apply Nat.mod_upper_bound; lia).
  apply list_elem_of_In, nth_In. exact Hlt.
Qed.

Lemma compass_drawn (d : Z * Z) : d ∈ ai.directions → ∃ rnd, drawn_direction rnd = d.
Proof.
  intros Hd. apply list_elem_of_lookup in Hd as [i Hi].
  pose proof (lookup_lt_Some _ _ _ Hi) as Hlt. exists i. unfold drawn_direction.
  rewrite Nat.mod_small by exact Hlt. by apply nth_lookup_Some.
Qed.

(** C4 (amended).  A Confused strategy created with turns_remaining = N
    (N >= 1) is still in place after each of its first N decision ticks,
    with N - k turns left after the k-th, and the actor's AI field is
    restored to the saved previous strategy by tick N + 1.  Each of the
    first N ticks is a confused turn: the counter goes down by one and the
    actor bumps in the direction drawn among the eight compass directions,
    every one of which can be drawn.  Tick N + 1 logs that the actor is no
    longer confused, puts the strategy back and bumps nowhere. *)
Theorem ConfusedEnemy_reverts_on_tick_after_last (w : World) (entity : nat)
    (previous_ai : option AI) (N : nat) (rnds : list nat) :
  (1 ≤ N)%nat →
  ai (heap w entity) = Some (ConfusedEnemy previous_ai (Z.of_nat N)) →
  ((length rnds ≤ N)%nat →
   ai (heap (ai.confused_ticks entity rnds w) entity)
   = Some (ConfusedEnemy previous_ai (Z.of_nat N - Z.of_nat (length rnds))))
  ∧ (length rnds = S N →
     ai (heap (ai.confused_ticks entity rnds w) entity) = previous_ai)
  ∧ (∀ rnd, (length rnds < N)%nat →
       ai.confused_ticks entity (rnds ++ [rnd]) w
       = stumble entity previous_ai (Z.of_nat N - Z.of_nat (length rnds)) rnd
           (ai.confused_ticks entity rnds w))
  ∧ (∀ rnd, length rnds = N →
       ai.confused_ticks entity (rnds ++ [rnd]) w
       = recover entity previous_ai (ai.confused_ticks entity rnds w))
  ∧ (∀ rnd, drawn_direction rnd ∈ ai.directions)
  ∧ (∀ d, d ∈ ai.directions → ∃ rnd, drawn_direction rnd = d).
Proof.
  intros HN Hai. split_and!.
  - intros Hlen. apply confused_ticks_still_confused; [done | lia].
  - intros Hlen. apply (confused_ticks_reverted _ _ _ (Z.of_nat N)); [done | lia | lia].
  - intros rnd Hlen. rewrite confused_ticks_app. cbn [ai.confused_ticks].
    rewrite (confused_ticks_still_confused entity previous_ai rnds (Z.of_nat N) w Hai)
      by lia.
    apply ConfusedEnemy_perform_stumbles. lia.
  - intros rnd Hlen. rewrite confused_ticks_app. cbn [ai.confused_ticks].
    rewrite (confused_ticks_still_confused entity previous_ai rnds (Z.of_nat N) w Hai)
      by lia.
    apply ConfusedEnemy_perform_recovers. lia.
  - apply drawn_direction_compass.
  - apply compass_drawn.
Qed.

(** The orc of the duel, confused for two turns, draws west, east and
    south: it attacks the player on its west, steps east, and on the third
    tick recovers where it stands. *)
Lemma ConfusedEnemy_reverts_on_tick_after_last_witness :
  (1 ≤ 2)%nat
  ∧ ai (heap duel_confused 1) = Some (ConfusedEnemy (Some (HostileEnemy [])) 2)
  ∧ ai (heap (ai.confused_ticks 1 [3; 4]%nat duel_confused) 1)
    = Some (ConfusedEnemy (Some (HostileEnemy [])) (2 - 2))
  ∧ ai (heap (ai.confused_ticks 1 [3; 4; 6]%nat duel_confused) 1)
    = Some (HostileEnemy [])
  ∧ ai.confused_ticks 1 [3]%nat duel_confused = stumble 1 (Some (HostileEnemy [])) 2 3 duel_confused
  ∧ drawn_direction 3 = (-1, 0)
  ∧ hp_of duel_confused 0 = 30
  ∧ hp_of (ai.confused_ticks 1 [3]%nat duel_confused) 0 = 28
  ∧ drawn_direction 4 = (1, 0)
  ∧ position (ai.confused_ticks 1 [3]%nat duel_confused) 1 = (5, 5)
  ∧ position (ai.confused_ticks 1 [3; 4]%nat duel_confused) 1 = (6, 5)
  ∧ ai.confused_ticks 1 [3; 4; 6]%nat duel_confused
    = recover 1 (Some (HostileEnemy [])) (ai.confused_ticks 1 [3; 4]%nat duel_confused)
  ∧ position (ai.confused_ticks 1 [3; 4; 6]%nat duel_confused) 1 = (6, 5).
Proof.
  split; [lia |]. split; [reflexivity |].
  split.
  { apply (ConfusedEnemy_reverts_on_tick_after_last duel_confused 1
             (Some (HostileEnemy [])) 2 [3; 4]%nat); [lia | reflexivity | simpl; lia]. }
  split.
  { apply (ConfusedEnemy_reverts_on_tick_after_last duel_confused 1
             (Some (HostileEnemy [])) 2 [3; 4; 6]%nat); [lia | reflexivity | reflexivity]. }
  split.
  { destruct (ConfusedEnemy_reverts_on_tick_after_last duel_confused 1
                (Some (HostileEnemy [])) 2 []%nat) as (_ & _ & Hturn & _);
      [lia | reflexivity |].
    apply (Hturn 3%nat). simpl. lia. }
  split; [reflexivity |]. split; [reflexivity |]. split; [reflexivity |].
  split; [reflexivity |]. split; [reflexivity |]. split; [reflexivity |].
  split; [| reflexivity].
  destruct (ConfusedEnemy_reverts_on_tick_after_last duel_confused 1
              (Some (HostileEnemy [])) 2 [3; 4]%nat) as (_ & _ & _ & Hend & _);
    [lia | reflexivity |].
  apply (Hend 6%nat). reflexivity.
Defined.

(** C4, as stated, fails: two ticks after a confusion of two turns the
    orc is still confused (counter at 0) and its previous strategy is not
    back; it comes back on the third tick. *)
Lemma ConfusedEnemy_not_reverted_after_N_ticks :
  ai (heap duel_confused 1) = Some (ConfusedEnemy (Some (HostileEnemy [])) 2)
  ∧ ai (heap (ai.confused_ticks 1 [3; 4]%nat duel_confused) 1)
    = Some (ConfusedEnemy (Some (HostileEnemy [])) 0)
  ∧ ai (heap (ai.confused_ticks 1 [3; 4]%nat duel_confused) 1) ≠ Some (HostileEnemy [])
  ∧ ai (heap (ai.confused_ticks 1 [3; 4; 6]%nat duel_confused) 1) = Some (HostileEnemy []).
Proof. vm_compute. split_and!; congruence. Qed.

(** ** Collisions *)

Lemma same_stage_refl (w : World) : same_stage w w.
Proof. by repeat split. Qed.

Lemma same_stage_trans (w1 w2 w3 : World) :
  same_stage w1 w2 → same_stage w2 w3 → same_stage w1 w3.
Proof.
  intros (Hg & Hp & He) (Hg' & Hp' & He').
  split_and!; [congruence | congruence |].
  intros r. destruct (He r) as (? & ? & ? & ?), (He' r) as (? & ? & ? & ?).
  split_and!; congruence.
Qed.

Lemma same_stage_actors (w w' : World) : same_stage w w' → actors w' = actors w.
Proof.
  intros (Hg & _ & He). unfold actors. rewrite Hg.
  apply list_filter_iff. intros r. destruct (He r) as (_ & _ & -> & _). done.
Qed.

Lemma same_stage_actor_at (w w' : World) (cx cy : Z) :
  same_stage w w' → get_actor_at_location w' cx cy = get_actor_at_location w cx cy.
Proof.
  intros Hs. unfold get_actor_at_location. rewrite (same_stage_actors _ _ Hs).
  destruct Hs as (_ & _ & He).
  induction (actors w) as [|r l IH]; simpl; [done |].
  unfold at_cell at 1 3. destruct (He r) as (-> & -> & _). by rewrite IH.
Qed.

Lemma same_stage_dealt (p p' : Projectile.t) (w w' : World) (r : nat) :
  Projectile.damage p' = Projectile.damage p → same_stage w w' →
  dealt p' w' r = dealt p w r.
Proof.
  intros Hd (_ & _ & He). unfold dealt.
  destruct (He r) as (_ & _ & _ & ->). by rewrite Hd.
Qed.

Lemma add_message_stage (t : string) (c : Color) (w : World) :
  same_stage w (add_message t c w).
Proof. by repeat split. Qed.

Lemma take_damage_stage (t : nat) (amount : Z) (w : World) :
  same_stage w (take_damage t amount w).
Proof.
  split_and!; [done | done |]. intros r.
  unfold take_damage, update_entity, store, defense. simpl.
  destruct (Nat.eqb r t) eqn:E; [apply Nat.eqb_eq in E as -> | done]. done.
Qed.

Lemma same_shooter_refl (s : Projectile.t * World) : same_shooter s s.
Proof. by repeat split. Qed.

Lemma same_shooter_trans (s1 s2 s3 : Projectile.t * World) :
  same_shooter s1 s2 → same_shooter s2 s3 → same_shooter s1 s3.
Proof.
  intros (? & ? & ? & ?) (? & ? & ? & ?).
  split_and!; [congruence | congruence | congruence |].
  by eapply same_stage_trans.
Qed.

Lemma hit_at_most_once_refl (r : nat) (s : Projectile.t * World) :
  hit_at_most_once r s s.
Proof. split; [apply same_shooter_refl | left; by split]. Qed.

(** Two stretches, each with at most one strike on [r], make a stretch
    with at most one strike: the hit set remembers the first. *)
Lemma hit_at_most_once_trans (r : nat) (s1 s2 s3 : Projectile.t * World) :
  hit_at_most_once r s1 s2 → hit_at_most_once r s2 s3 → hit_at_most_once r s1 s3.
Proof.
  intros [Hs12 H12] [Hs23 H23].
  split; [by eapply same_shooter_trans |].
  destruct Hs12 as (Ha & Hc & Hd & Hst).
  destruct H12 as [[Hhp Hin] | (Hout & Hin & Hhp & Hown)],
           H23 as [[Hhp' Hin'] | (Hout' & Hin' & Hhp' & Hown')].
  - left. split; [congruence | by rewrite Hin'].
  - right. split_and!.
    + by rewrite <- Hin.
    + done.
    + rewrite Hhp', Hhp. f_equal. by apply same_stage_dealt.
    + by rewrite <- Ha, <- Hc.
  - right. split_and!; [done | by apply Hin' | congruence | done].
  - done.
Qed.

Lemma struck_Some (p : Projectile.t) (cx cy : Z) (w : World) (t : nat) :
  struck p cx cy w = Some t
  ↔ in_bounds (game_map w) cx cy = true
    ∧ get_actor_at_location w cx cy = Some t
    ∧ (t ∉ Projectile.hit_actors p)
    ∧ ¬ (t = Projectile.actor p ∧ Projectile.can_hit_self p = false).
Proof.
  unfold struck.
  destruct (in_bounds (game_map w) cx cy); [| by split; [| intros (? & _)]].
  destruct (get_actor_at_location w cx cy) as [t'|];
    [| by split; [| intros (_ & ? & _)]].
  destruct (bool_decide_reflect (t' ∉ Projectile.hit_actors p)) as [Hout | Hin];
    simpl; [| split; [done | intros (_ & [= ->] & ? & _); done]].
  destruct (Nat.eqb_spec t' (Projectile.actor p)) as [-> | Hne];
    destruct (Projectile.can_hit_self p) eqn:Hc; simpl.
  - split; [intros [= <-] | intros (_ & [= <-] & _)]; [| done].
    split_and!; [done | done | done | by intros [_ ?]].
  - split; [done | intros (_ & [= <-] & _ & Hn)]. by destruct Hn.
  - split; [intros [= <-] | intros (_ & [= <-] & _)]; [| done].
    split_and!; [done | done | done | by intros [_ ?]].
  - split; [intros [= <-] | intros (_ & [= <-] & _)]; [| done].
    split_and!; [done | done | done | by intros [? _]].
Qed.

(** What a collision check does, by the actor it strikes. *)
Lemma check_collision_struck (p : Projectile.t) (cx cy : Z) (w : World) :
  match struck p cx cy w with
  | None => projectiles.check_collision p cx cy w = (p, w, false)
  | Some t =>
    ∃ w', projectiles.check_collision p cx cy w
          = (projectiles.set_hit_actors ({[ t ]} ∪ Projectile.hit_actors p) p, w', true)
          ∧ same_stage w w'
          ∧ ∀ r, hp_of w' r = if Nat.eqb r t then hp_of w r - dealt p w t else hp_of w r
  end.
Proof.
  unfold struck, projectiles.check_collision.
  destruct (in_bounds (game_map w) cx cy); simpl; [| done].
  destruct (get_actor_at_location w cx cy) as [t|]; [| done].
  destruct (bool_decide (t ∉ Projectile.hit_actors p)); simpl; [| done].
  destruct (Nat.eqb t (Projectile.actor p) && negb (Projectile.can_hit_self p));
    simpl; [done |].
  fold (dealt p w t).
  destruct (0 <? dealt p w t) eqn:Hd.
  - eexists. split; [done |]. split.
    + eapply same_stage_trans; [apply add_message_stage | apply take_damage_stage].
    + intros r. unfold hp_of. by rewrite take_damage_hp.
  - eexists. split; [done |]. split; [apply add_message_stage |].
    intros r. apply Z.ltb_ge in Hd.
    assert (dealt p w t = 0) as -> by (unfold dealt in *; lia).
    unfold hp_of. simpl. destruct (Nat.eqb r t); lia.
Qed.

(** A check that strikes [r] strikes it once. *)
Lemma check_collision_on (r : nat) (p : Projectile.t) (cx cy : Z) (w : World) :
  struck p cx cy w = Some r →
  struck_once r (p, w) (projectiles.check_collision p cx cy w).1.
Proof.
  intros Hs. pose proof (check_collision_struck p cx cy w) as H. rewrite Hs in H.
  destruct H as (w' & -> & _ & Hhp). apply struck_Some in Hs as (_ & _ & Hout & Hown).
  split_and!; simpl; [done | set_solver | | done].
  by rewrite Hhp, Nat.eqb_refl.
Qed.

(** A check that does not strike [r] leaves it untouched. *)
Lemma check_collision_off (r : nat) (p : Projectile.t) (cx cy : Z) (w : World) :
  struck p cx cy w ≠ Some r →
  untouched r (p, w) (projectiles.check_collision p cx cy w).1.
Proof.
  intros Hs. pose proof (check_collision_struck p cx cy w) as H.
  destruct (struck p cx cy w) as [t|]; [| by rewrite H].
  destruct H as (w' & -> & _ & Hhp). assert (r ≠ t) as Hne by congruence.
  split; simpl.
  - rewrite Hhp. by apply Nat.eqb_neq in Hne as ->.
  - rewrite elem_of_union, elem_of_singleton.
    split; [intros [? | ?]; done | by right].
Qed.

Lemma check_collision_shooter (p : Projectile.t) (cx cy : Z) (w : World) :
  same_shooter (p, w) (projectiles.check_collision p cx cy w).1.
Proof.
  pose proof (check_collision_struck p cx cy w) as H.
  destruct (struck p cx cy w) as [t|]; [| rewrite H; apply same_shooter_refl].
  destruct H as (w' & -> & Hst & _). by split_and!.
Qed.

Lemma check_collision_once (r : nat) (p : Projectile.t) (cx cy : Z) (w : World) :
  hit_at_most_once r (p, w) (projectiles.check_collision p cx cy w).1.
Proof.
  split; [apply check_collision_shooter |].
  destruct (decide (struck p cx cy w = Some r)).
  - right. by apply check_collision_on.
  - left. by apply check_collision_off.
Qed.

(** A loop whose every round strikes [r] at most once strikes it at most
    once over all rounds. *)
Lemma fold_hit_at_most_once {C : Type} (r : nat)
    (f : Projectile.t * World → C → Projectile.t * World) :
  (∀ s c, hit_at_most_once r s (f s c)) →
  ∀ l s, hit_at_most_once r s (fold_left f l s).
Proof.
  intros Hf l. induction l as [|c l IH]; intros s; simpl.
  - apply hit_at_most_once_refl.
  - eapply hit_at_most_once_trans; [apply Hf | apply IH].
Qed.

Lemma check_cells_once (r : nat) (cells : list (Z * Z)) (p : Projectile.t) (w : World) :
  hit_at_most_once r (p, w) (projectiles.check_cells cells p w).
Proof.
  apply fold_hit_at_most_once. intros [p' w'] c. apply check_collision_once.
Qed.

Lemma check_around_actor_once (r : nat) (offs : list (Z * Z)) (p : Projectile.t)
    (w : World) :
  hit_at_most_once r (p, w) (projectiles.check_around_actor offs p w).
Proof.
  apply fold_hit_at_most_once. intros [p' w'] o. apply check_collision_once.
Qed.

Lemma keeps_record_once (r : nat) (p p' : Projectile.t) (w : World) :
  keeps_record p p' → hit_at_most_once r (p, w) (p', w).
Proof.
  intros (Hh & Ha & Hc & Hd). split.
  - by repeat split.
  - left. split; simpl; [done | by rewrite Hh].
Qed.

(** ** Frames *)

(** Step over writes to the projectile's own fields, up to [q]. *)
Ltac own_fields q :=
  match goal with
  | |- hit_at_most_once ?r (_, ?w) _ =>
    apply (hit_at_most_once_trans r _ (q, w));
    [apply keeps_record_once; by repeat split |]
  end.

Lemma move_once (r : nat) (p : Projectile.t) (w : World) :
  hit_at_most_once r (p, w) (projectiles.move p w).
Proof.
  unfold projectiles.move.
  set (p1 := projectiles.set_distance_travelled _ (projectiles.set_pos _ _ p)).
  own_fields p1.
  destruct (in_bounds (game_map w) (Projectile.x p1) (Projectile.y p1)).
  - pose proof (check_collision_once r p1 (Projectile.x p1) (Projectile.y p1) w) as H.
    destruct (projectiles.check_collision p1 _ _ w) as [[p2 w2] b]. simpl in H.
    apply (hit_at_most_once_trans r _ (p2, w2)); [done |].
    destruct (negb (walkable (game_map w2) (Projectile.x p2) (Projectile.y p2)));
      [apply keeps_record_once; by repeat split |].
    destruct (negb (in_bounds (game_map w2) (Projectile.x p2) (Projectile.y p2))
              || (Projectile.range p2 <=? Projectile.distance_travelled p2));
      apply keeps_record_once; by repeat split.
  - destruct (negb (in_bounds (game_map w) (Projectile.x p1) (Projectile.y p1))
              || (Projectile.range p1 <=? Projectile.distance_travelled p1));
      apply keeps_record_once; by repeat split.
Qed.

(** One frame of any projectile strikes a given actor at most once. *)
Lemma update_once (r : nat) (p : Projectile.t) (w : World) :
  hit_at_most_once r (p, w) (projectiles.update p w).
Proof.
  unfold projectiles.update.
  destruct (Projectile.cls p) as [| f | radius | |].
  - unfold projectiles.Projectile_update.
    destruct (negb (Projectile.done p));
      [apply move_once | apply hit_at_most_once_refl].
  - unfold projectiles.Projectile_update.
    destruct (negb (Projectile.done p));
      [apply move_once | apply hit_at_most_once_refl].
  - unfold projectiles.ShockwaveProjectile_update.
    destruct (Projectile.done p); [apply hit_at_most_once_refl |].
    cbv zeta. destruct (_ <? _).
    + apply keeps_record_once; by repeat split.
    + own_fields (projectiles.set_cls (ShockwaveProjectile_cls (radius + 1)) p).
      apply check_around_actor_once.
  - unfold projectiles.CrossProjectile_update.
    destruct (Projectile.done p); [apply hit_at_most_once_refl |].
    cbv zeta. destruct (_ <? _).
    + apply keeps_record_once; by repeat split.
    + own_fields (projectiles.set_distance_travelled
                    (Projectile.distance_travelled p + 1) p).
      match goal with
      | |- context [let '(_, _) := projectiles.check_cells ?c ?q ?v in _] =>
        pose proof (check_cells_once r c q v) as H;
        destruct (projectiles.check_cells c q v) as [p2 w2]
      end.
      eapply hit_at_most_once_trans; [exact H | apply check_cells_once].
  - unfold projectiles.DiagonalProjectile_update.
    destruct (Projectile.done p); [apply hit_at_most_once_refl |].
    cbv zeta. destruct (_ <? _).
    + apply keeps_record_once; by repeat split.
    + own_fields (projectiles.set_distance_travelled
                    (Projectile.distance_travelled p + 1) p).
      apply check_cells_once.
Qed.

Lemma hit_at_most_once_hp_le (r : nat) (s s' : Projectile.t * World) :
  hit_at_most_once r s s' → hp_of s'.2 r ≤ hp_of s.2 r.
Proof.
  intros [_ [[-> _] | (_ & _ & -> & _)]]; [done |]. unfold dealt. lia.
Qed.

Lemma hp_drops_after_hit (r : nat) (envs : list (World → World)) (p : Projectile.t)
    (w : World) :
  r ∈ Projectile.hit_actors p → hp_drops r envs p w = 0%nat.
Proof.
  revert p w. induction envs as [|env envs IH]; intros p w Hin; simpl; [done |].
  pose proof (update_once r p (env w)) as [_ H].
  destruct (projectiles.update p (env w)) as [p' w'].
  unfold untouched, struck_once in H. simpl in H.
  destruct H as [[Hhp Hiff] | (Hout & _)]; [| done].
  rewrite Hhp, Z.ltb_irrefl. simpl. apply IH. by apply Hiff.
Qed.

Lemma hp_drops_le_1 (r : nat) (envs : list (World → World)) (p : Projectile.t)
    (w : World) :
  (hp_drops r envs p w ≤ 1)%nat.
Proof.
  revert p w. induction envs as [|env envs IH]; intros p w; simpl; [lia |].
  pose proof (update_once r p (env w)) as [_ H].
  destruct (projectiles.update p (env w)) as [p' w'].
  unfold untouched, struck_once in H. simpl in H.
  destruct H as [[Hhp Hiff] | (_ & Hin & _)].
  - rewrite Hhp, Z.ltb_irrefl. simpl. apply IH.
  - rewrite (hp_drops_after_hit r envs p' w' Hin). destruct (_ <? _); simpl; lia.
Qed.

Lemma hp_drops_owner (r : nat) (envs : list (World → World)) (p : Projectile.t)
    (w : World) :
  r = Projectile.actor p → Projectile.can_hit_self p = false →
  hp_drops r envs p w = 0%nat.
Proof.
  revert p w. induction envs as [|env envs IH]; intros p w Hr Hc; simpl; [done |].
  pose proof (update_once r p (env w)) as [(Ha & Hc' & _) H].
  destruct (projectiles.update p (env w)) as [p' w'].
  unfold untouched, struck_once in H. simpl in *.
  destruct H as [[Hhp Hiff] | (_ & _ & _ & Hown)]; [| by destruct Hown].
  rewrite Hhp, Z.ltb_irrefl. simpl. apply IH; congruence.
Qed.

(** C2.  Over the whole life of a projectile, whatever happens to the
    world between its frames, the frames that lower the hp of a given
    actor number at most one; every single collision check and every
    single frame strikes the actor at most once (it then enters the hit
    set, and a check on an actor of the hit set leaves its hp alone); and
    the owner's hp is never lowered while the self-hit flag is off. *)
Theorem projectile_hits_each_actor_at_most_once (r : nat)
    (envs : list (World → World)) (p : Projectile.t) (w : World) :
  (hp_drops r envs p w ≤ 1)%nat
  ∧ (r = Projectile.actor p → Projectile.can_hit_self p = false →
     hp_drops r envs p w = 0%nat)
  ∧ (∀ cx cy, hit_at_most_once r (p, w) (projectiles.check_collision p cx cy w).1)
  ∧ hit_at_most_once r (p, w) (projectiles.update p w)
  ∧ (r ∈ Projectile.hit_actors p →
     ∀ cx cy, hp_of (projectiles.check_collision p cx cy w).1.2 r = hp_of w r).
Proof.
  split_and!.
  - apply hp_drops_le_1.
  - apply hp_drops_owner.
  - intros cx cy. apply check_collision_once.
  - apply update_once.
  - intros Hin cx cy.
    destruct (check_collision_once r p cx cy w) as [_ [[Hhp _] | (Hout & _)]]; done.
Qed.

(** Three frames of the dart in the duel: the orc on its line loses hp in
    one frame, the player who threw it in none. *)
Lemma projectile_hits_each_actor_at_most_once_witness :
  (hp_drops 1 [id; id; id] dart duel ≤ 1)%nat
  ∧ hp_drops 1 [id; id; id] dart duel = 1%nat
  ∧ hp_drops 0 [id; id; id] dart duel = 0%nat.
Proof.
  destruct (projectile_hits_each_actor_at_most_once 1 [id; id; id] dart duel)
    as (Hle & _).
  destruct (projectile_hits_each_actor_at_most_once 0 [id; id; id] dart duel)
    as (_ & Hown & _).
  split; [exact Hle |]. split; [reflexivity | exact (Hown eq_refl eq_refl)].
Defined.

(** ** Straight flight *)

Lemma check_collision_flight (p : Projectile.t) (cx cy : Z) (w : World) :
  let s := (projectiles.check_collision p cx cy w).1 in
  Projectile.x s.1 = Projectile.x p ∧ Projectile.y s.1 = Projectile.y p
  ∧ Projectile.dx s.1 = Projectile.dx p ∧ Projectile.dy s.1 = Projectile.dy p
  ∧ Projectile.range s.1 = Projectile.range p ∧ Projectile.cls s.1 = Projectile.cls p
  ∧ Projectile.distance_travelled s.1 = Projectile.distance_travelled p
  ∧ Projectile.done s.1 = Projectile.done p
  ∧ game_map s.2 = game_map w.
Proof.
  pose proof (check_collision_struck p cx cy w) as H.
  destruct (struck p cx cy w) as [t|]; [| by rewrite H].
  destruct H as (w' & -> & (Hg & _) & _). by split_and!.
Qed.

(** One frame of a straight projectile in flight. *)
Lemma Projectile_update_step (p : Projectile.t) (w : World) :
  Projectile.done p = false →
  let s := projectiles.Projectile_update p w in
  let cx := Projectile.x p + Projectile.dx p in
  let cy := Projectile.y p + Projectile.dy p in
  Projectile.x s.1 = cx ∧ Projectile.y s.1 = cy
  ∧ Projectile.dx s.1 = Projectile.dx p ∧ Projectile.dy s.1 = Projectile.dy p
  ∧ Projectile.range s.1 = Projectile.range p ∧ Projectile.cls s.1 = Projectile.cls p
  ∧ Projectile.distance_travelled s.1 = Projectile.distance_travelled p + 1
  ∧ game_map s.2 = game_map w
  ∧ Projectile.done s.1
    = negb (in_bounds (game_map w) cx cy && walkable (game_map w) cx cy)
      || (Projectile.range p <=? Projectile.distance_travelled p + 1).
Proof.
  intros Hd. unfold projectiles.Projectile_update. rewrite Hd. simpl.
  unfold projectiles.move.
  set (p1 := projectiles.set_distance_travelled _ (projectiles.set_pos _ _ p)).
  change (Projectile.x p1) with (Projectile.x p + Projectile.dx p).
  change (Projectile.y p1) with (Projectile.y p + Projectile.dy p).
  set (cx := Projectile.x p + Projectile.dx p).
  set (cy := Projectile.y p + Projectile.dy p).
  destruct (in_bounds (game_map w) cx cy) eqn:Hin; simpl.
  - pose proof (check_collision_flight p1 cx cy w) as H. cbv zeta in H.
    destruct (projectiles.check_collision p1 cx cy w) as [[p2 w2] b]. simpl in H.
    destruct H as (Hx & Hy & Hdx & Hdy & Hr & Hc & Hdt & Hdn & Hg).
    rewrite Hg, Hx, Hy. fold cx cy.
    destruct (walkable (game_map w) cx cy); simpl.
    + rewrite Hin, Hr, Hdt. simpl.
      destruct (Projectile.range p <=? Projectile.distance_travelled p + 1);
        simpl; split_and!; try done; congruence.
    + split_and!; done.
  - split_and!; done.
Qed.

Lemma update_straight (p : Projectile.t) (w : World) :
  flies_straight p = true →
  projectiles.update p w = projectiles.Projectile_update p w.
Proof.
  unfold flies_straight, projectiles.update. by destruct (Projectile.cls p).
Qed.

Lemma updates_done (n : nat) (p : Projectile.t) (w : World) :
  flies_straight p = true → Projectile.done p = true →
  projectiles.updates n p w = (p, w).
Proof.
  intros Hc Hd. induction n as [|n IH]; simpl; [done |].
  rewrite (update_straight _ _ Hc). unfold projectiles.Projectile_update.
  by rewrite Hd.
Qed.

Lemma updates_plus (n m : nat) (p : Projectile.t) (w : World) :
  projectiles.updates (n + m) p w
  = projectiles.updates m (projectiles.updates n p w).1 (projectiles.updates n p w).2.
Proof.
  revert p w. induction n as [|n IH]; intros p w; simpl; [done |].
  destruct (projectiles.update p w) as [p' w']. apply IH.
Qed.

(** While the cells let it through and the range is not reached, the
    projectile advances one cell per frame and is not done. *)
Lemma flight_in_progress (n : nat) (p : Projectile.t) (w : World) :
  flies_straight p = true → Projectile.done p = false →
  Projectile.distance_travelled p = 0 →
  (∀ j, 1 ≤ j ≤ Z.of_nat n → lets_through p (game_map w) j = true ∧ j < Projectile.range p) →
  let s := projectiles.updates n p w in
  Projectile.done s.1 = false
  ∧ flies_straight s.1 = true
  ∧ Projectile.distance_travelled s.1 = Z.of_nat n
  ∧ (Projectile.x s.1, Projectile.y s.1) = cell_on_line p (Z.of_nat n)
  ∧ Projectile.dx s.1 = Projectile.dx p ∧ Projectile.dy s.1 = Projectile.dy p
  ∧ Projectile.range s.1 = Projectile.range p
  ∧ game_map s.2 = game_map w.
Proof.
  intros Hc Hd Hdt. induction n as [|n IH]; intros Hfree.
  - simpl. unfold cell_on_line. split_and!; try done. f_equal; lia.
  - replace (S n) with (n + 1)%nat by lia. cbv zeta. rewrite updates_plus.
    destruct IH as (Hd' & Hc' & Hdt' & Hxy & Hdx & Hdy & Hr & Hg).
    { intros j Hj. apply Hfree. lia. }
    destruct (projectiles.updates n p w) as [pn wn]. simpl in *.
    rewrite (update_straight _ _ Hc').
    pose proof (Projectile_update_step pn wn Hd') as H. cbv zeta in H.
    destruct (projectiles.Projectile_update pn wn) as [p' w']. simpl in *.
    destruct H as (Hx1 & Hy1 & Hdx1 & Hdy1 & Hr1 & Hc1 & Hdt1 & Hg1 & Hdn1).
    injection Hxy as Hx Hy.
    destruct (Hfree (Z.of_nat n + 1)) as [Hlt Hrange]; [lia |].
    unfold lets_through, cell_on_line in Hlt. simpl in Hlt.
    assert (Hcx : Projectile.x pn + Projectile.dx pn
                  = Projectile.x p + (Z.of_nat n + 1) * Projectile.dx p) by (rewrite Hx, Hdx; lia).
    assert (Hcy : Projectile.y pn + Projectile.dy pn
                  = Projectile.y p + (Z.of_nat n + 1) * Projectile.dy p) by (rewrite Hy, Hdy; lia).
    split_and!.
    + rewrite Hdn1, Hg, Hcx, Hcy, Hlt, Hr, Hdt'. simpl. apply Z.leb_gt. lia.
    + unfold flies_straight in *. by rewrite Hc1.
    + lia.
    + unfold cell_on_line. rewrite Hx1, Hy1, Hcx, Hcy. f_equal; f_equal; lia.
    + congruence.
    + congruence.
    + congruence.
    + congruence.
Qed.

(** The frame on which a straight projectile is done: the first [k] whose
    cell does not let it through or that reaches the range. *)
Lemma flight_ends_at (k : nat) (p : Projectile.t) (w : World) :
  flies_straight p = true → Projectile.done p = false →
  Projectile.distance_travelled p = 0 →
  (1 ≤ k)%nat →
  (∀ j, 1 ≤ j < Z.of_nat k → lets_through p (game_map w) j = true ∧ j < Projectile.range p) →
  lets_through p (game_map w) (Z.of_nat k) = false ∨ Projectile.range p ≤ Z.of_nat k →
  ∀ n : nat, Projectile.done (projectiles.updates n p w).1 = bool_decide (k ≤ n)%nat.
Proof.
  intros Hc Hd Hdt Hk Hfree Hstop n.
  destruct (decide (k ≤ n)%nat) as [Hle | Hgt].
  - rewrite bool_decide_eq_true_2 by done.
    replace n with ((k - 1) + 1 + (n - k))%nat by lia. rewrite !updates_plus.
    destruct (flight_in_progress (k - 1) p w Hc Hd Hdt)
      as (Hd' & Hc' & Hdt' & Hxy & Hdx & Hdy & Hr & Hg).
    { intros j Hj. apply Hfree. lia. }
    destruct (projectiles.updates (k - 1) p w) as [pk wk]. simpl in *.
    rewrite (update_straight _ _ Hc').
    pose proof (Projectile_update_step pk wk Hd') as H. cbv zeta in H.
    destruct (projectiles.Projectile_update pk wk) as [p' w']. simpl in *.
    destruct H as (_ & _ & _ & _ & _ & Hc1 & _ & _ & Hdn1).
    assert (Projectile.done p' = true) as Hdone.
    { rewrite Hdn1, Hg, Hr, Hdt'. injection Hxy as Hx Hy.
      replace (Z.of_nat (k - 1)) with (Z.of_nat k - 1) in * by lia.
      unfold lets_through, cell_on_line in Hstop. simpl in Hstop.
      replace (Projectile.x pk + Projectile.dx pk)
        with (Projectile.x p + Z.of_nat k * Projectile.dx p) by (rewrite Hx, Hdx; lia).
      replace (Projectile.y pk + Projectile.dy pk)
        with (Projectile.y p + Z.of_nat k * Projectile.dy p) by (rewrite Hy, Hdy; lia).
      destruct Hstop as [-> | Hrange]; [done |].
      apply orb_true_iff. right. apply Z.leb_le. lia. }
    rewrite updates_done; [done | unfold flies_straight in *; by rewrite Hc1 | done].
  - rewrite bool_decide_eq_false_2 by done.
    apply (flight_in_progress n p w Hc Hd Hdt).
    intros j Hj. apply Hfree. lia.
Qed.

(** C7 (amended).  A straight-line projectile with range R >= 1 whose
    first R cells are inside the map and walkable is not done after fewer
    than R update calls and is done from the R-th call on; if the k-th
    cell of its line, k <= R, is non-walkable or outside the map (the
    cells before it being clear), it is not done after fewer than k calls
    and done from the k-th call on: strictly earlier when k < R. *)
Theorem straight_projectile_done_on_frame_range (p : Projectile.t) (w : World) (R : nat) :
  flies_straight p = true → Projectile.done p = false →
  Projectile.distance_travelled p = 0 →
  Projectile.range p = Z.of_nat R → (1 ≤ R)%nat →
  ((∀ j, 1 ≤ j ≤ Z.of_nat R → lets_through p (game_map w) j = true) →
   ∀ n : nat, Projectile.done (projectiles.updates n p w).1 = bool_decide (R ≤ n)%nat)
  ∧ (∀ k : nat, (1 ≤ k ≤ R)%nat →
     (∀ j, 1 ≤ j < Z.of_nat k → lets_through p (game_map w) j = true) →
     lets_through p (game_map w) (Z.of_nat k) = false →
     ∀ n : nat, Projectile.done (projectiles.updates n p w).1 = bool_decide (k ≤ n)%nat).
Proof.
  intros Hc Hd Hdt Hr HR. split.
  - intros Hfree. apply flight_ends_at; try done.
    + intros j Hj. split; [apply Hfree |]; lia.
    + right. lia.
  - intros k Hk Hfree Hstop. apply flight_ends_at; try done; [lia | |by left].
    intros j Hj. split; [by apply Hfree | lia].
Qed.

Lemma straight_projectile_done_on_frame_range_witness :
  flies_straight dart = true ∧ Projectile.done dart = false
  ∧ Projectile.distance_travelled dart = 0 ∧ Projectile.range dart = 3
  ∧ Projectile.done (projectiles.updates 2 dart duel).1 = false
  ∧ Projectile.done (projectiles.updates 3 dart duel).1 = true
  ∧ lets_through dart (game_map duel_pillar) 2 = false
  ∧ Projectile.done (projectiles.updates 1 dart duel_pillar).1 = false
  ∧ Projectile.done (projectiles.updates 2 dart duel_pillar).1 = true.
Proof.
  destruct (straight_projectile_done_on_frame_range dart duel 3
              eq_refl eq_refl eq_refl eq_refl ltac:(lia)) as [Hopen _].
  destruct (straight_projectile_done_on_frame_range dart duel_pillar 3
              eq_refl eq_refl eq_refl eq_refl ltac:(lia)) as [_ Hwall].
  assert (∀ j, 1 ≤ j ≤ Z.of_nat 3 → lets_through dart (game_map duel) j = true) as Hfree.
  { intros j Hj. unfold lets_through, cell_on_line, in_bounds. simpl.
    rewrite andb_true_r. repeat (apply andb_true_intro; split); lia. }
  assert (∀ j, 1 ≤ j < Z.of_nat 2 → lets_through dart (game_map duel_pillar) j = true)
    as Hfree'.
  { intros j Hj. assert (j = 1) as -> by lia. reflexivity. }
  do 4 (split; [reflexivity |]).
  split; [exact (Hopen Hfree 2%nat) |].
  split; [exact (Hopen Hfree 3%nat) |].
  split; [reflexivity |].
  split; [exact (Hwall 2%nat ltac:(lia) Hfree' eq_refl 1%nat) |].
  exact (Hwall 2%nat ltac:(lia) Hfree' eq_refl 2%nat).
Defined.

(** C7, as stated, fails: the dart has range 3 and an open line, and it
    is done after 3 update calls, not after 4. *)
Lemma straight_projectile_done_before_range_plus_one :
  Projectile.range dart = 3
  ∧ forallb (lets_through dart (game_map duel)) [1; 2; 3; 4] = true
  ∧ Projectile.done (projectiles.updates 2 dart duel).1 = false
  ∧ Projectile.done (projectiles.updates 3 dart duel).1 = true.
Proof. vm_compute. done. Qed.

(** ** The expanding ring *)

Lemma untouched_trans (r : nat) (s1 s2 s3 : Projectile.t * World) :
  untouched r s1 s2 → untouched r s2 s3 → untouched r s1 s3.
Proof. intros [Hhp Hin] [Hhp' Hin']. split; [congruence | by rewrite Hin']. Qed.

Lemma untouched_then_struck (r : nat) (s1 s2 s3 : Projectile.t * World) :
  same_shooter s1 s2 → untouched r s1 s2 → struck_once r s2 s3 → struck_once r s1 s3.
Proof.
  intros (Ha & Hc & Hd & Hst) [Hhp Hin] (Hout & Hin' & Hhp' & Hown).
  split_and!; [by rewrite <- Hin | done | | by rewrite <- Ha, <- Hc].
  rewrite Hhp', Hhp. f_equal. by apply same_stage_dealt.
Qed.

Lemma struck_then_once (r : nat) (s1 s2 s3 : Projectile.t * World) :
  struck_once r s1 s2 → hit_at_most_once r s2 s3 → struck_once r s1 s3.
Proof.
  intros (Hout & Hin & Hhp & Hown) [_ [[Hhp' Hin'] | (Hout' & _)]]; [| done].
  split_and!; [done | by apply Hin' | congruence | done].
Qed.

Lemma actor_at_position (w : World) (cx cy : Z) (t : nat) :
  get_actor_at_location w cx cy = Some t → position w t = (cx, cy).
Proof.
  unfold get_actor_at_location. intros H. apply find_some in H as [_ H].
  by apply at_cell_true in H.
Qed.

Lemma exposed_struck (t : nat) (p : Projectile.t) (w : World) :
  exposed t p w → t ∉ Projectile.hit_actors p →
  struck p (position w t).1 (position w t).2 w = Some t.
Proof. intros (Hat & Hin & Hown) Hout. by apply struck_Some. Qed.

Lemma exposed_stretch (t : nat) (s s' : Projectile.t * World) :
  same_shooter s s' → exposed t s.1 s.2 → exposed t s'.1 s'.2.
Proof.
  intros (Ha & Hc & _ & Hst) (Hat & Hin & Hown).
  assert (position s'.2 t = position s.2 t) as Hpos.
  { destruct Hst as (_ & _ & He). unfold position.
    destruct (He t) as (-> & -> & _). done. }
  unfold exposed. rewrite Hpos, (same_stage_actor_at _ _ _ _ Hst), Ha, Hc.
  destruct Hst as (-> & _). done.
Qed.

Lemma offset_from_owner_stretch (t : nat) (s s' : Projectile.t * World) :
  same_shooter s s' → offset_from_owner t s'.1 s'.2 = offset_from_owner t s.1 s.2.
Proof.
  intros (Ha & _ & _ & (_ & _ & He)). unfold offset_from_owner, position. rewrite Ha.
  destruct (He t) as (-> & -> & _), (He (Projectile.actor s.1)) as (-> & -> & _). done.
Qed.

Lemma ring_round_once (r : nat) (s : Projectile.t * World) (o : Z * Z) :
  hit_at_most_once r s (projectiles.ring_round s o).
Proof. destruct s as [p w]. apply check_collision_once. Qed.

(** A round at another offset than the actor's leaves the actor untouched. *)
Lemma ring_round_off (t : nat) (s : Projectile.t * World) (o : Z * Z) :
  o ≠ offset_from_owner t s.1 s.2 → untouched t s (projectiles.ring_round s o).
Proof.
  destruct s as [p w]. intros Hne. apply check_collision_off. intros Hs.
  apply struck_Some in Hs as (_ & Hat & _). apply actor_at_position in Hat.
  apply Hne. unfold offset_from_owner, position in *. simpl in *.
  injection Hat as -> ->. destruct o as [ox oy]. simpl. f_equal; lia.
Qed.

(** A round at the offset of an exposed actor not yet hit strikes it. *)
Lemma ring_round_on (t : nat) (s : Projectile.t * World) :
  exposed t s.1 s.2 → t ∉ Projectile.hit_actors s.1 →
  struck_once t s (projectiles.ring_round s (offset_from_owner t s.1 s.2)).
Proof.
  destruct s as [p w]. intros Hex Hout. apply check_collision_on.
  pose proof (exposed_struck t p w Hex Hout) as Hs.
  unfold offset_from_owner, position in *. simpl in *.
  replace (x (heap w (Projectile.actor p))
           + (x (heap w t) - x (heap w (Projectile.actor p)))) with (x (heap w t)) by lia.
  replace (y (heap w (Projectile.actor p))
           + (y (heap w t) - y (heap w (Projectile.actor p)))) with (y (heap w t)) by lia.
  done.
Qed.

Lemma rounds_miss (t : nat) (offs : list (Z * Z)) (s : Projectile.t * World) :
  offset_from_owner t s.1 s.2 ∉ offs →
  untouched t s (fold_left projectiles.ring_round offs s).
Proof.
  revert s. induction offs as [|o offs IH]; intros s Hnot; simpl; [done |].
  apply not_elem_of_cons in Hnot as [Hne Hnot].
  eapply untouched_trans; [apply ring_round_off; done |].
  apply IH. rewrite (offset_from_owner_stretch t s); [done |].
  apply (ring_round_once t).
Qed.

Lemma rounds_hit (t : nat) (offs : list (Z * Z)) (s : Projectile.t * World) :
  exposed t s.1 s.2 → t ∉ Projectile.hit_actors s.1 →
  offset_from_owner t s.1 s.2 ∈ offs →
  struck_once t s (fold_left projectiles.ring_round offs s).
Proof.
  revert s. induction offs as [|o offs IH]; intros s Hex Hout Hin; simpl.
  - by apply elem_of_nil in Hin.
  - destruct (decide (o = offset_from_owner t s.1 s.2)) as [-> | Hne].
    + eapply struck_then_once; [by apply ring_round_on |].
      apply fold_hit_at_most_once. intros s' o'. apply ring_round_once.
    + apply elem_of_cons in Hin as [Heq | Hin]; [congruence |].
      pose proof (ring_round_once t s o) as [Hsh _].
      pose proof (ring_round_off t s o Hne) as Hun.
      eapply untouched_then_struck; [exact Hsh | exact Hun |].
      apply IH.
      * by apply (exposed_stretch t s).
      * destruct Hun as [_ Hiff]. by rewrite Hiff.
      * by rewrite (offset_from_owner_stretch t s).
Qed.

(** A ring that does not pass over the actor leaves it untouched. *)
Lemma check_around_actor_miss (t : nat) (offs : list (Z * Z)) (p : Projectile.t)
    (w : World) :
  offset_from_owner t p w ∉ offs →
  untouched t (p, w) (projectiles.check_around_actor offs p w).
Proof. apply (rounds_miss t offs (p, w)). Qed.

(** A ring that passes over an exposed actor not yet hit strikes it once,
    however often its cell comes up. *)
Lemma check_around_actor_hit (t : nat) (offs : list (Z * Z)) (p : Projectile.t)
    (w : World) :
  exposed t p w → t ∉ Projectile.hit_actors p →
  offset_from_owner t p w ∈ offs →
  struck_once t (p, w) (projectiles.check_around_actor offs p w).
Proof. apply (rounds_hit t offs (p, w)). Qed.

(** The offsets of the ring of radius [r] are the cells at Chebyshev
    distance [r] from the center. *)
Lemma ring_offsets_chebyshev (r : Z) (o : Z * Z) :
  o ∈ projectiles.ring_offsets r ↔ Z.max (Z.abs o.1) (Z.abs o.2) = r.
Proof.
  unfold projectiles.ring_offsets, range_. destruct o as [ox oy]. simpl.
  rewrite list_elem_of_bind. split.
  - intros (ax & Hy & Hx). apply elem_of_seqZ in Hx.
    apply list_elem_of_bind in Hy as (ay & Hin & Hy). apply elem_of_seqZ in Hy.
    destruct ((Z.abs ax =? r) || (Z.abs ay =? r)) eqn:E;
      [| by apply elem_of_nil in Hin].
    apply list_elem_of_singleton in Hin as [= -> ->].
    apply orb_true_iff in E as [E | E]; apply Z.eqb_eq in E; lia.
  - intros Hmax. exists ox. split; [| apply elem_of_seqZ; lia].
    apply list_elem_of_bind. exists oy. split; [| apply elem_of_seqZ; lia].
    assert ((Z.abs ox =? r) || (Z.abs oy =? r) = true) as ->.
    { apply orb_true_iff. rewrite !Z.eqb_eq. lia. }
    apply list_elem_of_here.
Qed.

Lemma rounds_flight (offs : list (Z * Z)) (s : Projectile.t * World) :
  let s' := fold_left projectiles.ring_round offs s in
  Projectile.cls s'.1 = Projectile.cls s.1
  ∧ Projectile.done s'.1 = Projectile.done s.1
  ∧ Projectile.range s'.1 = Projectile.range s.1.
Proof.
  revert s. induction offs as [|o offs IH]; intros s; simpl; [done |].
  destruct (IH (projectiles.ring_round s o)) as (-> & -> & ->).
  destruct s as [p w]. unfold projectiles.ring_round. simpl.
  destruct (check_collision_flight p (x (heap w (Projectile.actor p)) + o.1)
              (y (heap w (Projectile.actor p)) + o.2) w)
    as (_ & _ & _ & _ & Hr & Hc & _ & Hd & _).
  done.
Qed.

(** A frame of a shockwave that has not reached its range: the radius
    goes up by one and the ring of the new radius is checked. *)
Lemma ShockwaveProjectile_update_expands (k : Z) (p : Projectile.t) (w : World) :
  Projectile.cls p = ShockwaveProjectile_cls k → Projectile.done p = false →
  k + 1 ≤ Projectile.range p →
  projectiles.update p w
  = projectiles.check_around_actor (projectiles.ring_offsets (k + 1))
      (projectiles.set_cls (ShockwaveProjectile_cls (k + 1)) p) w.
Proof.
  intros Hc Hd Hr. unfold projectiles.update. rewrite Hc.
  unfold projectiles.ShockwaveProjectile_update. rewrite Hd. cbv zeta.
  change (Projectile.range (projectiles.set_cls _ p)) with (Projectile.range p).
  by apply Z.ltb_ge in Hr as ->.
Qed.

(** The frame after the last ring: the shockwave is done and checks
    nothing. *)
Lemma ShockwaveProjectile_update_ends (k : Z) (p : Projectile.t) (w : World) :
  Projectile.cls p = ShockwaveProjectile_cls k → Projectile.done p = false →
  Projectile.range p < k + 1 →
  projectiles.update p w
  = (projectiles.set_done true (projectiles.set_cls (ShockwaveProjectile_cls (k + 1)) p), w).
Proof.
  intros Hc Hd Hr. unfold projectiles.update. rewrite Hc.
  unfold projectiles.ShockwaveProjectile_update. rewrite Hd. cbv zeta.
  change (Projectile.range (projectiles.set_cls _ p)) with (Projectile.range p).
  by apply Z.ltb_lt in Hr as ->.
Qed.

Lemma ShockwaveProjectile_update_done (k : Z) (n : nat) (p : Projectile.t) (w : World) :
  Projectile.cls p = ShockwaveProjectile_cls k → Projectile.done p = true →
  projectiles.updates n p w = (p, w).
Proof.
  intros Hc Hd. induction n as [|n IH]; simpl; [done |].
  unfold projectiles.update. rewrite Hc.
  unfold projectiles.ShockwaveProjectile_update. by rewrite Hd.
Qed.

Lemma updates_S (n : nat) (p : Projectile.t) (w : World) :
  projectiles.updates (S n) p w
  = projectiles.update (projectiles.updates n p w).1 (projectiles.updates n p w).2.
Proof.
  replace (S n) with (n + 1)%nat by lia. rewrite updates_plus. simpl.
  by destruct (projectiles.update _ _).
Qed.

Lemma chebyshev_offset (t : nat) (p : Projectile.t) (w : World) (k : Z) :
  offset_from_owner t p w ∈ projectiles.ring_offsets k
  ↔ chebyshev (position w t) (position w (Projectile.actor p)) = k.
Proof. by rewrite ring_offsets_chebyshev. Qed.

(** The life of a shockwave of range [R], seen from an exposed actor [t]
    at Chebyshev distance [d] of the owner, 1 <= d: after [n <= R] frames
    the radius is [n], the shockwave is not done, and [t] is untouched if
    [n < d], struck once if [d <= n]. *)
Lemma shockwave_expanding (t : nat) (R d : Z) (p : Projectile.t) (w : World) (n : nat) :
  Projectile.cls p = ShockwaveProjectile_cls 0 → Projectile.done p = false →
  Projectile.range p = R →
  exposed t p w → t ∉ Projectile.hit_actors p →
  chebyshev (position w t) (position w (Projectile.actor p)) = d → 1 ≤ d →
  Z.of_nat n ≤ R →
  let s := projectiles.updates n p w in
  Projectile.cls s.1 = ShockwaveProjectile_cls (Z.of_nat n)
  ∧ Projectile.done s.1 = false ∧ Projectile.range s.1 = R
  ∧ same_shooter (p, w) s
  ∧ (if Z.of_nat n <? d then untouched t (p, w) s else struck_once t (p, w) s).
Proof.
  intros Hc Hd Hr Hex Hout Hdist Hd1. cbv zeta. induction n as [|n IH]; intros Hn.
  - assert ((Z.of_nat 0 <? d) = true) as -> by (apply Z.ltb_lt; lia).
    simpl. split_and!; [done | done | done | apply same_shooter_refl | by split].
  - destruct IH as (Hc' & Hd' & Hr' & Hsh & Hstat); [lia |].
    rewrite updates_S.
    destruct (projectiles.updates n p w) as [pn wn]. simpl in Hc', Hd', Hr', Hsh, Hstat |- *.
    rewrite (ShockwaveProjectile_update_expands (Z.of_nat n)) by (done || lia).
    set (q := projectiles.set_cls (ShockwaveProjectile_cls (Z.of_nat n + 1)) pn).
    assert (same_shooter (p, w) (q, wn)) as Hshq.
    { destruct Hsh as (? & ? & ? & ?). by split_and!. }
    assert (hit_at_most_once t (pn, wn) (q, wn)) as Hq
      by (apply keeps_record_once; by repeat split).
    pose proof (check_around_actor_once t (projectiles.ring_offsets (Z.of_nat n + 1)) q wn)
      as Hframe.
    destruct (rounds_flight (projectiles.ring_offsets (Z.of_nat n + 1)) (q, wn))
      as (Hc2 & Hd2 & Hr2).
    fold (projectiles.check_around_actor (projectiles.ring_offsets (Z.of_nat n + 1)) q wn)
      in Hc2, Hd2, Hr2.
    replace (Z.of_nat (S n)) with (Z.of_nat n + 1) by lia.
    split_and!.
    + by rewrite Hc2.
    + by rewrite Hd2.
    + by rewrite Hr2.
    + eapply same_shooter_trans; [exact Hshq | apply Hframe].
    + assert (offset_from_owner t q wn = offset_from_owner t p w) as Hoff
        by apply (offset_from_owner_stretch t (p, w) (q, wn) Hshq).
      destruct (Z.of_nat n <? d) eqn:Hnd.
      * apply Z.ltb_lt in Hnd.
        assert (untouched t (p, w) (q, wn)) as Hun.
        { destruct Hstat as [? ?]. by split. }
        destruct (Z.of_nat n + 1 <? d) eqn:Hnd'.
        -- eapply untouched_trans; [exact Hun |].
           apply check_around_actor_miss. rewrite Hoff, chebyshev_offset.
           apply Z.ltb_lt in Hnd'. lia.
        -- apply Z.ltb_ge in Hnd'.
           eapply untouched_then_struck; [exact Hshq | exact Hun |].
           apply check_around_actor_hit.
           ++ by apply (exposed_stretch t (p, w) (q, wn)).
           ++ destruct Hun as [_ Hiff]. by rewrite Hiff.
           ++ rewrite Hoff, chebyshev_offset. lia.
      * apply Z.ltb_ge in Hnd.
        assert ((Z.of_nat n + 1 <? d) = false) as -> by (apply Z.ltb_ge; lia).
        eapply struck_then_once; [exact Hstat |].
        eapply hit_at_most_once_trans; [exact Hq | exact Hframe].
Qed.

Lemma shockwave_radius (R : Z) (p : Projectile.t) (w : World) (n : nat) :
  Projectile.cls p = ShockwaveProjectile_cls 0 → Projectile.done p = false →
  Projectile.range p = R → Z.of_nat n ≤ R →
  let s := projectiles.updates n p w in
  Projectile.cls s.1 = ShockwaveProjectile_cls (Z.of_nat n)
  ∧ Projectile.done s.1 = false ∧ Projectile.range s.1 = R.
Proof.
  intros Hc Hd Hr. cbv zeta. induction n as [|n IH]; intros Hn; [done |].
  destruct IH as (Hc' & Hd' & Hr'); [lia |].
  rewrite updates_S.
  destruct (projectiles.updates n p w) as [pn wn]. simpl in Hc', Hd', Hr' |- *.
  rewrite (ShockwaveProjectile_update_expands (Z.of_nat n)) by (done || lia).
  destruct (rounds_flight (projectiles.ring_offsets (Z.of_nat n + 1))
              (projectiles.set_cls (ShockwaveProjectile_cls (Z.of_nat n + 1)) pn, wn))
    as (Hc2 & Hd2 & Hr2).
  unfold projectiles.check_around_actor.
  replace (Z.of_nat (S n)) with (Z.of_nat n + 1) by lia.
  by rewrite Hc2, Hd2, Hr2.
Qed.

(** From frame R + 1 on the shockwave is done, and the world is the one
    the last ring left. *)
Lemma shockwave_done_after (R : nat) (p : Projectile.t) (w : World) (n : nat) :
  Projectile.cls p = ShockwaveProjectile_cls 0 → Projectile.done p = false →
  Projectile.range p = Z.of_nat R → (R < n)%nat →
  projectiles.updates n p w
  = (projectiles.set_done true
       (projectiles.set_cls (ShockwaveProjectile_cls (Z.of_nat R + 1))
          (projectiles.updates R p w).1),
     (projectiles.updates R p w).2).
Proof.
  intros Hc Hd Hr Hn.
  destruct (shockwave_radius (Z.of_nat R) p w R Hc Hd Hr) as (Hc' & Hd' & Hr'); [lia |].
  replace n with (R + 1 + (n - R - 1))%nat by lia.
  rewrite updates_plus. replace (R + 1)%nat with (S R) by lia. rewrite updates_S.
  rewrite (ShockwaveProjectile_update_ends (Z.of_nat R)) by (done || lia).
  by apply (ShockwaveProjectile_update_done (Z.of_nat R + 1)).
Qed.

(** C8.  A shockwave of range 4 spawned by an owner on (10,10): each of
    its first four updates raises the radius by one and checks the cells
    of the ring of that radius, which are the cells at that Chebyshev
    distance; it is not done after 4 updates and done after 5; an actor
    standing at Chebyshev distance 2 is struck exactly once, by the second
    update: it is outside the hit set before and inside from then on, and
    its hp is lowered once, by max(0, damage - defense), in that update
    and in no other. *)
Theorem shockwave_range_4_hits_once (w : World) (owner t : nat) (dmg : Z) :
  position w owner = (10, 10) →
  chebyshev (position w t) (10, 10) = 2 →
  get_actor_at_location w (position w t).1 (position w t).2 = Some t →
  in_bounds (game_map w) (position w t).1 (position w t).2 = true →
  let p := projectiles.ShockwaveProjectile_init w owner 4 dmg in
  (∀ n : nat, (n < 4)%nat →
     let s := projectiles.updates n p w in
     Projectile.cls s.1 = ShockwaveProjectile_cls (Z.of_nat n)
     ∧ projectiles.update s.1 s.2
       = projectiles.check_around_actor (projectiles.ring_offsets (Z.of_nat n + 1))
           (projectiles.set_cls (ShockwaveProjectile_cls (Z.of_nat n + 1)) s.1) s.2)
  ∧ (∀ k o, o ∈ projectiles.ring_offsets k ↔ Z.max (Z.abs o.1) (Z.abs o.2) = k)
  ∧ Projectile.done (projectiles.updates 4 p w).1 = false
  ∧ Projectile.done (projectiles.updates 5 p w).1 = true
  ∧ (∀ n : nat, hp_of (projectiles.updates n p w).2 t
                = if (n <? 2)%nat then hp_of w t
                  else hp_of w t - Z.max 0 (dmg - defense (heap w t)))
  ∧ (∀ n : nat, t ∈ Projectile.hit_actors (projectiles.updates n p w).1 ↔ (2 ≤ n)%nat)
  ∧ struck_once t (p, w) (projectiles.updates 5 p w).
Proof.
  intros Hown Hdist Hat Hin p.
  assert (Hc : Projectile.cls p = ShockwaveProjectile_cls 0) by done.
  assert (Hd : Projectile.done p = false) by done.
  assert (Hr : Projectile.range p = Z.of_nat 4) by done.
  assert (Hex : exposed t p w).
  { split_and!; [done | done |]. intros [-> _]. simpl in Hdist.
    rewrite Hown in Hdist. unfold chebyshev in Hdist. simpl in Hdist. lia. }
  assert (Hout : t ∉ Projectile.hit_actors p) by (simpl; apply not_elem_of_empty).
  assert (Hdist' : chebyshev (position w t) (position w (Projectile.actor p)) = 2)
    by (simpl; by rewrite Hown).
  assert (Hdealt : dealt p w t = Z.max 0 (dmg - defense (heap w t))) by done.
  pose proof (λ n, shockwave_expanding t (Z.of_nat 4) 2 p w n Hc Hd Hr Hex Hout Hdist'
                     ltac:(lia)) as Hlife.
  cbv zeta in Hlife.
  assert (Hend : ∀ n, (4 < n)%nat →
            projectiles.updates n p w
            = (projectiles.set_done true
                 (projectiles.set_cls (ShockwaveProjectile_cls (Z.of_nat 4 + 1))
                    (projectiles.updates 4 p w).1),
               (projectiles.updates 4 p w).2))
    by (intros n Hn; by apply shockwave_done_after).
  destruct (Hlife 4%nat) as (_ & Hd4 & _ & _ & Hst4); [lia |].
  change (Z.of_nat 4 <? 2) with false in Hst4. cbv iota in Hst4.
  assert (Hstat : ∀ n : nat,
            if (n <? 2)%nat then untouched t (p, w) (projectiles.updates n p w)
            else struck_once t (p, w) (projectiles.updates n p w)).
  { intros n. destruct (decide (n ≤ 4)%nat) as [Hle | Hgt].
    - destruct (Hlife n) as (_ & _ & _ & _ & Hst); [lia |].
      destruct (Nat.ltb_spec n 2) as [Hlt | Hge].
      + assert ((Z.of_nat n <? 2) = true) as Hb by (apply Z.ltb_lt; lia).
        by rewrite Hb in Hst.
      + assert ((Z.of_nat n <? 2) = false) as Hb by (apply Z.ltb_ge; lia).
        by rewrite Hb in Hst.
    - destruct (Nat.ltb_spec n 2) as [Hlt | Hge]; [lia |].
      rewrite Hend by lia. revert Hst4.
      generalize (projectiles.updates 4 p w). intros [p4 w4] (? & ? & ? & ?).
      by split_and!. }
  split_and!.
  - intros n Hn. cbv zeta. destruct (Hlife n) as (Hcn & Hdn & Hrn & _); [lia |].
    split; [done |].
    apply (ShockwaveProjectile_update_expands (Z.of_nat n)); [done | done | lia].
  - intros k o. apply ring_offsets_chebyshev.
  - exact Hd4.
  - by rewrite Hend by lia.
  - intros n. specialize (Hstat n). revert Hstat.
    generalize (projectiles.updates n p w). intros [pn wn] Hstat.
    destruct (n <? 2)%nat.
    + by destruct Hstat as [Hhp _].
    + destruct Hstat as (_ & _ & Hhp & _). cbn [fst snd] in Hhp |- *.
      by rewrite Hhp, Hdealt.
  - intros n. specialize (Hstat n). revert Hstat.
    generalize (projectiles.updates n p w). intros [pn wn] Hstat.
    destruct (Nat.ltb_spec n 2) as [Hlt | Hge].
    + destruct Hstat as [_ Hiff]. cbn [fst snd] in Hiff |- *.
      rewrite Hiff. split; [done | lia].
    + by destruct Hstat as (_ & ? & _).
  - apply (Hstat 5%nat).
Qed.

Lemma shockwave_range_4_hits_once_witness :
  position lair 1 = (10, 10)
  ∧ chebyshev (position lair 0) (10, 10) = 2
  ∧ get_actor_at_location lair 12 11 = Some 0%nat
  ∧ in_bounds (game_map lair) 12 11 = true
  ∧ Projectile.done
      (projectiles.updates 5 (projectiles.ShockwaveProjectile_init lair 1 4 16) lair).1
    = true
  ∧ hp_of (projectiles.updates 1 (projectiles.ShockwaveProjectile_init lair 1 4 16) lair).2 0
    = 30
  ∧ hp_of (projectiles.updates 5 (projectiles.ShockwaveProjectile_init lair 1 4 16) lair).2 0
    = 30 - 15.
Proof.
  do 4 (split; [reflexivity |]).
  destruct (shockwave_range_4_hits_once lair 1 0 16 eq_refl eq_refl eq_refl eq_refl)
    as (_ & _ & _ & Hdone & Hhp & _).
  split; [exact Hdone |].
  split; [exact (Hhp 1%nat) | exact (Hhp 5%nat)].
Defined.

(** ** The pathfinder's cost grid *)














(** ** The scheduler *)

Lemma scan_actors_found (l : list nat) (e : engine.Engine) :
  engine.scan_actors l e
  = if existsb (engine.visible_enemy (engine.world e)) l
    then Some (enter_combat e) else None.
Proof.
  induction l as [|entity l IH]; simpl; [done |].
  destruct (engine.visible_enemy (engine.world e) entity); simpl; [| done].
  unfold enter_combat. by destruct (engine.game_state e).
Qed.

(** The scan stops at the first visible enemy: what comes after it in the
    list plays no part. *)
Lemma scan_actors_short_circuit (l1 l2 : list nat) (h : nat) (e : engine.Engine) :
  engine.visible_enemy (engine.world e) h = true →
  engine.scan_actors (l1 ++ h :: l2) e = engine.scan_actors (l1 ++ [h]) e.
Proof.
  intros Hh. induction l1 as [|entity l1 IH]; simpl.
  - by rewrite Hh.
  - by rewrite IH.
Qed.

(** The two ways through [update_realtime]. *)
Lemma update_realtime_cases (set_order : list nat → list nat)
    (ai_perform : nat → M unit) (now : Z) (e : engine.Engine) :
  engine.update_realtime set_order ai_perform now e
  = if has_visible_enemy (engine.world e) then enter_combat e
    else ambient_phase set_order ai_perform now (leave_combat e).
Proof.
  unfold engine.update_realtime, has_visible_enemy. rewrite scan_actors_found.
  destruct (existsb _ _); [done |].
  unfold ambient_phase, leave_combat. by destruct (engine.game_state e).
Qed.

Lemma ambient_phase_game_state (set_order : list nat → list nat)
    (ai_perform : nat → M unit) (now : Z) (e : engine.Engine) :
  engine.game_state (ambient_phase set_order ai_perform now e) = engine.game_state e.
Proof. unfold ambient_phase. by destruct (_ <=? _). Qed.

Lemma has_visible_enemy_iff (w : World) :
  has_visible_enemy w = true
  ↔ ∃ r, r ∈ actors w ∧ r ≠ player w ∧ ai (heap w r) ≠ None
         ∧ visible (game_map w) (x (heap w r)) (y (heap w r)) = true.
Proof.
  unfold has_visible_enemy. rewrite existsb_exists. unfold engine.visible_enemy.
  split.
  - intros (r & Hin & Hv). exists r. apply list_elem_of_In in Hin.
    apply andb_true_iff in Hv as [Hv Hvis]. apply andb_true_iff in Hv as [Hne Hai].
    apply negb_true_iff, Nat.eqb_neq in Hne.
    split_and!; [done | done | | done]. by destruct (ai (heap w r)).
  - intros (r & Hin & Hne & Hai & Hvis). exists r. split; [by apply list_elem_of_In |].
    apply Nat.eqb_neq in Hne. rewrite Hne, Hvis.
    by destruct (ai (heap w r)).
Qed.

(** C6.  After a call of [update_realtime]: if some non-player actor with
    a strategy stands on a visible tile, the mode is TurnBased, the call
    having logged "Enemy spotted!" if the mode was Exploration and done
    nothing at all if it was TurnBased; if there is no such actor, the mode
    is Exploration, "Combat ended." having been logged on leaving
    TurnBased before the rest of the call runs; and the scan stops at the
    first visible enemy it finds. *)
Theorem update_realtime_mode (set_order : list nat → list nat)
    (ai_perform : nat → M unit) (now : Z) (e : engine.Engine) :
  let e' := engine.update_realtime set_order ai_perform now e in
  (has_visible_enemy (engine.world e) = true
   ↔ ∃ r, r ∈ actors (engine.world e) ∧ r ≠ player (engine.world e)
          ∧ ai (heap (engine.world e) r) ≠ None
          ∧ visible (game_map (engine.world e)) (x (heap (engine.world e) r))
                    (y (heap (engine.world e) r)) = true)
  ∧ (has_visible_enemy (engine.world e) = true →
     engine.game_state e' = engine.TURN_BASED
     ∧ (engine.game_state e = engine.EXPLORATION →
        message_log (engine.world e') = message_log (engine.world e) ++ [enemy_spotted])
     ∧ (engine.game_state e = engine.TURN_BASED → e' = e))
  ∧ (has_visible_enemy (engine.world e) = false →
     engine.game_state e' = engine.EXPLORATION
     ∧ e' = ambient_phase set_order ai_perform now (leave_combat e)
     ∧ (engine.game_state e = engine.TURN_BASED →
        message_log (engine.world (leave_combat e))
        = message_log (engine.world e) ++ [combat_ended])
     ∧ (engine.game_state e = engine.EXPLORATION → leave_combat e = e))
  ∧ (∀ l1 h l2, actors (engine.world e) = l1 ++ h :: l2 →
       engine.visible_enemy (engine.world e) h = true →
       engine.scan_actors (actors (engine.world e)) e = engine.scan_actors (l1 ++ [h]) e).
Proof.
  cbv zeta. rewrite update_realtime_cases. split_and!.
  - apply has_visible_enemy_iff.
  - intros ->. unfold enter_combat.
    destruct (engine.game_state e) eqn:Hg; split_and!; done.
  - intros ->. rewrite ambient_phase_game_state. unfold leave_combat.
    destruct (engine.game_state e) eqn:Hg; split_and!; done.
  - intros l1 h l2 -> Hh. by apply scan_actors_short_circuit.
Qed.

(** The skirmish stays in TurnBased mode, untouched; the lull goes back to
    Exploration and logs it. *)
Lemma update_realtime_mode_witness :
  has_visible_enemy (engine.world skirmish) = true
  ∧ engine.update_realtime id (λ _, mret tt) 5 skirmish = skirmish
  ∧ has_visible_enemy (engine.world lull) = false
  ∧ engine.game_state (engine.update_realtime id (λ _, mret tt) 5 lull)
    = engine.EXPLORATION
  ∧ message_log (engine.world (leave_combat lull)) = [combat_ended].
Proof.
  destruct (update_realtime_mode id (λ _, mret tt) 5 skirmish) as (_ & Hin & _).
  destruct (update_realtime_mode id (λ _, mret tt) 5 lull) as (_ & _ & Hout & _).
  destruct (Hin eq_refl) as (_ & _ & Hsame).
  destruct (Hout eq_refl) as (Hmode & _ & Hlog & _).
  split; [reflexivity |]. split; [exact (Hsame eq_refl) |].
  split; [reflexivity |]. split; [exact Hmode | exact (Hlog eq_refl)].
Defined.

(** With an enemy in view the call neither runs the enemy turns nor
    advances the projectiles: it leaves the list of active projectiles as
    it was. *)
Lemma update_realtime_returns_in_combat (set_order : list nat → list nat)
    (ai_perform : nat → M unit) (now : Z) (e : engine.Engine) :
  has_visible_enemy (engine.world e) = true →
  active_projectiles (engine.world (engine.update_realtime set_order ai_perform now e))
  = active_projectiles (engine.world e).
Proof.
  intros Hv. rewrite update_realtime_cases, Hv. unfold enter_combat.
  by destruct (engine.game_state e).
Qed.

(** Without an enemy in view the call ends with [update_projectiles]. *)
Lemma update_realtime_advances_when_calm (set_order : list nat → list nat)
    (ai_perform : nat → M unit) (now : Z) (e : engine.Engine) :
  has_visible_enemy (engine.world e) = false →
  ∃ w, engine.world (engine.update_realtime set_order ai_perform now e)
       = engine.update_projectiles w.
Proof.
  intros Hv. rewrite update_realtime_cases, Hv. unfold ambient_phase.
  by eexists.
Qed.

(** The call that C5 fails on: in the skirmish the orc is in view, so
    [update_realtime] returns from inside the scan and the dart in the air
    is not advanced, whatever the clock and the enemy turns; a call of
    [update_projectiles] would have moved it one cell. *)
Theorem update_realtime_skips_projectiles_in_combat (set_order : list nat → list nat)
    (ai_perform : nat → M unit) (now : Z) :
  let e' := engine.update_realtime set_order ai_perform now skirmish in
  has_visible_enemy (engine.world skirmish) = true
  ∧ active_projectiles (engine.world e') = [dart]
  ∧ Projectile.distance_travelled <$> active_projectiles (engine.world e') = [0]
  ∧ Projectile.distance_travelled
      <$> active_projectiles (engine.update_projectiles (engine.world skirmish)) = [1].
Proof.
  cbv zeta.
  assert (has_visible_enemy (engine.world skirmish) = true) as Hv by reflexivity.
  rewrite (update_realtime_returns_in_combat _ _ _ _ Hv).
  split_and!; reflexivity.
Qed.

(** ** The life of a projectile, seen from one actor *)

Lemma updates_once (t : nat) (n : nat) (p : Projectile.t) (w : World) :
  hit_at_most_once t (p, w) (projectiles.updates n p w).
Proof.
  induction n as [|n IH]; [apply hit_at_most_once_refl |].
  rewrite updates_S. eapply hit_at_most_once_trans; [exact IH |].
  destruct (projectiles.updates n p w) as [pn wn]. apply update_once.
Qed.

Lemma updates_once_from (t : nat) (n m : nat) (p : Projectile.t) (w : World) :
  (n ≤ m)%nat →
  hit_at_most_once t (projectiles.updates n p w) (projectiles.updates m p w).
Proof.
  intros Hnm. replace m with (n + (m - n))%nat by lia. rewrite updates_plus.
  destruct (projectiles.updates n p w) as [pn wn]. apply updates_once.
Qed.

(** Frames that each leave the actor untouched leave it untouched
    together. *)
Lemma untouched_frames (t : nat) (p : Projectile.t) (w : World) (m : nat) :
  (∀ n, (n < m)%nat →
     untouched t (projectiles.updates n p w) (projectiles.updates (S n) p w)) →
  untouched t (p, w) (projectiles.updates m p w).
Proof.
  induction m as [|m IH]; intros Hfr; [by split |].
  eapply untouched_trans; [apply IH; intros n Hn; apply Hfr; lia |].
  apply Hfr. lia.
Qed.

(** If the first [d - 1] frames leave the actor untouched and frame [d]
    strikes it, the actor is struck on frame [d] and on no other. *)
Lemma struck_on_frame_intro (t : nat) (d : nat) (p : Projectile.t) (w : World) :
  (1 ≤ d)%nat →
  (∀ n, (S n < d)%nat →
     untouched t (projectiles.updates n p w) (projectiles.updates (S n) p w)) →
  struck_once t (projectiles.updates (d - 1) p w) (projectiles.updates d p w) →
  struck_on_frame t (Z.of_nat d) p w.
Proof.
  intros Hd Hbefore Hat n.
  assert (∀ m, (m < d)%nat → untouched t (p, w) (projectiles.updates m p w)) as Hun.
  { intros m Hm. apply untouched_frames. intros k Hk. apply Hbefore. lia. }
  assert (struck_once t (p, w) (projectiles.updates d p w)) as Hst.
  { eapply untouched_then_struck; [| apply (Hun (d - 1)%nat); lia | exact Hat].
    apply (updates_once t). }
  destruct (Z.of_nat n <? Z.of_nat d) eqn:Hnd.
  - apply Z.ltb_lt in Hnd. destruct (Hun n) as [Hhp Hiff]; [lia |]. split; [done |].
    destruct Hst as (Hout & _). simpl in *. rewrite Hiff. split; [done | lia].
  - apply Z.ltb_ge in Hnd.
    assert (struck_once t (p, w) (projectiles.updates n p w)) as (_ & Hin & Hhp & _).
    { eapply struck_then_once; [exact Hst |]. apply updates_once_from. lia. }
    split; [done |]. split; [lia | done].
Qed.

Lemma never_struck_intro (t : nat) (p : Projectile.t) (w : World) :
  t ∉ Projectile.hit_actors p →
  (∀ n, untouched t (projectiles.updates n p w) (projectiles.updates (S n) p w)) →
  never_struck t p w.
Proof.
  intros Hout Hfr n. destruct (untouched_frames t p w n) as [Hhp Hiff].
  { intros k _. apply Hfr. }
  split; [done |]. by rewrite Hiff.
Qed.

Lemma position_stretch (t : nat) (s s' : Projectile.t * World) :
  same_shooter s s' → position s'.2 t = position s.2 t.
Proof.
  intros (_ & _ & _ & (_ & _ & He)). unfold position.
  by destruct (He t) as (-> & -> & _).
Qed.

(** ** Collision checks over a list of cells *)

Lemma cells_once (r : nat) (cells : list (Z * Z)) (s : Projectile.t * World) :
  hit_at_most_once r s
    (fold_left (λ (s : Projectile.t * World) (c : Z * Z),
                  (projectiles.check_collision s.1 c.1 c.2 s.2).1) cells s).
Proof.
  apply fold_hit_at_most_once. intros [p w] c. apply check_collision_once.
Qed.

Lemma cells_miss (t : nat) (cells : list (Z * Z)) (s : Projectile.t * World) :
  position s.2 t ∉ cells →
  untouched t s
    (fold_left (λ (s : Projectile.t * World) (c : Z * Z),
                  (projectiles.check_collision s.1 c.1 c.2 s.2).1) cells s).
Proof.
  revert s. induction cells as [|c cells IH]; intros s Hnot; simpl; [done |].
  apply not_elem_of_cons in Hnot as [Hne Hnot].
  eapply untouched_trans; [| apply IH].
  - destruct s as [p w]. apply check_collision_off. intros Hs.
    apply struck_Some in Hs as (_ & Hat & _). apply actor_at_position in Hat.
    cbn [fst snd] in *. rewrite Hat in Hne. by destruct c.
  - rewrite (position_stretch t s); [done |].
    destruct s as [p w]. apply check_collision_shooter.
Qed.

Lemma cells_hit (t : nat) (cells : list (Z * Z)) (s : Projectile.t * World) :
  exposed t s.1 s.2 → t ∉ Projectile.hit_actors s.1 →
  position s.2 t ∈ cells →
  struck_once t s
    (fold_left (λ (s : Projectile.t * World) (c : Z * Z),
                  (projectiles.check_collision s.1 c.1 c.2 s.2).1) cells s).
Proof.
  revert s. induction cells as [|c cells IH]; intros s Hex Hout Hin; simpl.
  - by apply elem_of_nil in Hin.
  - destruct (decide (c = position s.2 t)) as [-> | Hne].
    + eapply struck_then_once; [| apply cells_once].
      destruct s as [p w]. apply check_collision_on. by apply exposed_struck.
    + apply elem_of_cons in Hin as [Heq | Hin]; [congruence |].
      assert (same_shooter s (projectiles.check_collision s.1 c.1 c.2 s.2).1) as Hsh
        by (destruct s as [p w]; apply check_collision_shooter).
      assert (untouched t s (projectiles.check_collision s.1 c.1 c.2 s.2).1) as Hun.
      { destruct s as [p w]. apply check_collision_off. intros Hs.
        apply struck_Some in Hs as (_ & Hat & _). apply actor_at_position in Hat.
        cbn [fst snd] in *. rewrite Hat in Hne. by destruct c. }
      eapply untouched_then_struck; [exact Hsh | exact Hun |].
      apply IH.
      * by apply (exposed_stretch t s).
      * destruct Hun as [_ Hiff]. by rewrite Hiff.
      * by rewrite (position_stretch t s).
Qed.

Lemma cells_flight (cells : list (Z * Z)) (s : Projectile.t * World) :
  let s' := fold_left (λ (s : Projectile.t * World) (c : Z * Z),
                         (projectiles.check_collision s.1 c.1 c.2 s.2).1) cells s in
  Projectile.cls s'.1 = Projectile.cls s.1
  ∧ Projectile.done s'.1 = Projectile.done s.1
  ∧ Projectile.range s'.1 = Projectile.range s.1
  ∧ Projectile.distance_travelled s'.1 = Projectile.distance_travelled s.1.
Proof.
  revert s. induction cells as [|c cells IH]; intros s; simpl; [done |].
  destruct (IH (projectiles.check_collision s.1 c.1 c.2 s.2).1) as (-> & -> & -> & ->).
  destruct (check_collision_flight s.1 c.1 c.2 s.2)
    as (_ & _ & _ & _ & Hr & Hc & Hdt & Hd & _).
  done.
Qed.

(** ** The offsets of the cross and of the diagonals *)

Lemma cross_offsets_arms (k : Z) (o : Z * Z) :
  o ∈ cross_offsets k
  ↔ (o.2 = 0 ∧ Z.abs o.1 ≤ k) ∨ (o.1 = 0 ∧ Z.abs o.2 ≤ k).
Proof.
  unfold cross_offsets, range_. destruct o as [ox oy]. simpl.
  rewrite elem_of_app, !list_elem_of_fmap. split.
  - intros [(a & [= -> ->] & Ha) | (a & [= -> ->] & Ha)];
      apply elem_of_seqZ in Ha; [left | right]; lia.
  - intros [[-> Hk] | [-> Hk]]; [left; exists ox | right; exists oy];
      (split; [done | apply elem_of_seqZ; lia]).
Qed.

Lemma diagonal_offsets_arms (k : Z) (o : Z * Z) :
  o ∈ diagonal_offsets k ↔ Z.abs o.1 = Z.abs o.2 ∧ Z.abs o.1 ≤ k.
Proof.
  unfold diagonal_offsets, range_. destruct o as [ox oy]. simpl.
  rewrite list_elem_of_bind. split.
  - intros (a & Hin & Ha). apply elem_of_seqZ in Ha.
    repeat (apply elem_of_cons in Hin as [[= -> ->] | Hin]; [lia |]).
    by apply elem_of_nil in Hin.
  - intros [Habs Hk]. exists ox. split; [| apply elem_of_seqZ; lia].
    destruct (decide (oy = ox)) as [-> | Hne]; [apply list_elem_of_here |].
    replace oy with (- ox) by lia. apply list_elem_of_further, list_elem_of_here.
Qed.

(** ** One frame of an expanding pattern *)

Lemma cross_cells (t : nat) (p : Projectile.t) (w : World) (k : Z) :
  position w t
    ∈ ((λ ox, (x (heap w (Projectile.actor p)) + ox, y (heap w (Projectile.actor p))))
         <$> range_ (- k) (k + 1))
      ++ ((λ oy, (x (heap w (Projectile.actor p)), y (heap w (Projectile.actor p)) + oy))
            <$> range_ (- k) (k + 1))
  ↔ offset_from_owner t p w ∈ cross_offsets k.
Proof.
  rewrite cross_offsets_arms. unfold offset_from_owner, position, range_. simpl.
  rewrite elem_of_app, !list_elem_of_fmap. split.
  - intros [(a & [= Hx Hy] & Ha) | (a & [= Hx Hy] & Ha)];
      apply elem_of_seqZ in Ha; [left | right]; lia.
  - intros [[Hy Hk] | [Hx Hk]].
    + left. exists (x (heap w t) - x (heap w (Projectile.actor p))).
      split; [f_equal; lia | apply elem_of_seqZ; lia].
    + right. exists (y (heap w t) - y (heap w (Projectile.actor p))).
      split; [f_equal; lia | apply elem_of_seqZ; lia].
Qed.

Lemma diagonal_cells (t : nat) (p : Projectile.t) (w : World) (k : Z) :
  position w t
    ∈ (d ← range_ (- k) (k + 1);
       (λ o : Z * Z, (x (heap w (Projectile.actor p)) + o.1,
                      y (heap w (Projectile.actor p)) + o.2))
         <$> [(d, d); (d, - d); (- d, d); (- d, - d)])
  ↔ offset_from_owner t p w ∈ diagonal_offsets k.
Proof.
  rewrite diagonal_offsets_arms. unfold offset_from_owner, position, range_. simpl.
  rewrite list_elem_of_bind. split.
  - intros (a & Hin & Ha). apply elem_of_seqZ in Ha.
    repeat (apply elem_of_cons in Hin as [[= Hx Hy] | Hin]; [lia |]).
    by apply elem_of_nil in Hin.
  - intros [Habs Hk].
    exists (x (heap w t) - x (heap w (Projectile.actor p))).
    split; [| apply elem_of_seqZ; lia].
    destruct (decide (y (heap w t) - y (heap w (Projectile.actor p))
                      = x (heap w t) - x (heap w (Projectile.actor p)))) as [Heq | Hne].
    + apply elem_of_cons. left. f_equal; lia.
    + apply list_elem_of_further, elem_of_cons. left. f_equal; lia.
Qed.

Lemma CrossProjectile_update_expands (p : Projectile.t) (w : World) :
  Projectile.cls p = CrossProjectile_cls → Projectile.done p = false →
  Projectile.distance_travelled p + 1 ≤ Projectile.range p →
  projectiles.update p w
  = projectiles.check_cells
      (((λ ox, (x (heap w (Projectile.actor p)) + ox, y (heap w (Projectile.actor p))))
          <$> range_ (- (Projectile.distance_travelled p + 1))
                     (Projectile.distance_travelled p + 1 + 1))
       ++ ((λ oy, (x (heap w (Projectile.actor p)), y (heap w (Projectile.actor p)) + oy))
             <$> range_ (- (Projectile.distance_travelled p + 1))
                        (Projectile.distance_travelled p + 1 + 1)))
      (projectiles.set_distance_travelled (Projectile.distance_travelled p + 1) p) w.
Proof.
  intros Hc Hd Hr. unfold projectiles.update. rewrite Hc.
  unfold projectiles.CrossProjectile_update. rewrite Hd. cbv zeta.
  cbn [Projectile.range Projectile.distance_travelled Projectile.actor
       projectiles.set_distance_travelled].
  apply Z.ltb_ge in Hr as ->.
  unfold projectiles.check_cells. rewrite fold_left_app.
  by destruct (fold_left _ _ _).
Qed.

Lemma DiagonalProjectile_update_expands (p : Projectile.t) (w : World) :
  Projectile.cls p = DiagonalProjectile_cls → Projectile.done p = false →
  Projectile.distance_travelled p + 1 ≤ Projectile.range p →
  projectiles.update p w
  = projectiles.check_cells
      (d ← range_ (- (Projectile.distance_travelled p + 1))
                  (Projectile.distance_travelled p + 1 + 1);
       (λ o : Z * Z, (x (heap w (Projectile.actor p)) + o.1,
                      y (heap w (Projectile.actor p)) + o.2))
         <$> [(d, d); (d, - d); (- d, d); (- d, - d)])
      (projectiles.set_distance_travelled (Projectile.distance_travelled p + 1) p) w.
Proof.
  intros Hc Hd Hr. unfold projectiles.update. rewrite Hc.
  unfold projectiles.DiagonalProjectile_update. rewrite Hd. cbv zeta.
  cbn [Projectile.range Projectile.distance_travelled Projectile.actor
       projectiles.set_distance_travelled].
  by apply Z.ltb_ge in Hr as ->.
Qed.

(** A frame of an expanding pattern that has not reached its range: the
    counter goes up by one and the cells of the pattern at the new size
    are checked; an actor off the pattern is untouched, an exposed actor on
    it that was not hit yet is struck once. *)
Lemma expanding_frame (t : nat) (p : Projectile.t) (w : World) :
  is_expanding p = true → Projectile.done p = false →
  reach p + 1 ≤ Projectile.range p →
  let s' := projectiles.update p w in
  is_expanding s'.1 = true
  ∧ pattern_offsets (Projectile.cls s'.1) = pattern_offsets (Projectile.cls p)
  ∧ reach s'.1 = reach p + 1
  ∧ Projectile.range s'.1 = Projectile.range p
  ∧ Projectile.done s'.1 = false
  ∧ (offset_from_owner t p w ∉ pattern_offsets (Projectile.cls p) (reach p + 1) →
     untouched t (p, w) s')
  ∧ (exposed t p w → t ∉ Projectile.hit_actors p →
     offset_from_owner t p w ∈ pattern_offsets (Projectile.cls p) (reach p + 1) →
     struck_once t (p, w) s').
Proof.
  unfold is_expanding, reach. intros Hexp Hd Hr. cbv zeta.
  destruct (Projectile.cls p) as [| f | k | |] eqn:Hc; try done.
  - rewrite (ShockwaveProjectile_update_expands k) by done.
    set (q := projectiles.set_cls (ShockwaveProjectile_cls (k + 1)) p).
    destruct (rounds_flight (projectiles.ring_offsets (k + 1)) (q, w)) as (Hc2 & Hd2 & Hr2).
    unfold projectiles.check_around_actor. rewrite Hc2, Hd2, Hr2. simpl.
    split_and!; try done.
    + intros Hoff. by apply (rounds_miss t _ (q, w)).
    + intros Hex Hout Hoff. by apply (rounds_hit t _ (q, w)).
  - rewrite CrossProjectile_update_expands by done.
    set (q := projectiles.set_distance_travelled (Projectile.distance_travelled p + 1) p).
    set (cells := _ ++ _).
    destruct (cells_flight cells (q, w)) as (Hc2 & Hd2 & Hr2 & Hdt2).
    unfold projectiles.check_cells. rewrite Hc2, Hd2, Hr2, Hdt2. simpl. rewrite Hc.
    split_and!; try done.
    + intros Hoff. apply (cells_miss t _ (q, w)).
      intros Hin. apply Hoff. exact (proj1 (cross_cells t p w _) Hin).
    + intros Hex Hout Hoff. apply (cells_hit t _ (q, w)); try done.
      exact (proj2 (cross_cells t p w _) Hoff).
  - rewrite DiagonalProjectile_update_expands by done.
    set (q := projectiles.set_distance_travelled (Projectile.distance_travelled p + 1) p).
    set (cells := _ ≫= _).
    destruct (cells_flight cells (q, w)) as (Hc2 & Hd2 & Hr2 & Hdt2).
    unfold projectiles.check_cells. rewrite Hc2, Hd2, Hr2, Hdt2. simpl. rewrite Hc.
    split_and!; try done.
    + intros Hoff. apply (cells_miss t _ (q, w)).
      intros Hin. apply Hoff. exact (proj1 (diagonal_cells t p w _) Hin).
    + intros Hex Hout Hoff. apply (cells_hit t _ (q, w)); try done.
      exact (proj2 (diagonal_cells t p w _) Hoff).
Qed.

(** The frame after the last size: the pattern is done and nothing is
    checked. *)
Lemma expanding_last_frame (p : Projectile.t) (w : World) :
  is_expanding p = true → Projectile.done p = false →
  Projectile.range p < reach p + 1 →
  let s' := projectiles.update p w in
  is_expanding s'.1 = true ∧ Projectile.done s'.1 = true
  ∧ Projectile.hit_actors s'.1 = Projectile.hit_actors p ∧ s'.2 = w.
Proof.
  unfold is_expanding, reach, projectiles.update. intros Hexp Hd Hr. cbv zeta.
  destruct (Projectile.cls p) as [| f | k | |] eqn:Hc; try done.
  - unfold projectiles.ShockwaveProjectile_update. rewrite Hd. cbv zeta.
    change (Projectile.range (projectiles.set_cls _ p)) with (Projectile.range p).
    by apply Z.ltb_lt in Hr as ->.
  - unfold projectiles.CrossProjectile_update. rewrite Hd. cbv zeta.
    cbn [Projectile.range Projectile.distance_travelled
         projectiles.set_distance_travelled].
    apply Z.ltb_lt in Hr as ->. simpl. by rewrite Hc.
  - unfold projectiles.DiagonalProjectile_update. rewrite Hd. cbv zeta.
    cbn [Projectile.range Projectile.distance_travelled
         projectiles.set_distance_travelled].
    apply Z.ltb_lt in Hr as ->. simpl. by rewrite Hc.
Qed.

(** A projectile that is done is left alone by [update], whatever its
    class. *)
Lemma update_when_done (p : Projectile.t) (w : World) :
  Projectile.done p = true → projectiles.update p w = (p, w).
Proof.
  intros Hd. unfold projectiles.update, projectiles.Projectile_update,
    projectiles.ShockwaveProjectile_update, projectiles.CrossProjectile_update,
    projectiles.DiagonalProjectile_update.
  rewrite Hd. by destruct (Projectile.cls p).
Qed.

Lemma updates_when_done (n : nat) (p : Projectile.t) (w : World) :
  Projectile.done p = true → projectiles.updates n p w = (p, w).
Proof.
  intros Hd. induction n as [|n IH]; simpl; [done |]. by rewrite update_when_done.
Qed.

(** The frames of an expanding pattern up to its last size. *)
Lemma expanding_progress (p : Projectile.t) (w : World) (n : nat) :
  is_expanding p = true → Projectile.done p = false →
  (n ≤ Z.to_nat (Projectile.range p - reach p))%nat →
  let s := projectiles.updates n p w in
  is_expanding s.1 = true
  ∧ pattern_offsets (Projectile.cls s.1) = pattern_offsets (Projectile.cls p)
  ∧ reach s.1 = reach p + Z.of_nat n
  ∧ Projectile.range s.1 = Projectile.range p
  ∧ Projectile.done s.1 = false.
Proof.
  intros Hexp Hd. cbv zeta. induction n as [|n IH]; intros Hn.
  - simpl. split_and!; try done. lia.
  - destruct IH as (Hexp' & Hpat & Hre & Hr & Hd'); [lia |].
    rewrite updates_S.
    destruct (projectiles.updates n p w) as [pn wn]. cbn [fst snd] in *.
    destruct (expanding_frame 0%nat pn wn) as (H1 & H2 & H3 & H4 & H5 & _);
      [done | done | lia |].
    split_and!; [done | congruence | lia | congruence | done].
Qed.

Lemma expanding_finished (p : Projectile.t) (w : World) (n : nat) :
  is_expanding p = true → Projectile.done p = false →
  (Z.to_nat (Projectile.range p - reach p) < n)%nat →
  let s := projectiles.updates n p w in
  Projectile.done s.1 = true
  ∧ Projectile.hit_actors s.1
    = Projectile.hit_actors
        (projectiles.updates (Z.to_nat (Projectile.range p - reach p)) p w).1
  ∧ s.2 = (projectiles.updates (Z.to_nat (Projectile.range p - reach p)) p w).2.
Proof.
  intros Hexp Hd Hn. cbv zeta.
  set (L := Z.to_nat (Projectile.range p - reach p)) in *.
  destruct (expanding_progress p w L Hexp Hd) as (Hexp' & _ & Hre & Hr & Hd'); [done |].
  replace n with (S L + (n - S L))%nat by lia. rewrite updates_plus, updates_S.
  destruct (projectiles.updates L p w) as [pL wL]. cbn [fst snd] in *.
  destruct (expanding_last_frame pL wL) as (_ & Hdone & Hhit & Hw); [done | done | lia |].
  destruct (projectiles.update pL wL) as [pe we]. cbn [fst snd] in *.
  by rewrite updates_when_done.
Qed.

(** ** The strikes of an expanding pattern *)

Lemma expanding_frame_at (t : nat) (p : Projectile.t) (w : World) (n : nat) :
  is_expanding p = true → Projectile.done p = false → reach p = 0 →
  let s := projectiles.updates n p w in
  let s' := projectiles.updates (S n) p w in
  (offset_from_owner t p w ∉ pattern_offsets (Projectile.cls p) (Z.of_nat n + 1)
   ∨ Projectile.range p < Z.of_nat n + 1 → untouched t s s')
  ∧ (exposed t p w → t ∉ Projectile.hit_actors s.1 →
     Z.of_nat n + 1 ≤ Projectile.range p →
     offset_from_owner t p w ∈ pattern_offsets (Projectile.cls p) (Z.of_nat n + 1) →
     struck_once t s s').
Proof.
  intros Hexp Hd Hre. cbv zeta. rewrite updates_S.
  pose proof (updates_once t n p w) as [Hsh _].
  pose proof (offset_from_owner_stretch t _ _ Hsh) as Hoff.
  destruct (decide (n ≤ Z.to_nat (Projectile.range p - reach p))%nat) as [Hn | Hn].
  - destruct (expanding_progress p w n Hexp Hd Hn) as (Hexp' & Hpat & Hre' & Hr & Hd').
    pose proof (exposed_stretch t _ _ Hsh) as Hex'.
    destruct (projectiles.updates n p w) as [pn wn]. cbn [fst snd] in *.
    rewrite Hre in Hre'. rewrite Z.add_0_l in Hre'.
    destruct (decide (Z.of_nat n + 1 ≤ Projectile.range p)) as [Hle | Hgt].
    + destruct (expanding_frame t pn wn) as (_ & _ & _ & _ & _ & Hmiss & Hhit);
        [done | done | lia |].
      rewrite Hoff, Hpat, Hre' in Hmiss, Hhit. split.
      * intros [Hnot | Hlt]; [by apply Hmiss | lia].
      * intros Hex Hout _ Hin. by apply Hhit; [apply Hex' | |].
    + destruct (expanding_last_frame pn wn) as (_ & _ & Hhit & Hw); [done | done | lia |].
      split; [| lia]. intros _. split; [by rewrite Hw | by rewrite Hhit].
  - destruct (expanding_finished p w n Hexp Hd) as (Hdone & _); [lia |].
    destruct (projectiles.updates n p w) as [pn wn]. cbn [fst snd] in *.
    rewrite update_when_done by done. split; [by split | rewrite Hre in Hn; lia].
Qed.

(** An exposed actor is struck by the first frame whose pattern passes
    over it, and by no other. *)
Lemma expanding_strikes (t : nat) (d : Z) (p : Projectile.t) (w : World) :
  is_expanding p = true → Projectile.done p = false → reach p = 0 →
  exposed t p w → t ∉ Projectile.hit_actors p →
  first_covered (Projectile.cls p) (Projectile.range p) (offset_from_owner t p w) d →
  struck_on_frame t d p w.
Proof.
  intros Hexp Hd Hre Hex Hout ([Hd1 HdR] & Hin & Hbefore).
  rewrite <- (Z2Nat.id d) by lia.
  assert (∀ n, (S n < Z.to_nat d)%nat →
            untouched t (projectiles.updates n p w) (projectiles.updates (S n) p w))
    as Hmiss.
  { intros n Hn. apply (expanding_frame_at t p w n Hexp Hd Hre). left.
    apply Hbefore. lia. }
  apply struck_on_frame_intro; [lia | done |].
  replace (Z.to_nat d) with (S (Z.to_nat d - 1)) at 2 by lia.
  apply (expanding_frame_at t p w (Z.to_nat d - 1) Hexp Hd Hre); [done | | lia |].
  - destruct (untouched_frames t p w (Z.to_nat d - 1)) as [_ Hiff];
      [intros n Hn; apply Hmiss; lia | by rewrite Hiff].
  - by replace (Z.of_nat (Z.to_nat d - 1) + 1) with d by lia.
Qed.

(** An actor that the pattern never passes over is never struck. *)
Lemma expanding_misses (t : nat) (p : Projectile.t) (w : World) :
  is_expanding p = true → Projectile.done p = false → reach p = 0 →
  t ∉ Projectile.hit_actors p →
  never_covered (Projectile.cls p) (Projectile.range p) (offset_from_owner t p w) →
  never_struck t p w.
Proof.
  intros Hexp Hd Hre Hout Hnever. apply never_struck_intro; [done |].
  intros n. apply (expanding_frame_at t p w n Hexp Hd Hre).
  destruct (decide (Z.of_nat n + 1 ≤ Projectile.range p)); [left | right; lia].
  apply Hnever. lia.
Qed.

(** ** One frame of a straight projectile *)

Lemma straight_frame (t : nat) (p : Projectile.t) (w : World) :
  flies_straight p = true → Projectile.done p = false →
  let c := (Projectile.x p + Projectile.dx p, Projectile.y p + Projectile.dy p) in
  (position w t ≠ c → untouched t (p, w) (projectiles.update p w))
  ∧ (exposed t p w → t ∉ Projectile.hit_actors p → position w t = c →
     struck_once t (p, w) (projectiles.update p w)).
Proof.
  intros Hfl Hd. cbv zeta. rewrite update_straight by done.
  unfold projectiles.Projectile_update. rewrite Hd. cbn [negb].
  unfold projectiles.move.
  set (p1 := projectiles.set_distance_travelled _ (projectiles.set_pos _ _ p)).
  change (Projectile.x p1) with (Projectile.x p + Projectile.dx p).
  change (Projectile.y p1) with (Projectile.y p + Projectile.dy p).
  set (cx := Projectile.x p + Projectile.dx p).
  set (cy := Projectile.y p + Projectile.dy p).
  destruct (in_bounds (game_map w) cx cy) eqn:Hin.
  - pose proof (check_collision_off t p1 cx cy w) as Hoff.
    pose proof (check_collision_on t p1 cx cy w) as Hon.
    destruct (projectiles.check_collision p1 cx cy w) as [[p2 w2] b].
    cbn [fst snd] in Hoff, Hon.
    assert (∀ s', (s' = (projectiles.set_done true p2, w2) ∨ s' = (p2, w2)) →
              (position w t ≠ (cx, cy) → untouched t (p, w) s')
              ∧ (exposed t p w → t ∉ Projectile.hit_actors p →
                 position w t = (cx, cy) → struck_once t (p, w) s')) as Hboth.
    { intros s' Hs'. split.
      - intros Hne.
        assert (untouched t (p1, w) (p2, w2)) as Hun.
        { apply Hoff. intros Hs. apply struck_Some in Hs as (_ & Hat & _).
          by apply actor_at_position in Hat. }
        by destruct Hs' as [-> | ->].
      - intros Hex Hout Hpos.
        assert (struck_once t (p1, w) (p2, w2)) as Hst.
        { apply Hon. pose proof (exposed_struck t p1 w Hex Hout) as Hs.
          by rewrite Hpos in Hs. }
        by destruct Hs' as [-> | ->]. }
    destruct (negb (walkable (game_map w2) (Projectile.x p2) (Projectile.y p2)));
      [apply Hboth; by left |].
    destruct (negb (in_bounds (game_map w2) (Projectile.x p2) (Projectile.y p2))
              || (Projectile.range p2 <=? Projectile.distance_travelled p2));
      apply Hboth; [by left | by right].
  - assert (∀ s', (s' = (projectiles.set_done true p1, w) ∨ s' = (p1, w)) →
              (position w t ≠ (cx, cy) → untouched t (p, w) s')
              ∧ (exposed t p w → t ∉ Projectile.hit_actors p →
                 position w t = (cx, cy) → struck_once t (p, w) s')) as Hboth.
    { intros s' Hs'. split.
      - intros _. destruct Hs' as [-> | ->]; by split.
      - intros (_ & Hinb & _) _ Hpos. rewrite Hpos in Hinb. simpl in Hinb. congruence. }
    destruct (negb _ || _); apply Hboth; [by left | by right].
Qed.

(** The frame that follows [n] frames of free flight moves the projectile
    to the next cell of its line. *)
Lemma straight_frame_at (t : nat) (p : Projectile.t) (w : World) (n : nat) :
  flies_straight p = true → Projectile.done p = false →
  Projectile.distance_travelled p = 0 →
  (∀ j, 1 ≤ j ≤ Z.of_nat n →
        lets_through p (game_map w) j = true ∧ j < Projectile.range p) →
  let s := projectiles.updates n p w in
  let s' := projectiles.updates (S n) p w in
  (position w t ≠ cell_on_line p (Z.of_nat n + 1) → untouched t s s')
  ∧ (exposed t p w → t ∉ Projectile.hit_actors s.1 →
     position w t = cell_on_line p (Z.of_nat n + 1) → struck_once t s s').
Proof.
  intros Hfl Hd Hdt Hfree. cbv zeta. rewrite updates_S.
  pose proof (updates_once t n p w) as [Hsh _].
  pose proof (position_stretch t _ _ Hsh) as Hpos.
  pose proof (exposed_stretch t _ _ Hsh) as Hex'.
  destruct (flight_in_progress n p w Hfl Hd Hdt Hfree)
    as (Hd' & Hfl' & _ & Hxy & Hdx & Hdy & _).
  destruct (projectiles.updates n p w) as [pn wn]. cbn [fst snd] in *.
  destruct (straight_frame t pn wn Hfl' Hd') as [Hmiss Hhit].
  assert ((Projectile.x pn + Projectile.dx pn, Projectile.y pn + Projectile.dy pn)
          = cell_on_line p (Z.of_nat n + 1)) as Hcell.
  { unfold cell_on_line in *. injection Hxy as -> ->. rewrite Hdx, Hdy. f_equal; lia. }
  rewrite Hcell, Hpos in Hmiss, Hhit. split; [done |].
  intros Hex Hout Hat. by apply Hhit; [apply Hex' | |].
Qed.

(** ** The expanding patterns and the straight line, from one actor *)

(** X1.  An expanding pattern (shockwave, cross, diagonal) that is not
    done is done after [n] updates exactly when [n] exceeds the sizes it
    has left, range minus counter (none if that is negative): a fresh
    pattern of range R >= 0 is not done after R updates and done from
    update R + 1 on. *)
Theorem expanding_pattern_done_after_range (p : Projectile.t) (w : World) (n : nat) :
  is_expanding p = true → Projectile.done p = false →
  Projectile.done (projectiles.updates n p w).1
  = bool_decide (Z.to_nat (Projectile.range p - reach p) < n)%nat.
Proof.
  intros Hexp Hd.
  destruct (decide (n ≤ Z.to_nat (Projectile.range p - reach p))%nat) as [Hn | Hn].
  - destruct (expanding_progress p w n Hexp Hd Hn) as (_ & _ & _ & _ & ->).
    symmetry. apply bool_decide_eq_false. lia.
  - destruct (expanding_finished p w n Hexp Hd) as (-> & _); [lia |].
    symmetry. apply bool_decide_eq_true. lia.
Qed.

Lemma expanding_pattern_done_after_range_witness :
  Projectile.done (projectiles.updates 3 (patterns.CrossProjectile_init courtyard 1 3 6)
                                       courtyard).1 = false
  ∧ Projectile.done (projectiles.updates 4 (patterns.CrossProjectile_init courtyard 1 3 6)
                                         courtyard).1 = true.
Proof.
  split.
  - exact (expanding_pattern_done_after_range
             (patterns.CrossProjectile_init courtyard 1 3 6) courtyard 3 eq_refl eq_refl).
  - exact (expanding_pattern_done_after_range
             (patterns.CrossProjectile_init courtyard 1 3 6) courtyard 4 eq_refl eq_refl).
Defined.

(** X2.  A fresh shockwave and an actor [t] at Chebyshev distance [d] of
    its owner.  If [t] can be struck and 1 <= d <= range, then update [d]
    strikes it and no other update does: its hp is the initial one before,
    lower by max(0, damage - defense) from then on.  If [d] is 0 or beyond
    the range, no update ever strikes it. *)
Theorem shockwave_strikes_at_distance (t : nat) (p : Projectile.t) (w : World) :
  Projectile.cls p = ShockwaveProjectile_cls 0 → Projectile.done p = false →
  t ∉ Projectile.hit_actors p →
  let d := chebyshev (position w t) (position w (Projectile.actor p)) in
  (exposed t p w → 1 ≤ d ≤ Projectile.range p → struck_on_frame t d p w)
  ∧ (d = 0 ∨ Projectile.range p < d → never_struck t p w).
Proof.
  intros Hc Hd Hout d.
  assert (is_expanding p = true) as Hexp by (unfold is_expanding; by rewrite Hc).
  assert (reach p = 0) as Hre by (unfold reach; by rewrite Hc).
  assert (∀ k, offset_from_owner t p w ∈ pattern_offsets (Projectile.cls p) k ↔ d = k)
    as Hcov by (intros k; rewrite Hc; apply chebyshev_offset).
  split.
  - intros Hex Hrange. apply expanding_strikes; try done.
    split; [done |]. split; [by apply Hcov |]. intros k Hk Hin. apply Hcov in Hin. lia.
  - intros Hfar. apply expanding_misses; try done.
    intros k Hk Hin. apply Hcov in Hin. lia.
Qed.

Lemma shockwave_strikes_at_distance_witness :
  chebyshev (position courtyard 0) (position courtyard 1) = 3
  ∧ struck_on_frame 0 3 (projectiles.ShockwaveProjectile_init courtyard 1 4 6) courtyard
  ∧ never_struck 0 (projectiles.ShockwaveProjectile_init courtyard 1 2 6) courtyard.
Proof.
  split; [reflexivity |]. split.
  - apply (shockwave_strikes_at_distance
             0 (projectiles.ShockwaveProjectile_init courtyard 1 4 6) courtyard
             eq_refl eq_refl).
    + apply not_elem_of_empty.
    + split; [reflexivity |]. split; [reflexivity |]. intros [Heq _]. discriminate Heq.
    + vm_compute. split; discriminate.
  - apply (shockwave_strikes_at_distance
             0 (projectiles.ShockwaveProjectile_init courtyard 1 2 6) courtyard
             eq_refl eq_refl).
    + apply not_elem_of_empty.
    + right. reflexivity.
Defined.

(** X3.  A fresh cross pattern and an actor [t] at offset (ox, oy) from
    its owner, d = max(|ox|, |oy|).  If [t] stands on an arm (ox = 0 or
    oy = 0), can be struck and 1 <= d <= range, then update [d] strikes it
    and no other update does, although every later update checks its cell
    again.  If [t] stands off the arms or beyond the range, no update ever
    strikes it. *)
Theorem cross_strikes_on_its_arms (t : nat) (p : Projectile.t) (w : World) :
  Projectile.cls p = CrossProjectile_cls → Projectile.done p = false →
  Projectile.distance_travelled p = 0 → t ∉ Projectile.hit_actors p →
  let o := offset_from_owner t p w in
  let d := Z.max (Z.abs o.1) (Z.abs o.2) in
  (exposed t p w → o.1 = 0 ∨ o.2 = 0 → 1 ≤ d ≤ Projectile.range p →
   struck_on_frame t d p w)
  ∧ ((o.1 ≠ 0 ∧ o.2 ≠ 0) ∨ Projectile.range p < d → never_struck t p w).
Proof.
  intros Hc Hd Hdt Hout o d.
  assert (is_expanding p = true) as Hexp by (unfold is_expanding; by rewrite Hc).
  assert (reach p = 0) as Hre by (unfold reach; by rewrite Hc).
  assert (∀ k, o ∈ pattern_offsets (Projectile.cls p) k
               ↔ (o.2 = 0 ∧ Z.abs o.1 ≤ k) ∨ (o.1 = 0 ∧ Z.abs o.2 ≤ k))
    as Hcov by (intros k; rewrite Hc; apply cross_offsets_arms).
  split.
  - intros Hex Harm Hrange. apply expanding_strikes; try done.
    split; [done |]. split; [apply Hcov; lia |].
    intros k Hk Hin. apply Hcov in Hin. lia.
  - intros Hfar. apply expanding_misses; try done.
    intros k Hk Hin. apply Hcov in Hin. lia.
Qed.

Lemma cross_strikes_on_its_arms_witness :
  offset_from_owner 2 (patterns.CrossProjectile_init courtyard 1 4 6) courtyard = (0, 3)
  ∧ struck_on_frame 2 3 (patterns.CrossProjectile_init courtyard 1 4 6) courtyard
  ∧ never_struck 0 (patterns.CrossProjectile_init courtyard 1 4 6) courtyard.
Proof.
  split; [reflexivity |]. split.
  - apply (cross_strikes_on_its_arms
             2 (patterns.CrossProjectile_init courtyard 1 4 6) courtyard
             eq_refl eq_refl eq_refl).
    + apply not_elem_of_empty.
    + split; [reflexivity |]. split; [reflexivity |]. intros [Heq _]. discriminate Heq.
    + left. reflexivity.
    + vm_compute. split; discriminate.
  - apply (cross_strikes_on_its_arms
             0 (patterns.CrossProjectile_init courtyard 1 4 6) courtyard
             eq_refl eq_refl eq_refl).
    + apply not_elem_of_empty.
    + left. split; discriminate.
Defined.

(** X4.  A fresh diagonal pattern and an actor [t] at offset (ox, oy)
    from its owner.  If [t] stands on a diagonal (|ox| = |oy| = d), can be
    struck and 1 <= d <= range, then update [d] strikes it and no other
    update does.  If [t] stands off the diagonals or beyond the range, no
    update ever strikes it. *)
Theorem diagonal_strikes_on_its_arms (t : nat) (p : Projectile.t) (w : World) :
  Projectile.cls p = DiagonalProjectile_cls → Projectile.done p = false →
  Projectile.distance_travelled p = 0 → t ∉ Projectile.hit_actors p →
  let o := offset_from_owner t p w in
  let d := Z.abs o.1 in
  (exposed t p w → Z.abs o.1 = Z.abs o.2 → 1 ≤ d ≤ Projectile.range p →
   struck_on_frame t d p w)
  ∧ (Z.abs o.1 ≠ Z.abs o.2 ∨ Projectile.range p < d → never_struck t p w).
Proof.
  intros Hc Hd Hdt Hout o d.
  assert (is_expanding p = true) as Hexp by (unfold is_expanding; by rewrite Hc).
  assert (reach p = 0) as Hre by (unfold reach; by rewrite Hc).
  assert (∀ k, o ∈ pattern_offsets (Projectile.cls p) k
               ↔ Z.abs o.1 = Z.abs o.2 ∧ Z.abs o.1 ≤ k)
    as Hcov by (intros k; rewrite Hc; apply diagonal_offsets_arms).
  split.
  - intros Hex Harm Hrange. apply expanding_strikes; try done.
    split; [done |]. split; [apply Hcov; lia |].
    intros k Hk Hin. apply Hcov in Hin. lia.
  - intros Hfar. apply expanding_misses; try done.
    intros k Hk Hin. apply Hcov in Hin. lia.
Qed.

Lemma diagonal_strikes_on_its_arms_witness :
  offset_from_owner 0 (patterns.DiagonalProjectile_init courtyard 1 4 6) courtyard = (3, 3)
  ∧ struck_on_frame 0 3 (patterns.DiagonalProjectile_init courtyard 1 4 6) courtyard
  ∧ never_struck 2 (patterns.DiagonalProjectile_init courtyard 1 4 6) courtyard.
Proof.
  split; [reflexivity |]. split.
  - apply (diagonal_strikes_on_its_arms
             0 (patterns.DiagonalProjectile_init courtyard 1 4 6) courtyard
             eq_refl eq_refl eq_refl).
    + apply not_elem_of_empty.
    + split; [reflexivity |]. split; [reflexivity |]. intros [Heq _]. discriminate Heq.
    + reflexivity.
    + vm_compute. split; discriminate.
  - apply (diagonal_strikes_on_its_arms
             2 (patterns.DiagonalProjectile_init courtyard 1 4 6) courtyard
             eq_refl eq_refl eq_refl).
    + apply not_elem_of_empty.
    + left. discriminate.
Defined.

(** X5.  A fresh straight projectile and an actor [t].  If [t] can be
    struck and stands on the [k]-th cell of the line, the flight being free
    up to cell k - 1 (cells inside the map and walkable, range not used up,
    [t] not on them), then update [k] strikes it and no other does; the
    tile under [t] and the range left at cell [k] play no part.  If the
    flight ends on cell [m] (first cell that is outside, not walkable or at
    the range) and [t] stands on none of the cells 1 to [m], no update ever
    strikes it. *)
Theorem straight_projectile_strikes_on_its_line (t : nat) (p : Projectile.t) (w : World) :
  flies_straight p = true → Projectile.done p = false →
  Projectile.distance_travelled p = 0 → t ∉ Projectile.hit_actors p →
  (∀ k : nat, (1 ≤ k)%nat → exposed t p w →
     position w t = cell_on_line p (Z.of_nat k) →
     (∀ j, 1 ≤ j < Z.of_nat k →
           lets_through p (game_map w) j = true ∧ j < Projectile.range p
           ∧ position w t ≠ cell_on_line p j) →
     struck_on_frame t (Z.of_nat k) p w)
  ∧ (∀ m : nat, (1 ≤ m)%nat →
     (∀ j, 1 ≤ j < Z.of_nat m →
           lets_through p (game_map w) j = true ∧ j < Projectile.range p) →
     lets_through p (game_map w) (Z.of_nat m) = false
     ∨ Projectile.range p ≤ Z.of_nat m →
     (∀ j, 1 ≤ j ≤ Z.of_nat m → position w t ≠ cell_on_line p j) →
     never_struck t p w).
Proof.
  intros Hfl Hd Hdt Hout. split.
  - intros k Hk Hex Hat Hfree.
    assert (∀ n, (S n < k)%nat →
              untouched t (projectiles.updates n p w) (projectiles.updates (S n) p w))
      as Hmiss.
    { intros n Hn. apply (straight_frame_at t p w n Hfl Hd Hdt).
      - intros j Hj. destruct (Hfree j) as (? & ? & _); [lia | done].
      - destruct (Hfree (Z.of_nat n + 1)) as (_ & _ & Hne); [lia | done]. }
    apply struck_on_frame_intro; [done | done |].
    replace k with (S (k - 1)) at 2 by lia.
    apply (straight_frame_at t p w (k - 1) Hfl Hd Hdt); [| done | |].
    + intros j Hj. destruct (Hfree j) as (? & ? & _); [lia | done].
    + destruct (untouched_frames t p w (k - 1)) as [_ Hiff];
        [intros n Hn; apply Hmiss; lia | by rewrite Hiff].
    + by replace (Z.of_nat (k - 1) + 1) with (Z.of_nat k) by lia.
  - intros m Hm Hfree Hend Hoff. apply never_struck_intro; [done |].
    intros n. destruct (decide (n < m)%nat) as [Hn | Hn].
    + apply (straight_frame_at t p w n Hfl Hd Hdt).
      * intros j Hj. apply Hfree. lia.
      * apply Hoff. lia.
    + pose proof (flight_ends_at m p w Hfl Hd Hdt Hm Hfree Hend n) as Hdone.
      rewrite bool_decide_eq_true_2 in Hdone by lia.
      rewrite updates_S. destruct (projectiles.updates n p w) as [pn wn].
      cbn [fst snd] in *. rewrite update_when_done by done. by split.
Qed.

Lemma straight_projectile_strikes_on_its_line_witness :
  position courtyard 0 = cell_on_line (projectiles.Projectile_init courtyard 2 5 6 1 0 false) 3
  ∧ struck_on_frame 0 3 (projectiles.Projectile_init courtyard 2 5 6 1 0 false) courtyard
  ∧ lets_through (projectiles.Projectile_init courtyard_walled 2 5 6 1 0 false)
                 (game_map courtyard_walled) 2 = false
  ∧ never_struck 0 (projectiles.Projectile_init courtyard_walled 2 5 6 1 0 false)
                 courtyard_walled.
Proof.
  split; [reflexivity |].
  destruct (straight_projectile_strikes_on_its_line
              0 (projectiles.Projectile_init courtyard 2 5 6 1 0 false) courtyard
              eq_refl eq_refl eq_refl (not_elem_of_empty _)) as [Hhit _].
  destruct (straight_projectile_strikes_on_its_line
              0 (projectiles.Projectile_init courtyard_walled 2 5 6 1 0 false)
              courtyard_walled eq_refl eq_refl eq_refl (not_elem_of_empty _))
    as [_ Hmiss].
  split; [| split; [reflexivity |]].
  - apply (Hhit 3%nat); [lia | | reflexivity |].
    + split; [reflexivity |]. split; [reflexivity |]. intros [Heq _]. discriminate Heq.
    + intros j Hj.
      assert (j = 1 ∨ j = 2) as [-> | ->] by lia;
        (split; [reflexivity |]; split; [reflexivity | discriminate]).
  - apply (Hmiss 2%nat); [lia | | left; reflexivity |].
    + intros j Hj. assert (j = 1) as -> by lia. split; reflexivity.
    + intros j Hj. assert (j = 1 ∨ j = 2) as [-> | ->] by lia; discriminate.
Defined.

(** ** The engine's projectile list *)

Lemma run_frames_length (l : list Projectile.t) (w : World) :
  length (run_frames l w).1 = length l.
Proof.
  revert w. induction l as [|p l IH]; intros w; simpl; [done |].
  destruct (projectiles.update p w) as [p' w'].
  specialize (IH w'). destruct (run_frames l w') as [ps w'']. simpl in *. by rewrite IH.
Qed.

Lemma run_frames_members (l : list Projectile.t) (w : World) (p' : Projectile.t) :
  p' ∈ (run_frames l w).1 → ∃ p w0, p ∈ l ∧ p' = (projectiles.update p w0).1.
Proof.
  revert w. induction l as [|p l IH]; intros w; simpl.
  - intros Hin. by apply elem_of_nil in Hin.
  - destruct (projectiles.update p w) as [q w'] eqn:Hup.
    specialize (IH w'). destruct (run_frames l w') as [ps w'']. simpl in *.
    intros Hin. apply elem_of_cons in Hin as [-> | Hin].
    + exists p, w. split; [apply list_elem_of_here | by rewrite Hup].
    + destruct (IH Hin) as (p0 & w0 & Hp0 & Heq).
      exists p0, w0. split; [by apply list_elem_of_further | done].
Qed.

Lemma run_frames_stage (l : list Projectile.t) (w : World) :
  same_stage w (run_frames l w).2 ∧ ∀ t, hp_of (run_frames l w).2 t ≤ hp_of w t.
Proof.
  revert w. induction l as [|p l IH]; intros w; simpl.
  - split; [apply same_stage_refl | done].
  - pose proof (λ t, update_once t p w) as Hup.
    destruct (projectiles.update p w) as [q w'].
    destruct (IH w') as [Hst Hhp]. destruct (run_frames l w') as [ps w'']. simpl in *.
    split.
    + destruct (Hup 0%nat) as [(_ & _ & _ & Hst0) _].
      eapply same_stage_trans; [exact Hst0 | exact Hst].
    + intros t. pose proof (hit_at_most_once_hp_le t _ _ (Hup t)) as Hle.
      specialize (Hhp t). simpl in Hle. lia.
Qed.

Lemma update_projectiles_fold (l kept : list Projectile.t) (w : World) :
  fold_left (λ (s : list Projectile.t * World) (p : Projectile.t),
               let '(p', w') := projectiles.update p s.2 in
               (if Projectile.done p' then s.1 else s.1 ++ [p'], w'))
            l (kept, w)
  = (kept ++ filter (λ p, Projectile.done p = false) (run_frames l w).1,
     (run_frames l w).2).
Proof.
  revert kept w. induction l as [|p l IH]; intros kept w; simpl.
  - by rewrite app_nil_r.
  - destruct (projectiles.update p w) as [q w'] eqn:Hup.
    rewrite IH. destruct (run_frames l w') as [ps w'']. simpl.
    rewrite filter_cons. destruct (Projectile.done q) eqn:Hq.
    + by rewrite decide_False by done.
    + rewrite decide_True by done. by rewrite <- app_assoc.
Qed.

Lemma update_frames_left (p : Projectile.t) (w : World) :
  (frames_left (projectiles.update p w).1 ≤ frames_left p - 1)%nat.
Proof.
  unfold frames_left at 2. destruct (Projectile.done p) eqn:Hd.
  { rewrite update_when_done by done. unfold frames_left. simpl. by rewrite Hd. }
  destruct (is_expanding p) eqn:Hexp.
  - destruct (decide (reach p + 1 ≤ Projectile.range p)) as [Hle | Hgt].
    + destruct (expanding_frame 0%nat p w Hexp Hd Hle) as (He & _ & Hre & Hr & Hd' & _).
      unfold frames_left. rewrite Hd', He, Hre, Hr. lia.
    + destruct (expanding_last_frame p w Hexp Hd) as (_ & Hd' & _); [lia |].
      unfold frames_left. rewrite Hd'. lia.
  - assert (flies_straight p = true) as Hfl.
    { unfold is_expanding in Hexp. unfold flies_straight.
      by destruct (Projectile.cls p). }
    rewrite update_straight by done.
    destruct (Projectile_update_step p w Hd)
      as (_ & _ & _ & _ & Hr & Hc & Hdt & _ & Hd').
    unfold frames_left, is_expanding. rewrite Hc, Hr, Hdt.
    unfold is_expanding in Hexp. rewrite Hexp.
    rewrite Hd'. destruct (negb _); [simpl; lia |]. simpl.
    destruct (Projectile.range p <=? Projectile.distance_travelled p + 1) eqn:Hrange;
      [lia |].
    apply Z.leb_gt in Hrange. lia.
Qed.

(** X6.  [update_projectiles] updates every projectile of the list once,
    in list order, each in the world its predecessors left: the world it
    returns is the one the last of these updates left, damage and messages
    included, and its list holds the updated projectiles that are not
    done, in order.  So no done projectile stays in the list, the list
    does not grow, nobody is moved and no actor's hp goes up. *)
Theorem update_projectiles_purges (w : World) :
  let updated := run_frames (active_projectiles w) w in
  let w' := engine.update_projectiles w in
  w' = set_active_projectiles (filter (λ p, Projectile.done p = false) updated.1) updated.2
  ∧ Forall (λ p, Projectile.done p = false) (active_projectiles w')
  ∧ (length (active_projectiles w') ≤ length (active_projectiles w))%nat
  ∧ (∀ r, position w' r = position w r)
  ∧ (∀ t, hp_of w' t ≤ hp_of w t).
Proof.
  cbv zeta. unfold engine.update_projectiles. rewrite update_projectiles_fold.
  rewrite app_nil_l.
  pose proof (run_frames_length (active_projectiles w) w) as Hlen.
  destruct (run_frames_stage (active_projectiles w) w) as [Hst Hhp].
  destruct (run_frames (active_projectiles w) w) as [ps w'']. simpl in *.
  split_and!; try done.
  - apply Forall_forall. intros p Hp. by apply list_elem_of_filter in Hp as [? _].
  - rewrite <- Hlen. apply length_filter.
  - intros r. destruct Hst as (_ & _ & He). destruct (He r) as (Hx & Hy & _).
    unfold position. simpl. by rewrite Hx, Hy.
Qed.

(** The player's dart in the duel: one call moves it onto the orc's cell,
    the orc loses 2 hp, the hit is logged and the dart stays in the list. *)
Lemma update_projectiles_purges_witness :
  hp_of (set_active_projectiles [dart] duel) 1 = 10
  ∧ hp_of (engine.update_projectiles (set_active_projectiles [dart] duel)) 1 = 8
  ∧ text <$> message_log (engine.update_projectiles (set_active_projectiles [dart] duel))
    = ["The projectile hits orc for 2 damage!"]
  ∧ Projectile.distance_travelled
      <$> active_projectiles (engine.update_projectiles (set_active_projectiles [dart] duel))
    = [1].
Proof.
  destruct (update_projectiles_purges (set_active_projectiles [dart] duel)) as (-> & _).
  split; [reflexivity |]. split; [reflexivity |]. split; reflexivity.
Defined.

Lemma update_projectiles_bound (n : nat) (w : World) :
  (∀ p, p ∈ active_projectiles w → (frames_left p ≤ S n)%nat) →
  ∀ p, p ∈ active_projectiles (engine.update_projectiles w) →
       Projectile.done p = false ∧ (frames_left p ≤ n)%nat.
Proof.
  intros Hbound p. unfold engine.update_projectiles. rewrite update_projectiles_fold.
  rewrite app_nil_l.
  pose proof (run_frames_members (active_projectiles w) w p) as Hmem.
  destruct (run_frames (active_projectiles w) w) as [ps w'']. simpl in *.
  intros Hin. apply list_elem_of_filter in Hin as [Hd Hin]. split; [done |].
  destruct (Hmem Hin) as (p0 & w0 & Hp0 & ->).
  pose proof (update_frames_left p0 w0). specialize (Hbound p0 Hp0). lia.
Qed.

Lemma projectile_frames_drain (envs : list (World → World)) (w : World) :
  (∀ env w0, env ∈ envs → active_projectiles (env w0) = active_projectiles w0) →
  (∀ p, p ∈ active_projectiles w →
        Projectile.done p = false ∧ (frames_left p ≤ length envs)%nat) →
  active_projectiles (projectile_frames envs w) = [].
Proof.
  revert w. induction envs as [|env envs IH]; intros w Henv Hbound; simpl.
  - destruct (active_projectiles w) as [|p l]; [done |].
    destruct (Hbound p) as [Hd Hfl]; [apply list_elem_of_here |].
    unfold frames_left in Hfl. rewrite Hd in Hfl. simpl in Hfl.
    destruct (is_expanding p); lia.
  - apply IH.
    + intros env' w0 Hin. apply Henv. by apply list_elem_of_further.
    + apply update_projectiles_bound. rewrite Henv by apply list_elem_of_here.
      intros p Hp. by apply Hbound.
Qed.

(** X7.  No projectile lives forever: if the rest of the game leaves the
    projectile list alone, then after as many calls of [update_projectiles]
    as the largest [frames_left] of the list (at least one call) the list
    is empty, whatever else happens to the world between the calls. *)
Theorem update_projectiles_drains (envs : list (World → World)) (w : World) :
  (∀ env w0, env ∈ envs → active_projectiles (env w0) = active_projectiles w0) →
  (1 ≤ length envs)%nat →
  (∀ p, p ∈ active_projectiles w → (frames_left p ≤ length envs)%nat) →
  active_projectiles (projectile_frames envs w) = [].
Proof.
  intros Henv Hlen Hbound. destruct envs as [|env envs]; [simpl in Hlen; lia |].
  simpl. apply projectile_frames_drain.
  - intros env' w0 Hin. apply Henv. by apply list_elem_of_further.
  - apply update_projectiles_bound. rewrite Henv by apply list_elem_of_here.
    intros p Hp. by apply Hbound.
Qed.

Lemma update_projectiles_drains_witness :
  frames_left dart = 3%nat
  ∧ active_projectiles
      (projectile_frames [id; take_damage 1 2; id] (set_active_projectiles [dart] duel))
    = [].
Proof.
  split; [reflexivity |].
  apply update_projectiles_drains.
  - intros env w0 Hin.
    repeat (apply elem_of_cons in Hin as [-> | Hin]; [reflexivity |]).
    by apply elem_of_nil in Hin.
  - simpl. lia.
  - intros p Hp. apply list_elem_of_singleton in Hp as ->. vm_compute. lia.
Defined.

(** ** Invariants of actions and decision ticks *)

Lemma keeps_ret {A : Type} (P : World → Prop) (a : A) : keeps P (mret a).
Proof. by intros w HP. Qed.

Lemma keeps_gets {A : Type} (P : World → Prop) (f : World → A) : keeps P (gets f).
Proof. by intros w HP. Qed.

Lemma keeps_raise {A : Type} (P : World → Prop) (e : Exception) :
  keeps P (raise e : M A).
Proof. by intros w HP. Qed.

Lemma keeps_modify (P : World → Prop) (f : World → World) :
  (∀ w, P w → P (f w)) → keeps P (modify f).
Proof. intros Hf w HP. by apply Hf. Qed.

Lemma keeps_bind {A B : Type} (P : World → Prop) (m : M A) (k : A → M B) :
  keeps P m → (∀ a, keeps P (k a)) → keeps P (m ≫= k).
Proof.
  intros Hm Hk w HP. specialize (Hm w HP). unfold mbind, M_bind.
  destruct (m w) as [w' [a | e]]; [by apply Hk | done].
Qed.

Lemma keeps_when (P : World → Prop) (b : bool) (m : M unit) :
  keeps P m → keeps P (when b m).
Proof. intros Hm. destruct b; [done | apply keeps_ret]. Qed.

Ltac keeps_tac :=
  repeat first
    [ match goal with
      | |- keeps _ (mret _) => apply keeps_ret
      | |- keeps _ (actions.WaitAction_perform _) => apply keeps_ret
      | |- keeps _ (gets _) => apply keeps_gets
      | |- keeps _ (raise _) => apply keeps_raise
      | |- keeps _ (mbind _ _) => apply keeps_bind; [| intros ?]
      | |- keeps _ (when _ _) => apply keeps_when
      | |- keeps _ (if ?c then _ else _) => destruct c
      | |- keeps _ (let '(_, _) := ?c in _) => destruct c
      end
    | progress cbv zeta ].

Section TickInvariant.

Variable P : World → Prop.
Variable entity : nat.

Hypothesis P_ai : ∀ a w, P w → P (update_entity entity (set_ai a) w).
Hypothesis P_message : ∀ t c w, P w → P (add_message t c w).
Hypothesis P_projectile : ∀ p w, P w → P (strategies.append_projectile p w).
Hypothesis P_buffs : ∀ w, P w → P (update_temporary_buffs entity w).
Hypothesis P_damage : ∀ t amount w, 0 < amount → P w → P (take_damage t amount w).
Hypothesis P_move : ∀ dx dy w,
  P w →
  destination_clear w (actions.dest_xy entity dx dy w).1 (actions.dest_xy entity dx dy w).2 →
  P (Entity_move entity dx dy w).

Lemma MovementAction_keeps (dx dy : Z) :
  keeps P (actions.MovementAction_perform entity dx dy).
Proof.
  intros w HP.
  destruct (MovementAction_perform_cases w entity dx dy) as [[Hc ->] | [_ ->]];
    [by apply P_move | done].
Qed.

Lemma MeleeAction_keeps (dx dy : Z) :
  keeps P (actions.MeleeAction_perform entity dx dy).
Proof.
  intros w HP. destruct (actions.target_actor entity dx dy w) as [target|] eqn:Ht.
  - rewrite (MeleeAction_perform_target _ _ _ _ _ Ht). cbv zeta.
    set (damage := power (heap w entity) - defense (heap w target)).
    assert (P (add_message (text (attack_message w entity target damage))
                           (fg (attack_message w entity target damage))
                           (update_temporary_buffs entity w))) as HP2
      by by apply P_message, P_buffs.
    destruct (0 <? damage) eqn:Hd; cbn [fst]; [| exact HP2].
    apply P_damage; [by apply Z.ltb_lt | exact HP2].
  - by rewrite MeleeAction_perform_no_target.
Qed.

Lemma BumpAction_keeps (dx dy : Z) :
  keeps P (actions.BumpAction_perform entity dx dy).
Proof.
  intros w HP. unfold actions.BumpAction_perform. run_M.
  destruct (actions.target_actor entity dx dy w);
    [by apply MeleeAction_keeps | by apply MovementAction_keeps].
Qed.

Lemma write_self_keeps (a : AI) : keeps P (strategies.write_self entity a).
Proof. apply keeps_modify. intros w. apply P_ai. Qed.

Lemma follow_path_keeps (with_path : list (Z * Z) → AI) (path : list (Z * Z)) :
  keeps P (strategies.follow_path entity with_path path).
Proof.
  unfold strategies.follow_path. destruct path as [|[dest_x dest_y] rest].
  - apply keeps_ret.
  - apply keeps_bind; [apply write_self_keeps | intros _].
    keeps_tac. apply MovementAction_keeps.
Qed.

Lemma ConfusedEnemy_keeps (previous_ai : option AI) (turns_remaining : Z) (rnd : nat) :
  keeps P (ai.ConfusedEnemy_perform entity previous_ai turns_remaining rnd).
Proof.
  unfold ai.ConfusedEnemy_perform. keeps_tac.
  - apply keeps_modify. intros w. apply P_message.
  - apply keeps_modify. intros w. apply P_ai.
  - apply keeps_modify. intros w. apply P_ai.
  - apply BumpAction_keeps.
Qed.

Lemma ParalyzedEnemy_keeps (previous_ai : option AI) (turns_remaining : Z) :
  keeps P (ai.ParalyzedEnemy_perform entity previous_ai turns_remaining).
Proof.
  unfold ai.ParalyzedEnemy_perform. keeps_tac.
  - apply keeps_modify. intros w. apply P_message.
  - apply keeps_modify. intros w. apply P_ai.
  - apply keeps_modify. intros w. apply P_ai.
Qed.

Lemma RangedEnemy_throw_projectile_keeps :
  keeps P (strategies.RangedEnemy_throw_projectile entity).
Proof.
  unfold strategies.RangedEnemy_throw_projectile. keeps_tac.
  - apply keeps_modify. intros w. apply P_projectile.
  - apply keeps_modify. intros w. apply P_message.
Qed.

Lemma BossAI_special_attack_keeps : keeps P (strategies.BossAI_special_attack entity).
Proof.
  unfold strategies.BossAI_special_attack. keeps_tac.
  - apply keeps_modify. intros w. apply P_projectile.
  - apply keeps_modify. intros w. apply P_message.
Qed.

Lemma HostileEnemyWithProjectile_throw_projectile_keeps
    (scale10 : Z → Z → Z → Z) (projectile_range : Z) :
  keeps P (strategies.HostileEnemyWithProjectile_throw_projectile scale10 entity
             projectile_range).
Proof.
  unfold strategies.HostileEnemyWithProjectile_throw_projectile. keeps_tac.
  - apply keeps_modify. intros w. apply P_projectile.
  - apply keeps_modify. intros w. apply P_message.
Qed.

Ltac keeps_leaf :=
  first [ apply write_self_keeps | apply follow_path_keeps | apply MeleeAction_keeps
        | apply MovementAction_keeps | apply RangedEnemy_throw_projectile_keeps
        | apply BossAI_special_attack_keeps
        | apply HostileEnemyWithProjectile_throw_projectile_keeps ].

Lemma perform_keeps (path_to : (Z → Z → Z) → Z * Z → Z * Z → list (Z * Z))
    (scale10 : Z → Z → Z → Z) (rnd : nat) (coin : bool) :
  keeps P (strategies.perform path_to scale10 rnd coin entity).
Proof.
  intros w HP. unfold strategies.perform.
  destruct (ai (heap w entity)) as [[path | prev n | prev n | path rng cd | path pd cd |
                                     | path cd] |]; [.. | done].
  - revert w HP. change (keeps P (strategies.HostileEnemy_perform path_to entity path)).
    unfold strategies.HostileEnemy_perform. keeps_tac; keeps_leaf.
  - by apply ConfusedEnemy_keeps.
  - by apply ParalyzedEnemy_keeps.
  - revert w HP.
    change (keeps P (strategies.HostileEnemyWithProjectile_perform
                       path_to scale10 entity path rng cd coin)).
    unfold strategies.HostileEnemyWithProjectile_perform, actions.WaitAction_perform.
    keeps_tac; keeps_leaf.
  - revert w HP.
    change (keeps P (strategies.RangedEnemy_perform path_to entity path pd cd)).
    unfold strategies.RangedEnemy_perform, actions.WaitAction_perform.
    keeps_tac; keeps_leaf.
  - done.
  - revert w HP. change (keeps P (strategies.BossAI_perform path_to entity path cd coin)).
    unfold strategies.BossAI_perform, actions.WaitAction_perform.
    keeps_tac; keeps_leaf.
Qed.

End TickInvariant.

(** ** Layout and placement *)

Lemma well_placedb_spec (w : World) : well_placedb w = true ↔ well_placed w.
Proof.
  unfold well_placedb, well_placed.
  rewrite andb_true_iff, !forallb_forall. split.
  - intros [H1 H2]. split.
    + intros r Hr Hb. apply list_elem_of_In in Hr. specialize (H1 r Hr).
      rewrite Hb in H1. simpl in H1. by apply andb_true_iff in H1.
    + intros r1 r2 Hr1 Hr2 Hb1 Hb2 Hpos.
      apply list_elem_of_In in Hr1, Hr2. specialize (H2 r1 Hr1).
      rewrite forallb_forall in H2. specialize (H2 r2 Hr2).
      rewrite Hb1, Hb2 in H2. simpl in H2.
      assert (at_cell w (x (heap w r1)) (y (heap w r1)) r2 = true) as Hat
        by (apply at_cell_true; unfold position in Hpos; congruence).
      rewrite Hat in H2. simpl in H2. by apply Nat.eqb_eq.
  - intros [H1 H2]. split.
    + intros r Hr. apply list_elem_of_In in Hr.
      destruct (blocks_movement (heap w r)) eqn:Hb; [| done]. simpl.
      destruct (H1 r Hr Hb) as [-> ->]. done.
    + intros r1 Hr1. apply forallb_forall. intros r2 Hr2.
      apply list_elem_of_In in Hr1, Hr2.
      destruct (blocks_movement (heap w r1)) eqn:Hb1; [| done].
      destruct (blocks_movement (heap w r2)) eqn:Hb2; [| done].
      destruct (at_cell w (x (heap w r1)) (y (heap w r1)) r2) eqn:Hat; [| done].
      simpl. apply Nat.eqb_eq. apply H2; try done.
      apply at_cell_true in Hat. unfold position. congruence.
Qed.

Lemma same_layout_refl (w : World) : same_layout w w.
Proof. by repeat split. Qed.

Lemma same_layout_trans (w1 w2 w3 : World) :
  same_layout w1 w2 → same_layout w2 w3 → same_layout w1 w3.
Proof.
  intros (Hg & Hp & He) (Hg' & Hp' & He'). split_and!; [congruence | congruence |].
  intros r. destruct (He r) as (? & ? & ?), (He' r) as (? & ? & ?).
  split_and!; congruence.
Qed.

Lemma same_layout_fighter (r : nat) (f : Entity.t → Fighter) (w : World) :
  same_layout w (update_entity r (λ e, set_fighter (f e) e) w).
Proof.
  split_and!; [done | done |]. intros r'. unfold position, update_entity, store. simpl.
  destruct (Nat.eqb r' r) eqn:E; [| done]. by apply Nat.eqb_eq in E as ->.
Qed.

Lemma same_layout_ai (r : nat) (a : option AI) (w : World) :
  same_layout w (update_entity r (set_ai a) w).
Proof.
  split_and!; [done | done |]. intros r'. unfold position, update_entity, store. simpl.
  destruct (Nat.eqb r' r) eqn:E; [| done]. by apply Nat.eqb_eq in E as ->.
Qed.

Lemma same_layout_take_damage (t : nat) (amount : Z) (w : World) :
  same_layout w (take_damage t amount w).
Proof. apply (same_layout_fighter t (λ e, set_hp (hp (fighter e) - amount) (fighter e))). Qed.

Lemma same_layout_buffs (entity : nat) (w : World) :
  same_layout w (update_temporary_buffs entity w).
Proof.
  unfold update_temporary_buffs.
  destruct (refresh_buffs _ _ _) as [[kept f'] log'].
  apply (same_layout_fighter entity (λ _, set_temporary_buffs kept f')).
Qed.

Lemma same_stage_layout (w w' : World) :
  same_stage w w' → (∀ r, blocks_movement (heap w' r) = blocks_movement (heap w r)) →
  same_layout w w'.
Proof.
  intros (Hg & Hp & He) Hb. split_and!; [done | done |]. intros r.
  destruct (He r) as (Hx & Hy & Ha & _). unfold position. by rewrite Hx, Hy, Ha, Hb.
Qed.

Lemma well_placed_layout (w w' : World) :
  same_layout w w' → well_placed w → well_placed w'.
Proof.
  intros (Hg & _ & He) [Hin Hno]. split.
  - intros r Hr Hb. rewrite Hg in *. destruct (He r) as (Hpos & Hbl & _).
    unfold position in Hpos. injection Hpos as -> ->. apply Hin; congruence.
  - intros r1 r2 Hr1 Hr2 Hb1 Hb2 Hpos. rewrite Hg in *.
    destruct (He r1) as (Hp1 & Hbl1 & _), (He r2) as (Hp2 & Hbl2 & _).
    apply Hno; congruence.
Qed.

(** A step to a clear destination keeps the blocking entities apart. *)
Lemma well_placed_move (entity : nat) (dx dy : Z) (w : World) :
  well_placed w →
  destination_clear w (actions.dest_xy entity dx dy w).1 (actions.dest_xy entity dx dy w).2 →
  well_placed (Entity_move entity dx dy w).
Proof.
  intros [Hin Hno] (Hinb & Hwalk & Hfree). simpl in Hinb, Hwalk, Hfree.
  assert (∀ r, r ≠ entity → heap (Entity_move entity dx dy w) r = heap w r) as Hother
    by (intros r Hr; by apply store_other).
  assert (heap (Entity_move entity dx dy w) entity
          = set_xy (x (heap w entity) + dx) (y (heap w entity) + dy) (heap w entity))
    as Hself by apply store_same.
  split.
  - intros r Hr Hb. change (game_map (Entity_move entity dx dy w)) with (game_map w) in *.
    destruct (decide (r = entity)) as [-> | Hne].
    + rewrite Hself. simpl. done.
    + rewrite Hother in * by done. by apply Hin.
  - intros r1 r2 Hr1 Hr2 Hb1 Hb2 Hpos.
    change (game_map (Entity_move entity dx dy w)) with (game_map w) in *.
    unfold position in Hpos.
    destruct (decide (r1 = entity)) as [-> | Hne1], (decide (r2 = entity)) as [-> | Hne2];
      try done.
    + rewrite Hself in Hpos. rewrite !Hother in * by done. simpl in Hpos.
      exfalso. by apply (Hfree r2).
    + rewrite Hself in Hpos. rewrite !Hother in * by done. simpl in Hpos.
      exfalso. by apply (Hfree r1).
    + rewrite !Hother in * by done. by apply Hno.
Qed.

Lemma check_collision_layout (p : Projectile.t) (cx cy : Z) (w : World) :
  same_layout w (projectiles.check_collision p cx cy w).1.2.
Proof.
  unfold projectiles.check_collision.
  destruct (negb (in_bounds (game_map w) cx cy)); [apply same_layout_refl |].
  destruct (get_actor_at_location w cx cy) as [t|]; [| apply same_layout_refl].
  destruct (bool_decide (t ∉ Projectile.hit_actors p)); [| apply same_layout_refl].
  destruct (Nat.eqb t (Projectile.actor p) && negb (Projectile.can_hit_self p));
    [apply same_layout_refl |].
  cbv zeta. destruct (0 <? _); cbn [fst snd]; [| by repeat split].
  eapply same_layout_trans; [| apply same_layout_take_damage]. by repeat split.
Qed.

Lemma fold_layout {C : Type} (f : Projectile.t * World → C → Projectile.t * World) :
  (∀ s c, same_layout s.2 (f s c).2) →
  ∀ l s, same_layout s.2 (fold_left f l s).2.
Proof.
  intros Hf l. induction l as [|c l IH]; intros s; simpl; [apply same_layout_refl |].
  eapply same_layout_trans; [apply Hf | apply IH].
Qed.

Lemma check_cells_layout (cells : list (Z * Z)) (p : Projectile.t) (w : World) :
  same_layout w (projectiles.check_cells cells p w).2.
Proof.
  apply (fold_layout _ (λ s c, check_collision_layout s.1 c.1 c.2 s.2) cells (p, w)).
Qed.

Lemma check_around_actor_layout (offs : list (Z * Z)) (p : Projectile.t) (w : World) :
  same_layout w (projectiles.check_around_actor offs p w).2.
Proof.
  apply (fold_layout projectiles.ring_round
           (λ s o, check_collision_layout s.1 _ _ s.2) offs (p, w)).
Qed.

(** A frame of a projectile leaves every object where it is. *)
Lemma update_layout (p : Projectile.t) (w : World) :
  same_layout w (projectiles.update p w).2.
Proof.
  unfold projectiles.update.
  destruct (Projectile.cls p) as [| f | radius | |].
  1, 2: unfold projectiles.Projectile_update, projectiles.move;
    destruct (negb (Projectile.done p)); [| apply same_layout_refl];
    cbv zeta;
    match goal with
    | |- context [in_bounds ?g ?a ?b] => destruct (in_bounds g a b)
    end;
    [ match goal with
      | |- context [projectiles.check_collision ?q ?a ?b ?v] =>
        pose proof (check_collision_layout q a b v) as H;
        destruct (projectiles.check_collision q a b v) as [[p2 w2] b2]
      end;
      cbn [fst snd] in H;
      destruct (negb (walkable _ _ _)); [exact H |];
      by destruct (negb _ || _)
    | destruct (negb _ || _); apply same_layout_refl ].
  - unfold projectiles.ShockwaveProjectile_update.
    destruct (Projectile.done p); [apply same_layout_refl |].
    cbv zeta. destruct (_ <? _); [apply same_layout_refl |].
    apply check_around_actor_layout.
  - unfold projectiles.CrossProjectile_update.
    destruct (Projectile.done p); [apply same_layout_refl |].
    cbv zeta. destruct (_ <? _); [apply same_layout_refl |].
    match goal with
    | |- context [let '(_, _) := projectiles.check_cells ?c ?q ?v in _] =>
      pose proof (check_cells_layout c q v) as H;
      destruct (projectiles.check_cells c q v) as [p2 w2]
    end.
    eapply same_layout_trans; [exact H | apply check_cells_layout].
  - unfold projectiles.DiagonalProjectile_update.
    destruct (Projectile.done p); [apply same_layout_refl |].
    cbv zeta. destruct (_ <? _); [apply same_layout_refl |].
    apply check_cells_layout.
Qed.

Lemma run_frames_layout (l : list Projectile.t) (w : World) :
  same_layout w (run_frames l w).2.
Proof.
  revert w. induction l as [|p l IH]; intros w; simpl; [apply same_layout_refl |].
  pose proof (update_layout p w) as Hup.
  destruct (projectiles.update p w) as [q w'].
  specialize (IH w'). destruct (run_frames l w') as [ps w'']. simpl in *.
  eapply same_layout_trans; [exact Hup | exact IH].
Qed.

Lemma update_projectiles_layout (w : World) :
  same_layout w (engine.update_projectiles w).
Proof.
  unfold engine.update_projectiles. rewrite update_projectiles_fold.
  pose proof (run_frames_layout (active_projectiles w) w) as H.
  destruct (run_frames (active_projectiles w) w) as [ps w'']. simpl in *.
  destruct H as (Hg & Hp & He). by split_and!.
Qed.

(** ** The enemy phase *)

Lemma enemy_turns_keep (P : World → Prop) (f : nat → M unit) (l : list nat) (w : World) :
  (∀ e, e ∈ l → keeps P (f e)) → P w →
  P (fold_left (λ w entity, if truthy (ai (heap w entity)) then (f entity w).1 else w)
               l w).
Proof.
  revert w. induction l as [|e l IH]; intros w Hk HP; simpl; [done |].
  apply IH.
  - intros e' He'. apply Hk. by apply list_elem_of_further.
  - destruct (truthy (ai (heap w e))); [| done]. apply Hk; [apply list_elem_of_here | done].
Qed.

Lemma well_placed_tick (path_to : (Z → Z → Z) → Z * Z → Z * Z → list (Z * Z))
    (scale10 : Z → Z → Z → Z) (rnd : nat) (coin : bool) (entity : nat) :
  keeps well_placed (strategies.perform path_to scale10 rnd coin entity).
Proof.
  apply perform_keeps.
  - intros a w. apply well_placed_layout, same_layout_ai.
  - intros t c w. apply well_placed_layout. by repeat split.
  - intros p w. apply well_placed_layout. by repeat split.
  - intros w. apply well_placed_layout, same_layout_buffs.
  - intros t amount w _. apply well_placed_layout, same_layout_take_damage.
  - intros dx dy w. apply well_placed_move.
Qed.

(** X8.  The blocking entities of the map stay inside the map, on
    walkable tiles and on cells of their own through every Movement,
    Melee and Bump action, every decision tick of any strategy, every
    enemy phase and every projectile update. *)
Theorem well_placed_is_kept
    (path_to : (Z → Z → Z) → Z * Z → Z * Z → list (Z * Z))
    (scale10 : Z → Z → Z → Z) (w : World) :
  well_placed w →
  (∀ entity dx dy,
     well_placed (actions.MovementAction_perform entity dx dy w).1
     ∧ well_placed (actions.MeleeAction_perform entity dx dy w).1
     ∧ well_placed (actions.BumpAction_perform entity dx dy w).1)
  ∧ (∀ rnd coin entity,
       well_placed (strategies.perform path_to scale10 rnd coin entity w).1)
  ∧ (∀ set_order draws,
       well_placed (engine.handle_enemy_turns set_order
                      (ai_perform path_to scale10 draws) w))
  ∧ well_placed (engine.update_projectiles w).
Proof.
  intros Hw.
  assert (∀ entity,
            (∀ a w, well_placed w → well_placed (update_entity entity (set_ai a) w))
            ∧ (∀ w, well_placed w → well_placed (update_temporary_buffs entity w))
            ∧ (∀ dx dy w, well_placed w →
                 destination_clear w (actions.dest_xy entity dx dy w).1
                                   (actions.dest_xy entity dx dy w).2 →
                 well_placed (Entity_move entity dx dy w))) as Hent.
  { intros entity. split_and!.
    - intros a w0. apply well_placed_layout, same_layout_ai.
    - intros w0. apply well_placed_layout, same_layout_buffs.
    - intros dx dy w0. apply well_placed_move. }
  assert (∀ t c w, well_placed w → well_placed (add_message t c w)) as Hmsg
    by (intros t c w0; apply well_placed_layout; by repeat split).
  assert (∀ t amount w, 0 < amount → well_placed w → well_placed (take_damage t amount w))
    as Hdmg by (intros t amount w0 _; apply well_placed_layout, same_layout_take_damage).
  split_and!.
  - intros entity dx dy. destruct (Hent entity) as (Hai & Hbuffs & Hmove). split_and!.
    + by apply (MovementAction_keeps well_placed entity Hmove).
    + by apply (MeleeAction_keeps well_placed entity Hmsg Hbuffs Hdmg).
    + by apply (BumpAction_keeps well_placed entity Hmsg Hbuffs Hdmg Hmove).
  - intros rnd coin entity. by apply well_placed_tick.
  - intros set_order draws. unfold engine.handle_enemy_turns.
    apply enemy_turns_keep; [| done]. intros e _. apply well_placed_tick.
  - apply (well_placed_layout w); [apply update_projectiles_layout | done].
Qed.

Lemma well_placed_is_kept_witness :
  well_placed courtyard
  ∧ well_placed (actions.BumpAction_perform 2 1 0 courtyard).1
  ∧ well_placed (engine.handle_enemy_turns id
                   (ai_perform (λ _ root dest, [root; dest]) (λ d _ _, d) (λ _, (0%nat, true)))
                   courtyard).
Proof.
  assert (well_placed courtyard) as Hw by (apply well_placedb_spec; reflexivity).
  destruct (well_placed_is_kept (λ _ root dest, [root; dest]) (λ d _ _, d) courtyard Hw)
    as (Hact & _ & Hphase & _).
  split; [exact Hw |]. split; [apply Hact | apply Hphase].
Defined.

Lemma refresh_buffs_log (bs : list (string * Buff)) (f : Fighter) (log : list Message) :
  ∃ l, (refresh_buffs bs f log).2 = log ++ l.
Proof.
  revert f log. induction bs as [|[k b] bs IH]; intros f log; simpl.
  - exists []. by rewrite app_nil_r.
  - destruct (turns_left b - 1 <=? 0).
    + destruct (IH (run_on_expire (on_expire b) f)
                   (log ++ [{| text := message b; fg := color b |}])) as [l Hl].
      exists ({| text := message b; fg := color b |} :: l).
      rewrite Hl. by rewrite <- app_assoc.
    + specialize (IH f log). destruct (refresh_buffs bs f log) as [[kept f'] log'].
      done.
Qed.

Lemma update_temporary_buffs_log (entity : nat) (w : World) :
  ∃ l, message_log (update_temporary_buffs entity w) = message_log w ++ l.
Proof.
  unfold update_temporary_buffs.
  destruct (refresh_buffs_log (temporary_buffs (fighter (heap w entity)))
              (fighter (heap w entity)) (message_log w)) as [l Hl].
  destruct (refresh_buffs _ _ _) as [[kept f'] log']. by exists l.
Qed.

Lemma update_temporary_buffs_projectiles (entity : nat) (w : World) :
  active_projectiles (update_temporary_buffs entity w) = active_projectiles w.
Proof.
  unfold update_temporary_buffs. by destruct (refresh_buffs _ _ _) as [[kept f'] log'].
Qed.

Lemma update_temporary_buffs_other (entity r : nat) (w : World) :
  r ≠ entity → heap (update_temporary_buffs entity w) r = heap w r.
Proof.
  intros Hne. unfold update_temporary_buffs.
  destruct (refresh_buffs _ _ _) as [[kept f'] log']. simpl. by apply store_other.
Qed.

Lemma stays_put_refl (r : nat) (w : World) : stays_put r w w.
Proof. by split. Qed.

(** A decision tick of [entity] leaves every other object where it is. *)
Lemma stays_put_tick (path_to : (Z → Z → Z) → Z * Z → Z * Z → list (Z * Z))
    (scale10 : Z → Z → Z → Z) (rnd : nat) (coin : bool) (entity r : nat) (w0 : World) :
  r ≠ entity →
  keeps (stays_put r w0) (strategies.perform path_to scale10 rnd coin entity).
Proof.
  intros Hne. apply perform_keeps.
  - intros a w (Hp & Hpos). split; [done |].
    rewrite <- Hpos. unfold position, update_entity. simpl. by rewrite store_other.
  - by intros t c w.
  - by intros p w.
  - intros w (Hp & Hpos).
    destruct (same_layout_buffs entity w) as (_ & Hp' & _).
    split; [congruence |].
    rewrite <- Hpos. unfold position. by rewrite update_temporary_buffs_other.
  - intros t amount w _ (Hp & Hpos).
    destruct (same_layout_take_damage t amount w) as (_ & Hp' & He).
    destruct (He r) as (Hpos' & _). split; congruence.
  - intros dx dy w (Hp & Hpos) _. split; [done |].
    rewrite <- Hpos. unfold position, Entity_move, update_entity. simpl.
    by rewrite store_other.
Qed.

(** A decision tick raises nobody's hp. *)
Lemma hp_le_tick (path_to : (Z → Z → Z) → Z * Z → Z * Z → list (Z * Z))
    (scale10 : Z → Z → Z → Z) (rnd : nat) (coin : bool) (entity r : nat) (h : Z) :
  keeps (λ w, hp_of w r ≤ h) (strategies.perform path_to scale10 rnd coin entity).
Proof.
  apply perform_keeps.
  - intros a w Hle. unfold hp_of, update_entity, store in *. simpl.
    by destruct (Nat.eqb r entity) eqn:E; [apply Nat.eqb_eq in E as -> |].
  - by intros t c w.
  - by intros p w.
  - intros w Hle. unfold hp_of. by rewrite update_temporary_buffs_hp.
  - intros t amount w Hpos Hle. unfold hp_of in *. rewrite take_damage_hp.
    destruct (Nat.eqb r t); lia.
  - intros dx dy w Hle _. unfold hp_of, Entity_move, update_entity, store in *. simpl.
    by destruct (Nat.eqb r entity) eqn:E; [apply Nat.eqb_eq in E as -> |].
Qed.

(** A decision tick only appends to the log and to the projectile list. *)
Lemma only_appended_tick (path_to : (Z → Z → Z) → Z * Z → Z * Z → list (Z * Z))
    (scale10 : Z → Z → Z → Z) (rnd : nat) (coin : bool) (entity : nat) (w0 : World) :
  keeps (only_appended w0) (strategies.perform path_to scale10 rnd coin entity).
Proof.
  apply perform_keeps.
  - by intros a w.
  - intros t c w [[l Hl] Hps]. split; [| done].
    exists (l ++ [{| text := t; fg := c |}]). simpl. rewrite Hl. by rewrite <- app_assoc.
  - intros p w [Hl [ps Hps]]. split; [done |].
    exists (ps ++ [p]). simpl. rewrite Hps. by rewrite <- app_assoc.
  - intros w [[l Hl] Hps]. split.
    + destruct (update_temporary_buffs_log entity w) as [l' Hl'].
      exists (l ++ l'). rewrite Hl', Hl. by rewrite <- app_assoc.
    + by rewrite update_temporary_buffs_projectiles.
  - by intros t amount w _.
  - by intros dx dy w.
Qed.

Lemma enemy_phase_visiting_keeps (P : World → Prop) (visited : World → nat → bool)
    (f : nat → M unit) (l : list nat) (w : World) :
  (∀ e, e ∈ l → keeps P (f e)) → P w →
  P (fold_left (λ w entity,
                  if visited w entity && truthy (ai (heap w entity))
                  then (f entity w).1 else w) l w).
Proof.
  revert w. induction l as [|e l IH]; intros w Hk HP; simpl; [done |].
  apply IH.
  - intros e' He'. apply Hk. by apply list_elem_of_further.
  - destruct (visited w e && truthy (ai (heap w e))); [| done].
    apply Hk; [apply list_elem_of_here | done].
Qed.

(** X9.  A decision tick of an actor, whatever its strategy and the draws,
    moves no other object, leaves the player reference alone, raises
    nobody's hp, and only appends to the log and to the projectile list.
    An enemy phase, which skips the player, therefore leaves the player
    where it stands, raises nobody's hp and only appends to the log and to
    the projectile list; this holds in whichever order the actors come
    and whichever of them are given their turn, so also when an actor
    killed earlier in the pass is passed over. *)
Theorem enemy_phase_spares_the_player
    (path_to : (Z → Z → Z) → Z * Z → Z * Z → list (Z * Z))
    (scale10 : Z → Z → Z → Z) (set_order : list nat → list nat)
    (draws : nat → nat * bool) (w : World) :
  (∀ l, set_order l ⊆ l) →
  (∀ rnd coin entity,
     let w1 := (strategies.perform path_to scale10 rnd coin entity w).1 in
     (∀ r, r ≠ entity → stays_put r w w1)
     ∧ (∀ r, hp_of w1 r ≤ hp_of w r)
     ∧ only_appended w w1)
  ∧ (let w' := engine.handle_enemy_turns set_order (ai_perform path_to scale10 draws) w in
     stays_put (player w) w w'
     ∧ (∀ r, hp_of w' r ≤ hp_of w r)
     ∧ only_appended w w')
  ∧ (∀ visited,
       let w' := enemy_phase_visiting visited set_order
                   (ai_perform path_to scale10 draws) w in
       stays_put (player w) w w'
       ∧ (∀ r, hp_of w' r ≤ hp_of w r)
       ∧ only_appended w w').
Proof.
  intros Hsub.
  assert (∀ visited,
            let w' := enemy_phase_visiting visited set_order
                        (ai_perform path_to scale10 draws) w in
            stays_put (player w) w w'
            ∧ (∀ r, hp_of w' r ≤ hp_of w r)
            ∧ only_appended w w') as Hphase.
  { intros visited. cbv zeta. unfold enemy_phase_visiting. split_and!.
    - apply enemy_phase_visiting_keeps; [| apply stays_put_refl].
      intros e He. apply stays_put_tick. apply Hsub in He.
      apply list_elem_of_difference in He as [_ Hnot]. intros Heq. apply Hnot.
      rewrite <- Heq. apply list_elem_of_here.
    - intros r.
      apply (enemy_phase_visiting_keeps (λ w', hp_of w' r ≤ hp_of w r)); [| done].
      intros e _. apply hp_le_tick.
    - apply enemy_phase_visiting_keeps; [| split; exists []; by rewrite app_nil_r].
      intros e _. apply only_appended_tick. }
  split_and!.
  - intros rnd coin entity. cbv zeta. split_and!.
    + intros r Hne. apply stays_put_tick; [done | apply stays_put_refl].
    + intros r. by apply (hp_le_tick path_to scale10 rnd coin entity r (hp_of w r)).
    + apply only_appended_tick. split; exists []; by rewrite app_nil_r.
  - exact (Hphase (λ _ _, true)).
  - exact Hphase.
Qed.

(** An enemy phase in the courtyard: the wizard fires at the player, the
    guard's step onto the player's cell is refused, and the player stands
    where it stood. *)
Lemma enemy_phase_spares_the_player_witness :
  stays_put 0 courtyard
    (engine.handle_enemy_turns id
       (ai_perform (λ _ root dest, [root; dest]) (λ d _ _, d) (λ _, (0%nat, true)))
       courtyard)
  ∧ length (active_projectiles
              (engine.handle_enemy_turns id
                 (ai_perform (λ _ root dest, [root; dest]) (λ d _ _, d)
                             (λ _, (0%nat, true)))
                 courtyard)) = 1%nat.
Proof.
  split; [| reflexivity].
  assert (∀ l : list nat, id l ⊆ l) as Hsub by (by intros l r Hr).
  destruct (enemy_phase_spares_the_player
              (λ _ root dest, [root; dest]) (λ d _ _, d) id (λ _, (0%nat, true))
              courtyard Hsub) as (_ & (Hput & _) & _).
  exact Hput.
Defined.

(** ** The seeking strategies out of view *)

Lemma destination_clear_layout (w w' : World) (cx cy : Z) :
  same_layout w w' → walkable (game_map w') = walkable (game_map w) →
  destination_clear w cx cy ↔ destination_clear w' cx cy.
Proof.
  intros (Hg & _ & He) _. unfold destination_clear. rewrite Hg.
  split; intros (Hin & Hwalk & Hfree); split_and!; try done; intros r Hr Hb Hpos;
    destruct (He r) as (Hp & Hbl & _); unfold position in Hp;
    apply (Hfree r Hr); congruence.
Qed.

(** What following the cached path does: the head of the path is taken
    off, and the actor is put on that cell if the cell is clear. *)
Lemma follow_path_cases (entity : nat) (with_path : list (Z * Z) → AI)
    (path : list (Z * Z)) (w : World) :
  match path with
  | [] => strategies.follow_path entity with_path path w = (w, Ok tt)
  | c :: rest =>
    let w1 := update_entity entity (set_ai (Some (with_path rest))) w in
    (destination_clear w c.1 c.2
     ∧ strategies.follow_path entity with_path path w
       = (Entity_move entity (c.1 - x (heap w entity)) (c.2 - y (heap w entity)) w1, Ok tt))
    ∨ (¬ destination_clear w c.1 c.2
       ∧ strategies.follow_path entity with_path path w
         = (w1, Raise (Impossible "That way is blocked.")))
  end.
Proof.
  destruct path as [|[cx cy] rest]; [done |]. cbv zeta.
  set (w1 := update_entity entity (set_ai (Some (with_path rest))) w).
  assert (heap w1 entity = set_ai (Some (with_path rest)) (heap w entity)) as Hself
    by apply store_same.
  assert (strategies.follow_path entity with_path ((cx, cy) :: rest) w
          = actions.MovementAction_perform entity (cx - x (heap w entity))
              (cy - y (heap w entity)) w1) as ->.
  { unfold strategies.follow_path, strategies.write_self. run_M.
    by rewrite store_same. }
  assert (actions.dest_xy entity (cx - x (heap w entity)) (cy - y (heap w entity)) w1
          = (cx, cy)) as Hdest.
  { unfold actions.dest_xy. rewrite Hself. simpl. f_equal; lia. }
  pose proof (MovementAction_perform_cases w1 entity (cx - x (heap w entity))
                (cy - y (heap w entity))) as Hcases.
  cbv zeta in Hcases. rewrite Hdest in Hcases. simpl in Hcases |- *.
  assert (destination_clear w cx cy ↔ destination_clear w1 cx cy) as Hiff
    by (apply destination_clear_layout; [apply same_layout_ai | done]).
  destruct Hcases as [[Hc ->] | [Hc ->]]; [left | right]; by rewrite Hiff.
Qed.

Lemma unseen_seeker (path_to : (Z → Z → Z) → Z * Z → Z * Z → list (Z * Z))
    (scale10 : Z → Z → Z → Z) (rnd : nat) (coin : bool) (entity : nat) (w : World)
    (path : list (Z * Z)) :
  cached_path (ai (heap w entity)) = Some path → in_view w entity = false →
  ∃ with_path, (∀ l, cached_path (Some (with_path l)) = Some l)
    ∧ (∀ l, cooldown_of (Some (with_path l)) = cooldown_of (ai (heap w entity)))
    ∧ strategies.perform path_to scale10 rnd coin entity w
      = strategies.follow_path entity with_path path w.
Proof.
  unfold in_view, strategies.perform. intros Hpath Hvis.
  destruct (ai (heap w entity)) as [[p | prev n | prev n | p rng cd | p pd cd | | p cd] |];
    try done; injection Hpath as ->.
  - exists HostileEnemy. split_and!; [done | done |].
    unfold strategies.HostileEnemy_perform. run_M. by rewrite Hvis.
  - exists (λ l, HostileEnemyWithProjectile l rng cd). split_and!; [done | done |].
    unfold strategies.HostileEnemyWithProjectile_perform. run_M. by rewrite Hvis.
  - exists (λ l, RangedEnemy l pd cd). split_and!; [done | done |].
    unfold strategies.RangedEnemy_perform. run_M. by rewrite Hvis.
  - exists (λ l, BossAI l cd). split_and!; [done | done |].
    unfold strategies.BossAI_perform. run_M. by rewrite Hvis.
Qed.

(** X10.  A seeking actor (HostileEnemy, HostileEnemyWithProjectile,
    RangedEnemy, BossAI) whose tile is out of the player's view neither
    attacks nor shoots nor recomputes its path: hp, log, projectiles,
    cooldown and every other object are untouched.  With an empty cached
    path the tick changes nothing.  Otherwise the head of the path is
    taken off whether or not the step succeeds, and the actor is put on
    that very cell if it is clear, however far the cell is; if it is not
    clear the tick raises and the actor stays. *)
Theorem unseen_seeker_follows_cached_path
    (path_to : (Z → Z → Z) → Z * Z → Z * Z → list (Z * Z))
    (scale10 : Z → Z → Z → Z) (rnd : nat) (coin : bool) (entity : nat) (w : World)
    (path : list (Z * Z)) :
  cached_path (ai (heap w entity)) = Some path → in_view w entity = false →
  let r := strategies.perform path_to scale10 rnd coin entity w in
  (∀ t, hp_of r.1 t = hp_of w t)
  ∧ message_log r.1 = message_log w
  ∧ active_projectiles r.1 = active_projectiles w
  ∧ cooldown_of (ai (heap r.1 entity)) = cooldown_of (ai (heap w entity))
  ∧ (∀ t, t ≠ entity → heap r.1 t = heap w t)
  ∧ match path with
    | [] => r = (w, Ok tt)
    | c :: rest =>
      cached_path (ai (heap r.1 entity)) = Some rest
      ∧ (destination_clear w c.1 c.2 → r.2 = Ok tt ∧ position r.1 entity = c)
      ∧ (¬ destination_clear w c.1 c.2 →
         raised r = true ∧ position r.1 entity = position w entity)
    end.
Proof.
  intros Hpath Hvis. cbv zeta.
  destruct (unseen_seeker path_to scale10 rnd coin entity w path Hpath Hvis)
    as (with_path & Hwp & Hcd & ->).
  pose proof (follow_path_cases entity with_path path w) as Hcases.
  destruct path as [|c rest].
  { rewrite Hcases. simpl. by split_and!. }
  cbv zeta in Hcases.
  assert (∀ a dx dy t,
            hp_of (Entity_move entity dx dy (update_entity entity (set_ai a) w)) t
            = hp_of w t
            ∧ hp_of (update_entity entity (set_ai a) w) t = hp_of w t) as Hhp.
  { intros a dx dy t. unfold hp_of, Entity_move, update_entity, store. simpl.
    rewrite Nat.eqb_refl.
    by destruct (Nat.eqb t entity) eqn:E; [apply Nat.eqb_eq in E as -> |]. }
  destruct Hcases as [[Hc ->] | [Hc ->]]; cbn [fst snd].
  - split_and!; try done.
    + intros t. apply Hhp.
    + rewrite Entity_move_ai. unfold update_entity. simpl. rewrite store_same. simpl.
      apply Hcd.
    + intros t Hne. unfold Entity_move, update_entity. simpl.
      by rewrite !store_other.
    + rewrite Entity_move_ai. unfold update_entity. simpl. rewrite store_same. simpl.
      apply Hwp.
    + intros _. split; [done |].
      unfold position, Entity_move, update_entity. simpl. rewrite !store_same. simpl.
      destruct c as [cx cy]. simpl. f_equal; lia.
  - split_and!; try done.
    + intros t. apply Hhp; exact 0.
    + unfold update_entity. simpl. rewrite store_same. simpl. apply Hcd.
    + intros t Hne. unfold update_entity. simpl. by rewrite store_other.
    + unfold update_entity. simpl. rewrite store_same. simpl. apply Hwp.
    + intros _. split; [done |].
      unfold position, update_entity. simpl. by rewrite store_same.
Qed.

Lemma unseen_seeker_follows_cached_path_witness :
  cached_path (ai (heap courtyard_dark 2)) = Some [(5, 10); (5, 11)]
  ∧ in_view courtyard_dark 2 = false
  ∧ position courtyard_dark 2 = (5, 8)
  ∧ position (strategies.perform (λ _ root dest, [root; dest]) (λ d _ _, d) 0 true 2
                courtyard_dark).1 2 = (5, 10)
  ∧ cached_path (ai (heap (strategies.perform (λ _ root dest, [root; dest]) (λ d _ _, d)
                             0 true 2 courtyard_dark).1 2)) = Some [(5, 11)].
Proof.
  destruct (unseen_seeker_follows_cached_path
              (λ _ root dest, [root; dest]) (λ d _ _, d) 0 true 2 courtyard_dark
              [(5, 10); (5, 11)] eq_refl eq_refl)
    as (_ & _ & _ & _ & _ & Hpath & Hclear & _).
  split; [reflexivity |]. split; [reflexivity |]. split; [reflexivity |].
  split; [| exact Hpath].
  apply Hclear. split; [reflexivity |]. split; [reflexivity |].
  intros r Hr _ Heq.
  repeat (apply elem_of_cons in Hr as [-> | Hr]; [vm_compute in Heq; discriminate Heq |]).
  by apply elem_of_nil in Hr.
Defined.
